(** * Verification of the Binance screener core

    A shallow embedding of [scripts/lib/indicators.js], [scripts/lib/api.js],
    [scripts/lib/filters.js] and of the analysis loop of
    [scripts/binance-screener.js], with the properties of the technical
    indicators, of the filter evaluator, of the scorer and of the batched
    retrieval loop.

    Numbers.  A JavaScript number is a binary64 value.  Two embeddings of the
    arithmetic are used, each for the properties it can carry.

    - [JsNum]: a number is an exact rational or one of the three IEEE special
      values (+Infinity, -Infinity, NaN), and every operation returns the
      reduced fraction of the mathematical result.  Division by zero,
      comparisons with NaN and the propagation of the special values follow
      IEEE 754.  Rounding, overflow and the sign of zero are absent, so this
      embedding carries the properties that do not depend on them: lengths,
      guards and thrown errors, index alignment, comparisons of given
      values, the scorer, the filters, the retrieval loop and the pipeline.

    - [Rounded]: the indicator functions over an interface of the operations
      they use.  The interface is instantiated by the binary64 operations of
      the kernel (primitive floats), which run the code on concrete inputs,
      and by correctly rounded operations on [num], parametrised by the
      rounding function and constrained by the laws of IEEE 754 rounding
      (monotone, the identity on representable values, exact on the
      integers up to 2^53, overflow to an infinity).  The properties of the
      computed values of the RSI, of the simple moving average and of the
      Bollinger bands are proved for every rounding that satisfies these
      laws.  [Binary64] defines the rounding of binary64 on the rationals;
      it is proved to satisfy the laws, and it gives the numbers of the
      primitive floats on the operands and runs compared below. *)

From Stdlib Require Import PrimFloat.
From Stdlib Require FloatOps.
From Stdlib Require Import String QArith Qreduction Qabs Qround Qpower ZArith Bool Lia Lqa Arith List.
From Stdlib Require Import Ascii Sorted Permutation.
From Stdlib Require Qcanon.
Import ListNotations.

Set Implicit Arguments.

(** ** JavaScript numbers *)

Module JsNum.

Inductive num : Type :=
| Fin (q : Q)
| PInf
| NInf
| NaN.

Definition of_Z (z : Z) : num := Fin (inject_Z z).
Definition of_nat (n : nat) : num := of_Z (Z.of_nat n).

Definition add (a b : num) : num :=
  match a, b with
  | NaN, _ | _, NaN => NaN
  | Fin x, Fin y => Fin (Qred (x + y))
  | PInf, NInf | NInf, PInf => NaN
  | PInf, _ | _, PInf => PInf
  | NInf, _ | _, NInf => NInf
  end.

Definition sub (a b : num) : num :=
  match a, b with
  | NaN, _ | _, NaN => NaN
  | Fin x, Fin y => Fin (Qred (x - y))
  | PInf, PInf | NInf, NInf => NaN
  | PInf, _ | _, NInf => PInf
  | NInf, _ | _, PInf => NInf
  end.

Definition mul (a b : num) : num :=
  match a, b with
  | NaN, _ | _, NaN => NaN
  | Fin x, Fin y => Fin (Qred (x * y))
  | Fin x, PInf | PInf, Fin x =>
      match x ?= 0 with Eq => NaN | Gt => PInf | Lt => NInf end
  | Fin x, NInf | NInf, Fin x =>
      match x ?= 0 with Eq => NaN | Gt => NInf | Lt => PInf end
  | PInf, PInf | NInf, NInf => PInf
  | PInf, NInf | NInf, PInf => NInf
  end.

Definition div (a b : num) : num :=
  match a, b with
  | NaN, _ | _, NaN => NaN
  | Fin x, Fin y =>
      match y ?= 0 with
      | Eq => match x ?= 0 with Eq => NaN | Gt => PInf | Lt => NInf end
      | _ => Fin (Qred (x / y))
      end
  | Fin _, _ => Fin 0
  | PInf, Fin y => match y ?= 0 with Lt => NInf | _ => PInf end
  | NInf, Fin y => match y ?= 0 with Lt => PInf | _ => NInf end
  | _, _ => NaN
  end.

(** Ordering: [None] when one side is NaN (every comparison is then false). *)
Definition compare (a b : num) : option comparison :=
  match a, b with
  | NaN, _ | _, NaN => None
  | Fin x, Fin y => Some (x ?= y)
  | PInf, PInf | NInf, NInf => Some Eq
  | PInf, _ | _, NInf => Some Gt
  | NInf, _ | _, PInf => Some Lt
  end.

Definition lt (a b : num) : bool :=
  match compare a b with Some Lt => true | _ => false end.
Definition gt (a b : num) : bool :=
  match compare a b with Some Gt => true | _ => false end.
Definition le (a b : num) : bool :=
  match compare a b with Some Lt | Some Eq => true | _ => false end.
Definition ge (a b : num) : bool :=
  match compare a b with Some Gt | Some Eq => true | _ => false end.
(** [===] on numbers. *)
Definition eqb (a b : num) : bool :=
  match compare a b with Some Eq => true | _ => false end.

Definition Math_abs (a : num) : num :=
  match a with
  | Fin q => Fin (Qred (Qabs q))
  | PInf | NInf => PInf
  | NaN => NaN
  end.

Definition Math_max (a b : num) : num :=
  match compare a b with
  | None => NaN
  | Some Lt => b
  | Some _ => a
  end.

Definition Math_min (a b : num) : num :=
  match compare a b with
  | None => NaN
  | Some Gt => b
  | Some _ => a
  end.

(** [Math.pow(x, 2)]. *)
Definition Math_pow2 (a : num) : num := mul a a.

(** [arr.reduce((a, b) => a + b, 0)]. *)
Definition reduce_sum (l : list num) : num := fold_left add l (Fin 0).

(** [arr[arr.length - 1]]; [undefined] on the empty array is not a number
    and is rendered by [NaN]. *)
Definition last_of (l : list num) : num := last l NaN.

(** [arr[arr.length - 2]]. *)
Definition last2_of (l : list num) : num := last (removelast l) NaN.

(** [arr[i]] used as a number: an index outside the array gives [undefined],
    which arithmetic turns into [NaN]. *)
Definition js_nth (l : list num) (i : Z) : num :=
  if (i <? 0)%Z then NaN else nth (Z.to_nat i) l NaN.

(** [arr.slice(a, b)] for [0 <= a]. *)
Definition slice {A : Type} (a b : nat) (l : list A) : list A :=
  firstn (b - a) (skipn a l).

End JsNum.

Import JsNum.

Declare Scope num_scope.
Delimit Scope num_scope with num.
Bind Scope num_scope with num.
Infix "+" := add : num_scope.
Infix "-" := sub : num_scope.
Infix "*" := mul : num_scope.
Infix "/" := div : num_scope.

(** ** Errors

    Every indicator throws [new Error("Not enough data for <name>
    calculation. Need at least <n> data points.")] when its input is too
    short; nothing else is thrown by the library. *)

Inductive indicator : Type := RSI | SMA | EMA | MACD | Bollinger.

Inductive error : Type :=
| NotEnoughData (who : indicator) (need : nat).

Inductive result (A : Type) : Type :=
| Ok (a : A)
| Throw (e : error).
Arguments Ok {A} a.
Arguments Throw {A} e.

Definition bind {A B : Type} (r : result A) (k : A -> result B) : result B :=
  match r with
  | Ok a => k a
  | Throw e => Throw e
  end.

Notation "'let*' x ':=' r 'in' k" := (bind r (fun x => k))
  (at level 10, x name, r at level 100, k at level 200).

Definition is_ok {A : Type} (r : result A) : bool :=
  match r with Ok _ => true | Throw _ => false end.

(** ** indicators.js *)

(** The price changes [closes[i] - closes[i-1]] for [i = 1 .. length-1]. *)
Fixpoint changes_from (prev : num) (rest : list num) : list num :=
  match rest with
  | [] => []
  | c :: rest' => (c - prev)%num :: changes_from c rest'
  end.

Definition changes_of (closes : list num) : list num :=
  match closes with
  | [] => []
  | c0 :: rest => changes_from c0 rest
  end.

Definition gains_of (changes : list num) : list num :=
  map (fun c => if gt c (Fin 0) then c else Fin 0) changes.

Definition losses_of (changes : list num) : list num :=
  map (fun c => if lt c (Fin 0) then Math_abs c else Fin 0) changes.

(** The value pushed for one pair of averages. *)
Definition rsi_point (avgGain avgLoss : num) : num :=
  if eqb avgLoss (Fin 0) then Fin 100
  else
    let rs := (avgGain / avgLoss)%num in
    (Fin 100 - (Fin 100 / (Fin 1 + rs)))%num.

(** Wilder's smoothing: the loop [for (i = period; i < changes.length; i++)],
    run over the gains and losses from index [period] on. *)
Fixpoint rsi_smooth (period : nat) (avgGain avgLoss : num)
    (gains losses : list num) : list num :=
  match gains, losses with
  | g :: gains', l :: losses' =>
      let avgGain' := ((avgGain * of_Z (Z.of_nat period - 1) + g) / of_nat period)%num in
      let avgLoss' := ((avgLoss * of_Z (Z.of_nat period - 1) + l) / of_nat period)%num in
      rsi_point avgGain' avgLoss'
        :: rsi_smooth period avgGain' avgLoss' gains' losses'
  | _, _ => []
  end.

Definition calculateRSI (closes : list num) (period : nat) : result (list num) :=
  if (length closes <? period + 1)%nat then Throw (NotEnoughData RSI (period + 1))
  else
    let changes := changes_of closes in
    let gains := gains_of changes in
    let losses := losses_of changes in
    let avgGain := (reduce_sum (firstn period gains) / of_nat period)%num in
    let avgLoss := (reduce_sum (firstn period losses) / of_nat period)%num in
    Ok (rsi_point avgGain avgLoss
          :: rsi_smooth period avgGain avgLoss
               (skipn period gains) (skipn period losses)).

(** [for (let i = period - 1; i < prices.length; i++)]: the window of
    iteration [i] is [prices.slice(i - period + 1, i + 1)], that is
    [slice k (k + period)] for [k = i - period + 1 = 0 .. length - period]. *)
Definition calculateSMA (prices : list num) (period : nat) : result (list num) :=
  if (length prices <? period)%nat then Throw (NotEnoughData SMA period)
  else
    Ok (map (fun k => (reduce_sum (slice k (k + period) prices) / of_nat period)%num)
            (seq 0 (length prices - period + 1))).

(** The loop [for (i = period; i < prices.length; i++)] of [calculateEMA];
    [prev] is [emaValues[emaValues.length - 1]]. *)
Fixpoint ema_loop (multiplier prev : num) (rest : list num) : list num :=
  match rest with
  | [] => []
  | p :: rest' =>
      let ema := ((p - prev) * multiplier + prev)%num in
      ema :: ema_loop multiplier ema rest'
  end.

Definition calculateEMA (prices : list num) (period : nat) : result (list num) :=
  if (length prices <? period)%nat then Throw (NotEnoughData EMA period)
  else
    let multiplier := (Fin 2 / (of_nat period + Fin 1))%num in
    let firstSMA := (reduce_sum (slice 0 period prices) / of_nat period)%num in
    Ok (firstSMA :: ema_loop multiplier firstSMA (skipn period prices)).

Record macd_data : Type := {
  macdLine : list num;
  signalLine : list num;
  histogram : list num
}.

Definition calculateMACD (closes : list num) (fast slow signal : nat)
  : result macd_data :=
  if (length closes <? slow + signal)%nat
  then Throw (NotEnoughData MACD (slow + signal))
  else
    let* fastEMA := calculateEMA closes fast in
    let* slowEMA := calculateEMA closes slow in
    let offset := (Z.of_nat slow - Z.of_nat fast)%Z in
    let macdLine :=
      map (fun i => (js_nth fastEMA (Z.of_nat i + offset) - js_nth slowEMA (Z.of_nat i))%num)
          (seq 0 (length slowEMA)) in
    let* signalLine := calculateEMA macdLine signal in
    let signalOffset := (Z.of_nat (length macdLine) - Z.of_nat (length signalLine))%Z in
    let histogram :=
      map (fun i => (js_nth macdLine (Z.of_nat i + signalOffset) - js_nth signalLine (Z.of_nat i))%num)
          (seq 0 (length signalLine)) in
    Ok {| macdLine := macdLine; signalLine := signalLine; histogram := histogram |}.

Record bollinger_data : Type := {
  upper : list num;
  middle : list num;
  lower : list num
}.

Definition isGoldenCross (maFast maSlow : list num) : bool :=
  if (length maFast <? 2)%nat || (length maSlow <? 2)%nat then false
  else
    let fastPrev := last2_of maFast in
    let fastCurr := last_of maFast in
    let slowPrev := last2_of maSlow in
    let slowCurr := last_of maSlow in
    le fastPrev slowPrev && gt fastCurr slowCurr.

Definition isDeathCross (maFast maSlow : list num) : bool :=
  if (length maFast <? 2)%nat || (length maSlow <? 2)%nat then false
  else
    let fastPrev := last2_of maFast in
    let fastCurr := last_of maFast in
    let slowPrev := last2_of maSlow in
    let slowCurr := last_of maSlow in
    ge fastPrev slowPrev && lt fastCurr slowCurr.

Definition isMACDBullishCross (histogram : list num) : bool :=
  if (length histogram <? 2)%nat then false
  else
    let prev := last2_of histogram in
    let curr := last_of histogram in
    lt prev (Fin 0) && gt curr (Fin 0).

Definition isMACDBearishCross (histogram : list num) : bool :=
  if (length histogram <? 2)%nat then false
  else
    let prev := last2_of histogram in
    let curr := last_of histogram in
    gt prev (Fin 0) && lt curr (Fin 0).

Record macd_snapshot : Type := {
  macd_value : num;
  macd_signal : num;
  macd_histogram : num
}.

Record bollinger_snapshot : Type := {
  bb_upper : num;
  bb_middle : num;
  bb_lower : num
}.

Record cross_flags : Type := {
  goldenCross : bool;
  deathCross : bool;
  macdBullish : bool;
  macdBearish : bool
}.

Record indicators : Type := {
  rsi : num;
  macd : macd_snapshot;
  ma20 : num;
  ma50 : num;
  bollinger : bollinger_snapshot;
  price : num;
  crosses : cross_flags
}.

(** [Math.sqrt] is a library function.  It is taken through its values on
    the non-negative rationals, [qsqrt]; what the proofs need of it is stated
    where it is needed. *)
Section WithSqrt.

Variable qsqrt : Q -> Q.

Definition Math_sqrt (a : num) : num :=
  match a with
  | Fin q => match q ?= 0 with Lt => NaN | _ => Fin (qsqrt q) end
  | PInf => PInf
  | NInf | NaN => NaN
  end.

(** The body of the loop of [calculateBollingerBands] at index [i]: the
    variance of the window and the pair (upper, lower) pushed. *)
Definition bb_variance (prices : list num) (period : nat) (mean : num) (i : nat) : num :=
  let slice_i := slice i (i + period) prices in
  let squaredDiffs := map (fun p => Math_pow2 (p - mean)%num) slice_i in
  (reduce_sum squaredDiffs / of_nat period)%num.

Definition bb_band (prices : list num) (period : nat) (stdDev : num)
    (middle : list num) (i : nat) : num * num :=
  let mean := js_nth middle (Z.of_nat i) in
  let variance := bb_variance prices period mean i in
  let stdDeviation := Math_sqrt variance in
  ((mean + stdDev * stdDeviation)%num, (mean - stdDev * stdDeviation)%num).

Definition calculateBollingerBands (prices : list num) (period : nat) (stdDev : num)
  : result bollinger_data :=
  if (length prices <? period)%nat then Throw (NotEnoughData Bollinger period)
  else
    let* middle := calculateSMA prices period in
    let bands := map (bb_band prices period stdDev middle) (seq 0 (length middle)) in
    Ok {| upper := map fst bands; middle := middle; lower := map snd bands |}.

Definition getLatestIndicators (closes highs lows : list num) : result indicators :=
  let* rsiValues := calculateRSI closes 14 in
  let* macdData := calculateMACD closes 12 26 9 in
  let* ma20 := calculateSMA closes 20 in
  let* ma50 := calculateSMA closes 50 in
  let* bbData := calculateBollingerBands closes 20 (Fin 2) in
  let currentPrice := last_of closes in
  Ok {| rsi := last_of rsiValues;
        macd := {| macd_value := last_of macdData.(macdLine);
                   macd_signal := last_of macdData.(signalLine);
                   macd_histogram := last_of macdData.(histogram) |};
        ma20 := last_of ma20;
        ma50 := last_of ma50;
        bollinger := {| bb_upper := last_of bbData.(upper);
                        bb_middle := last_of bbData.(middle);
                        bb_lower := last_of bbData.(lower) |};
        price := currentPrice;
        crosses := {| goldenCross := isGoldenCross ma20 ma50;
                      deathCross := isDeathCross ma20 ma50;
                      macdBullish := isMACDBullishCross macdData.(histogram);
                      macdBearish := isMACDBearishCross macdData.(histogram) |} |}.

End WithSqrt.

(** ** filters.js *)

(** Filter criteria.  A key that is absent from the JavaScript object is
    [None]; [rsi_between] holds the two elements [min, max] of the array. *)
Record rsi_filter : Type := {
  rsi_below : option num;
  rsi_above : option num;
  rsi_between : option (num * num)
}.

Record macd_filter : Type := {
  macd_bullish : option bool;
  macd_bearish : option bool;
  macd_histogramPositive : option bool
}.

Record ma_filter : Type := {
  ma_goldenCross : option bool;
  ma_deathCross : option bool;
  ma_above : option num;
  ma_below : option num
}.

Record bollinger_filter : Type := {
  bb_touchUpper : option bool;
  bb_touchLower : option bool;
  bb_belowLower : option bool;
  bb_aboveUpper : option bool;
  bb_narrow : option bool;
  bb_wide : option bool
}.

Record price_filter : Type := {
  price_min : option num;
  price_max : option num
}.

Record filters : Type := {
  f_rsi : option rsi_filter;
  f_macd : option macd_filter;
  f_ma : option ma_filter;
  f_bollinger : option bollinger_filter;
  f_price : option price_filter
}.

(** Truthiness of an optional boolean property. *)
Definition truthy (o : option bool) : bool :=
  match o with Some true => true | _ => false end.

Definition is_defined {A : Type} (o : option A) : bool :=
  match o with Some _ => true | None => false end.

(** [Object.keys(filters).length === 0]. *)
Definition no_keys (f : filters) : bool :=
  negb (is_defined f.(f_rsi)) && negb (is_defined f.(f_macd))
  && negb (is_defined f.(f_ma)) && negb (is_defined f.(f_bollinger))
  && negb (is_defined f.(f_price)).

(** Each block [if (filters.<category>) { ... }] of [matchesFilters], as the
    boolean "no [return false] was taken in the block". *)
Definition rsi_block (ind : indicators) (f : rsi_filter) : bool :=
  if match f.(rsi_below) with Some v => ge ind.(rsi) v | None => false end then false
  else if match f.(rsi_above) with Some v => le ind.(rsi) v | None => false end then false
  else match f.(rsi_between) with
       | Some (min, max) =>
           if lt ind.(rsi) min || gt ind.(rsi) max then false else true
       | None => true
       end.

Definition macd_block (ind : indicators) (f : macd_filter) : bool :=
  if truthy f.(macd_bullish) && negb ind.(crosses).(macdBullish) then false
  else if truthy f.(macd_bearish) && negb ind.(crosses).(macdBearish) then false
  else match f.(macd_histogramPositive) with
       | Some flag =>
           let isPositive := gt ind.(macd).(macd_histogram) (Fin 0) in
           if flag && negb isPositive then false
           else if negb flag && isPositive then false
           else true
       | None => true
       end.

Definition ma_block (ind : indicators) (f : ma_filter) : bool :=
  if truthy f.(ma_goldenCross) && negb ind.(crosses).(goldenCross) then false
  else if truthy f.(ma_deathCross) && negb ind.(crosses).(deathCross) then false
  else if match f.(ma_above) with
          | Some p =>
              (eqb p (Fin 20) && le ind.(price) ind.(ma20))
              || (eqb p (Fin 50) && le ind.(price) ind.(ma50))
          | None => false
          end then false
  else if match f.(ma_below) with
          | Some p =>
              (eqb p (Fin 20) && ge ind.(price) ind.(ma20))
              || (eqb p (Fin 50) && ge ind.(price) ind.(ma50))
          | None => false
          end then false
  else true.

(** The literals 0.995, 1.005 and 0.1 are taken at their decimal values;
    what is proved of this block does not depend on them. *)
Definition bollinger_block (ind : indicators) (f : bollinger_filter) : bool :=
  let upper := ind.(bollinger).(bb_upper) in
  let middle := ind.(bollinger).(bb_middle) in
  let lower := ind.(bollinger).(bb_lower) in
  if truthy f.(bb_touchUpper) && negb (ge ind.(price) (upper * Fin (199 # 200))%num)
  then false
  else if truthy f.(bb_touchLower) && negb (le ind.(price) (lower * Fin (201 # 200))%num)
  then false
  else if truthy f.(bb_belowLower) && ge ind.(price) lower then false
  else if truthy f.(bb_aboveUpper) && le ind.(price) upper then false
  else if truthy f.(bb_narrow) && gt ((upper - lower) / middle)%num (Fin (1 # 10))
  then false
  else if truthy f.(bb_wide) && lt ((upper - lower) / middle)%num (Fin (1 # 10))
  then false
  else true.

Definition price_block (ind : indicators) (f : price_filter) : bool :=
  if match f.(price_min) with Some v => lt ind.(price) v | None => false end then false
  else if match f.(price_max) with Some v => gt ind.(price) v | None => false end then false
  else true.

Definition block {F : Type} (check : indicators -> F -> bool)
    (ind : indicators) (f : option F) : bool :=
  match f with Some c => check ind c | None => true end.

Definition matchesFilters (ind : indicators) (f : option filters) : bool :=
  match f with
  | None => true
  | Some f =>
      if no_keys f then true
      else if negb (block rsi_block ind f.(f_rsi)) then false
      else if negb (block macd_block ind f.(f_macd)) then false
      else if negb (block ma_block ind f.(f_ma)) then false
      else if negb (block bollinger_block ind f.(f_bollinger)) then false
      else if negb (block price_block ind f.(f_price)) then false
      else true
  end.

(** The score before [Math.min(100, Math.max(0, score))]. *)
Definition raw_score (ind : indicators) : num :=
  let score := Fin 50 in
  let score :=
    if lt ind.(rsi) (Fin 30) then (score + (Fin 30 - ind.(rsi)))%num
    else if gt ind.(rsi) (Fin 70) then (score + (ind.(rsi) - Fin 70))%num
    else score in
  let score := if ind.(crosses).(macdBullish) then (score + Fin 15)%num else score in
  let score := if ind.(crosses).(goldenCross) then (score + Fin 15)%num else score in
  let upper := ind.(bollinger).(bb_upper) in
  let lower := ind.(bollinger).(bb_lower) in
  let bandWidth := (upper - lower)%num in
  let position := ((ind.(price) - lower) / bandWidth)%num in
  let score := if lt position (Fin (1 # 10)) then (score + Fin 10)%num else score in
  let score := if gt position (Fin (9 # 10)) then (score + Fin 10)%num else score in
  score.

Definition calculateScore (ind : indicators) : num :=
  Math_min (Fin 100) (Math_max (Fin 0) (raw_score ind)).

(** ** api.js *)

(** One candle, after [parseFloat] of its price fields. *)
Record kline : Type := {
  k_open : num;
  k_high : num;
  k_low : num;
  k_close : num;
  k_volume : num
}.

Record ohlc : Type := {
  opens : list num;
  highs : list num;
  lows : list num;
  closes : list num;
  volumes : list num
}.

Definition parseKlines (klines : list kline) : ohlc :=
  {| opens := map k_open klines;
     highs := map k_high klines;
     lows := map k_low klines;
     closes := map k_close klines;
     volumes := map k_volume klines |}.

Definition BATCH_SIZE : nat := 20.
Definition BATCH_DELAY : nat := 1000.
Definition REQUEST_DELAY : nat := 100.

(** The exchange: the answer to the [n]-th request of a run, for a symbol.
    [None] is a failed request (a response that is not ok, or an exception of
    [fetch]); [fetchKlines] catches both and returns [null]. *)
Definition exchange : Type := nat -> string -> option (list kline).

(** What a run does, in order. *)
Inductive event : Type :=
| EvFetch (symbol : string)
| EvProgress (processed total : nat) (symbol : string)
| EvDelay (ms : nat).

(** A JavaScript [Map] from symbols: the entries in insertion order;
    [set] on a key that is present replaces its value in place. *)
Definition symbol_map (V : Type) : Type := list (string * V).

Fixpoint map_set {V : Type} (m : symbol_map V) (k : string) (v : V) : symbol_map V :=
  match m with
  | [] => [(k, v)]
  | (k', v') :: m' =>
      if String.eqb k' k then (k, v) :: m' else (k', v') :: map_set m' k v
  end.

Definition map_has {V : Type} (m : symbol_map V) (k : string) : bool :=
  existsb (fun kv => String.eqb (fst kv) k) m.

(** The state threaded through [fetchKlinesBatch]. *)
Record fetch_state : Type := {
  requests : nat;
  trace : list event;
  results : symbol_map (list kline);
  processed : nat
}.

Definition emit (e : event) (st : fetch_state) : fetch_state :=
  {| requests := st.(requests); trace := st.(trace) ++ [e];
     results := st.(results); processed := st.(processed) |}.

Definition delay (ms : nat) (st : fetch_state) : fetch_state :=
  emit (EvDelay ms) st.

Definition fetchKlines (net : exchange) (symbol : string) (st : fetch_state)
  : option (list kline) * fetch_state :=
  (net st.(requests) symbol,
   {| requests := S st.(requests); trace := st.(trace) ++ [EvFetch symbol];
      results := st.(results); processed := st.(processed) |}).

(** The body of [for (const symbol of batch)]. *)
Definition fetch_one (net : exchange) (observer : bool) (totalSymbols : nat)
    (st : fetch_state) (symbol : string) : fetch_state :=
  let (klines, st) := fetchKlines net symbol st in
  let st :=
    match klines with
    | Some (k :: ks) =>
        {| requests := st.(requests); trace := st.(trace);
           results := map_set st.(results) symbol (k :: ks);
           processed := st.(processed) |}
    | _ => st
    end in
  let st :=
    {| requests := st.(requests); trace := st.(trace);
       results := st.(results); processed := S st.(processed) |} in
  let st :=
    if observer then emit (EvProgress st.(processed) totalSymbols symbol) st else st in
  delay REQUEST_DELAY st.

(** The loop [for (let i = 0; i < symbols.length; i += batchSize)], from
    index [i] on.  The loop need not end (a batch size of 0 never advances),
    so it is run with fuel: [None] is "still running". *)
Fixpoint batch_loop (fuel : nat) (batchSize : nat) (net : exchange) (observer : bool)
    (symbols : list string) (i : nat) (st : fetch_state) : option fetch_state :=
  if (i <? length symbols)%nat then
    match fuel with
    | O => None
    | S fuel' =>
        let batch := slice i (Nat.min (i + batchSize) (length symbols)) symbols in
        let st := fold_left (fetch_one net observer (length symbols)) batch st in
        let st :=
          if (i + batchSize <? length symbols)%nat then delay BATCH_DELAY st else st in
        batch_loop fuel' batchSize net observer symbols (i + batchSize) st
    end
  else Some st.

Definition fetch_start : fetch_state :=
  {| requests := 0; trace := []; results := []; processed := 0 |}.

(** [fetchKlinesBatch] with the batch size as a parameter. *)
Definition fetchKlinesBatch_with (fuel batchSize : nat) (net : exchange)
    (symbols : list string) (observer : bool) : option fetch_state :=
  batch_loop fuel batchSize net observer symbols 0 fetch_start.

Definition fetchKlinesBatch (fuel : nat) (net : exchange)
    (symbols : list string) (observer : bool) : option fetch_state :=
  fetchKlinesBatch_with fuel BATCH_SIZE net symbols observer.

Definition batch_delays (t : list event) : nat :=
  length (filter (fun e => match e with EvDelay ms => (ms =? BATCH_DELAY)%nat | _ => false end) t).

Definition fetched_symbols (t : list event) : list string :=
  flat_map (fun e => match e with EvFetch s => [s] | _ => [] end) t.

(** ** binance-screener.js *)

Record result_indicators : Type := {
  ri_rsi : num;
  ri_macd : macd_snapshot;
  ri_ma20 : num;
  ri_ma50 : num;
  ri_bollinger : bollinger_snapshot
}.

Record scan_result : Type := {
  sr_symbol : string;
  sr_price : num;
  sr_indicators : result_indicators;
  sr_crosses : cross_flags;
  sr_score : num
}.

(** The report, without its [timestamp] (the clock is not modelled). *)
Record scan_report : Type := {
  interval : string;
  report_filters : filters;
  report_results : list scan_result;
  totalScanned : nat;
  matchedCount : nat
}.

(** [results.sort((a, b) => b.score - a.score)]: the sort is stable; [a] stays
    in front of [b] unless the comparator is positive. *)
Fixpoint insert_by_score (a : scan_result) (l : list scan_result) : list scan_result :=
  match l with
  | [] => [a]
  | b :: l' =>
      if gt (b.(sr_score) - a.(sr_score))%num (Fin 0)
      then b :: insert_by_score a l'
      else a :: l
  end.

Definition sort_by_score (l : list scan_result) : list scan_result :=
  fold_right insert_by_score [] l.

Section Screener.

Variable qsqrt : Q -> Q.

(** The body of [for (const [symbol, klines] of klinesMap)]; the state is the
    pair of [results] and [scanned]. *)
Definition analyze_one (f : filters) (acc : list scan_result * nat)
    (entry : string * list kline) : list scan_result * nat :=
  let (results, scanned) := acc in
  let (symbol, klines) := entry in
  let scanned := S scanned in
  if (length klines <? 100)%nat then (results, scanned)
  else
    let o := parseKlines klines in
    match getLatestIndicators qsqrt o.(closes) o.(highs) o.(lows) with
    | Ok ind =>
        if matchesFilters ind (Some f) then
          (results ++
             [{| sr_symbol := symbol;
                 sr_price := ind.(price);
                 sr_indicators :=
                   {| ri_rsi := ind.(rsi); ri_macd := ind.(macd);
                      ri_ma20 := ind.(ma20); ri_ma50 := ind.(ma50);
                      ri_bollinger := ind.(bollinger) |};
                 sr_crosses := ind.(crosses);
                 sr_score := calculateScore ind |}],
           scanned)
        else (results, scanned)
    | Throw _ => (results, scanned)
    end.

(** The part of [scanSymbols] after the retrieval: analysis, sort,
    truncation and report. *)
Definition analyze (klinesMap : symbol_map (list kline)) (f : filters)
    (itv : string) (maxResults : Z) : scan_report :=
  let (results, scanned) := fold_left (analyze_one f) klinesMap ([], 0%nat) in
  let sorted := sort_by_score results in
  let finalResults :=
    if (maxResults >? 0)%Z then slice 0 (Z.to_nat maxResults) sorted else sorted in
  {| interval := itv;
     report_filters := f;
     report_results := finalResults;
     totalScanned := scanned;
     matchedCount := length sorted |}.

(** [scanSymbols] from the list of symbols to scan on (the universe of pairs
    and its narrowing by volume come from the exchange). *)
Definition scanSymbols (fuel : nat) (net : exchange) (symbols : list string)
    (f : filters) (itv : string) (maxResults : Z) : option scan_report :=
  match fetchKlinesBatch fuel net symbols true with
  | Some st => Some (analyze st.(results) f itv maxResults)
  | None => None
  end.

End Screener.

(** ** filters.js: criteria from the command line *)

(** The parsed command line of the screener.  An option that was not given
    is [None] (or [false] for a flag, which is [true] or absent).  The
    numeric options hold the result of [parseFloat] or [parseInt]; the others
    hold the next word of the command line as it is. *)
Record cli_args : Type := {
  arg_interval : option string;
  arg_limit : num;
  arg_maxResults : num;
  arg_topVolume : num;
  rsiBelow : option num;
  rsiAbove : option num;
  rsiBetween : option string;
  macdBullish_flag : bool;
  macdBearish_flag : bool;
  macdHistogramPositive : option string;
  maGoldenCross : bool;
  maDeathCross : bool;
  maAbove : option string;
  maBelow : option string;
  bbLower : bool;
  bbUpper : bool;
  bdBelowLower : bool;
  bbAboveUpper : bool;
  bbNarrow : bool;
  bbWide : bool;
  priceMin : option string;
  priceMax : option string
}.

(** [s.split(',')]. *)
Fixpoint split_commas (s : string) : list string :=
  match s with
  | EmptyString => [EmptyString]
  | String c s' =>
      if Ascii.eqb c ","%char then EmptyString :: split_commas s'
      else match split_commas s' with
           | [] => [String c EmptyString]
           | h :: t => String c h :: t
           end
  end.

(** A flag that is set becomes the property [true]; otherwise the property
    is absent. *)
Definition flag (b : bool) : option bool := if b then Some true else None.

Section Parsers.

(** [parseFloat], [parseInt] and [Number] on strings are library functions. *)
Variable parseFloat : string -> num.
Variable parseInt : string -> num.
Variable Number : string -> num.

Definition parseFiltersFromArgs (args : cli_args) : filters :=
  {| f_rsi :=
       if is_defined args.(rsiBelow) || is_defined args.(rsiAbove)
          || is_defined args.(rsiBetween)
       then Some {| rsi_below := args.(rsiBelow);
                    rsi_above := args.(rsiAbove);
                    rsi_between :=
                      match args.(rsiBetween) with
                      | Some s =>
                          let between := map Number (split_commas s) in
                          Some (nth 0 between NaN, nth 1 between NaN)
                      | None => None
                      end |}
       else None;
     f_macd :=
       if args.(macdBullish_flag) || args.(macdBearish_flag)
          || is_defined args.(macdHistogramPositive)
       then Some {| macd_bullish := flag args.(macdBullish_flag);
                    macd_bearish := flag args.(macdBearish_flag);
                    macd_histogramPositive :=
                      match args.(macdHistogramPositive) with
                      | Some s => Some (String.eqb s "true")
                      | None => None
                      end |}
       else None;
     f_ma :=
       if args.(maGoldenCross) || args.(maDeathCross)
          || is_defined args.(maAbove) || is_defined args.(maBelow)
       then Some {| ma_goldenCross := flag args.(maGoldenCross);
                    ma_deathCross := flag args.(maDeathCross);
                    ma_above := option_map parseInt args.(maAbove);
                    ma_below := option_map parseInt args.(maBelow) |}
       else None;
     f_bollinger :=
       if args.(bbLower) || args.(bbUpper) || args.(bdBelowLower)
          || args.(bbAboveUpper) || args.(bbNarrow) || args.(bbWide)
       then Some {| bb_touchUpper := flag args.(bbUpper);
                    bb_touchLower := flag args.(bbLower);
                    bb_belowLower := flag args.(bdBelowLower);
                    bb_aboveUpper := flag args.(bbAboveUpper);
                    bb_narrow := flag args.(bbNarrow);
                    bb_wide := flag args.(bbWide) |}
       else None;
     f_price :=
       if is_defined args.(priceMin) || is_defined args.(priceMax)
       then Some {| price_min := option_map parseFloat args.(priceMin);
                    price_max := option_map parseFloat args.(priceMax) |}
       else None |}.

(** ** binance-screener.js: the checks of [main] *)

Definition INTERVALS : list string :=
  ["1m"; "3m"; "5m"; "15m"; "30m"; "1h"; "2h"; "4h"; "6h"; "8h"; "12h"; "1d";
   "3d"; "1w"; "1M"]%string.

(** [INTERVALS.includes(x)]; an option without a value is [undefined]. *)
Definition interval_included (x : option string) : bool :=
  match x with
  | Some s => existsb (String.eqb s) INTERVALS
  | None => false
  end.

(** Why [main] exits with code 1 before it scans. *)
Inductive rejection : Type :=
| InvalidInterval
| LimitOutOfRange
| NoFilterGiven.

(** The three checks of [main], in order; [None] when the scan starts. *)
Definition main_checks (args : cli_args) : option rejection :=
  if negb (interval_included args.(arg_interval)) then Some InvalidInterval
  else if lt args.(arg_limit) (Fin 50) || gt args.(arg_limit) (Fin 1000)
  then Some LimitOutOfRange
  else if no_keys (parseFiltersFromArgs args) then Some NoFilterGiven
  else None.

End Parsers.

(** ** api.js: the universe of pairs *)

(** One entry of [data.symbols] in the answer of [/exchangeInfo]. *)
Record symbol_info : Type := {
  si_symbol : string;
  si_quoteAsset : string;
  si_status : string
}.

(** [s.includes(sub)]. *)
Fixpoint includes (s sub : string) : bool :=
  prefix sub s
  || match s with
     | EmptyString => false
     | String _ s' => includes s' sub
     end.

(** The predicate of the [filter] in [getAllUSDTPairs]. *)
Definition tradable_usdt (i : symbol_info) : bool :=
  String.eqb i.(si_quoteAsset) "USDT"
  && String.eqb i.(si_status) "TRADING"
  && negb (includes i.(si_symbol) "UP")
  && negb (includes i.(si_symbol) "DOWN")
  && negb (includes i.(si_symbol) "BULL")
  && negb (includes i.(si_symbol) "BEAR").

(** [arr.sort()] on strings: ascending order of the character codes. *)
Fixpoint insert_sorted (s : string) (l : list string) : list string :=
  match l with
  | [] => [s]
  | t :: l' => if String.leb s t then s :: l else t :: insert_sorted s l'
  end.

Definition sort_strings (l : list string) : list string :=
  fold_right insert_sorted [] l.

(** The answer of the exchange to [/exchangeInfo]: a failure of [fetch] with
    its message, a response that is not ok with its status text, or the
    symbols. *)
Inductive exchange_info : Type :=
| InfoThrown (message : string)
| InfoNotOk (statusText : string)
| InfoOk (symbols : list symbol_info).

(** [getAllUSDTPairs]: the sorted names, or the message of the error it
    throws again after logging it. *)
Definition getAllUSDTPairs (answer : exchange_info) : string + list string :=
  match answer with
  | InfoThrown message => inl message
  | InfoNotOk statusText =>
      inl ("Failed to fetch exchange info: " ++ statusText)%string
  | InfoOk symbols =>
      let usdtPairs := map si_symbol (filter tradable_usdt symbols) in
      inr (sort_strings usdtPairs)
  end.

(** ** indicators.js over rounded arithmetic

    [calculateRSI], [calculateSMA] and [calculateBollingerBands] once more,
    over the operations they use on numbers.  The text of each function
    is the one of the source; only the arithmetic is a parameter. *)

Module Rounded.

(** The operations of the indicator functions on JavaScript numbers. *)
Record ops (T : Type) : Type := {
  (** an integer literal, or a count such as [period] *)
  op_lit : Z -> T;
  (** [arr[i]] outside the array, used as a number *)
  op_undefined : T;
  op_add : T -> T -> T;
  op_sub : T -> T -> T;
  op_mul : T -> T -> T;
  op_div : T -> T -> T;
  (** [Math.abs(x)], [Math.sqrt(x)], [Math.pow(x, 2)] *)
  op_abs : T -> T;
  op_sqrt : T -> T;
  op_pow2 : T -> T;
  (** [x < y], [x > y], [x === y] *)
  op_lt : T -> T -> bool;
  op_gt : T -> T -> bool;
  op_eq : T -> T -> bool
}.

Record bands (T : Type) : Type := {
  upper : list T;
  middle : list T;
  lower : list T
}.

Section Functions.

Variable T : Type.
Variable O : ops T.

Local Notation "a + b" := (op_add O a b).
Local Notation "a - b" := (op_sub O a b).
Local Notation "a * b" := (op_mul O a b).
Local Notation "a / b" := (op_div O a b).
Local Notation "# z" := (op_lit O z) (at level 5).

(** [period], a count, used as a number. *)
Definition count (n : nat) : T := # (Z.of_nat n).

(** [arr.reduce((a, b) => a + b, 0)]. *)
Definition reduce_sum (l : list T) : T := fold_left (op_add O) l (# 0).

(** The price changes [closes[i] - closes[i-1]] for [i = 1 .. length-1]. *)
Fixpoint changes_from (prev : T) (rest : list T) : list T :=
  match rest with
  | [] => []
  | c :: rest' => (c - prev) :: changes_from c rest'
  end.

Definition changes_of (closes : list T) : list T :=
  match closes with
  | [] => []
  | c0 :: rest => changes_from c0 rest
  end.

Definition gains_of (changes : list T) : list T :=
  map (fun c => if op_gt O c (# 0) then c else # 0) changes.

Definition losses_of (changes : list T) : list T :=
  map (fun c => if op_lt O c (# 0) then op_abs O c else # 0) changes.

(** The value pushed for one pair of averages. *)
Definition rsi_point (avgGain avgLoss : T) : T :=
  if op_eq O avgLoss (# 0) then # 100
  else
    let rs := avgGain / avgLoss in
    # 100 - (# 100 / (# 1 + rs)).

(** Wilder's smoothing: the loop [for (i = period; i < changes.length; i++)],
    run over the gains and losses from index [period] on. *)
Fixpoint rsi_smooth (period : nat) (avgGain avgLoss : T)
    (gains losses : list T) : list T :=
  match gains, losses with
  | g :: gains', l :: losses' =>
      let avgGain' := (avgGain * (count period - # 1) + g) / count period in
      let avgLoss' := (avgLoss * (count period - # 1) + l) / count period in
      rsi_point avgGain' avgLoss'
        :: rsi_smooth period avgGain' avgLoss' gains' losses'
  | _, _ => []
  end.

Definition calculateRSI (closes : list T) (period : nat) : result (list T) :=
  if (length closes <? period + 1)%nat then Throw (NotEnoughData RSI (period + 1))
  else
    let changes := changes_of closes in
    let gains := gains_of changes in
    let losses := losses_of changes in
    let avgGain := reduce_sum (firstn period gains) / count period in
    let avgLoss := reduce_sum (firstn period losses) / count period in
    Ok (rsi_point avgGain avgLoss
          :: rsi_smooth period avgGain avgLoss
               (skipn period gains) (skipn period losses)).

(** The window of iteration [i] is [prices.slice(i - period + 1, i + 1)],
    that is [slice k (k + period)] for [k = 0 .. length - period]. *)
Definition calculateSMA (prices : list T) (period : nat) : result (list T) :=
  if (length prices <? period)%nat then Throw (NotEnoughData SMA period)
  else
    Ok (map (fun k => reduce_sum (slice k (k + period) prices) / count period)
            (seq 0 (length prices - period + 1))).

(** The body of the loop of [calculateBollingerBands] at index [i]: the
    variance of the window and the pair (upper, lower) pushed. *)
Definition bb_variance (prices : list T) (period : nat) (mean : T) (i : nat) : T :=
  let slice_i := slice i (i + period) prices in
  let squaredDiffs := map (fun p => op_pow2 O (p - mean)) slice_i in
  reduce_sum squaredDiffs / count period.

Definition bb_band (prices : list T) (period : nat) (stdDev : T)
    (middle : list T) (i : nat) : T * T :=
  let mean := nth i middle (op_undefined O) in
  let variance := bb_variance prices period mean i in
  let stdDeviation := op_sqrt O variance in
  (mean + stdDev * stdDeviation, mean - stdDev * stdDeviation).

Definition calculateBollingerBands (prices : list T) (period : nat) (stdDev : T)
  : result (bands T) :=
  if (length prices <? period)%nat then Throw (NotEnoughData Bollinger period)
  else
    let* middle := calculateSMA prices period in
    let pairs := map (bb_band prices period stdDev middle) (seq 0 (length middle)) in
    Ok {| upper := map fst pairs; middle := middle; lower := map snd pairs |}.

End Functions.

(** *** The binary64 operations

    The operations of the kernel's primitive floats are the IEEE 754
    binary64 operations, rounded to nearest even, as those of a JavaScript
    engine.  An integer is built from its binary digits, which is exact up
    to 2^53.  [Math.pow(x, 2)] is taken as [x * x]. *)

Fixpoint float_of_positive (p : positive) : float :=
  match p with
  | xH => PrimFloat.one
  | xO p' => PrimFloat.mul PrimFloat.two (float_of_positive p')
  | xI p' => PrimFloat.add (PrimFloat.mul PrimFloat.two (float_of_positive p')) PrimFloat.one
  end.

Definition float_of_Z (z : Z) : float :=
  match z with
  | Z0 => PrimFloat.zero
  | Zpos p => float_of_positive p
  | Zneg p => PrimFloat.opp (float_of_positive p)
  end.

Definition binary64 : ops float := {|
  op_lit := float_of_Z;
  op_undefined := PrimFloat.nan;
  op_add := PrimFloat.add;
  op_sub := PrimFloat.sub;
  op_mul := PrimFloat.mul;
  op_div := PrimFloat.div;
  op_abs := PrimFloat.abs;
  op_sqrt := PrimFloat.sqrt;
  op_pow2 := fun x => PrimFloat.mul x x;
  op_lt := PrimFloat.ltb;
  op_gt := fun a b => PrimFloat.ltb b a;
  op_eq := PrimFloat.eqb
|}.

(** *** Correctly rounded operations on [num]

    [rnd q] is the number the exact result [q] of an operation is rounded
    to: a representable rational, or an infinity when [q] is out of range.
    [rnd_sqrt q] is [Math.sqrt] of the rational [q >= 0] and [rnd_pow2 q] is
    [Math.pow(q, 2)].  On the special values the operations are those of
    [JsNum].  A zero has no sign here: the sign of a zero shows only when a
    number other than 0 is divided by it, which the functions above never
    do (they divide by a count, by an average tested to differ from 0 and
    by [1 + rs]; when the count is 0 the dividend is 0 or NaN). *)

Record rounding : Type := {
  rnd : Q -> num;
  rnd_sqrt : Q -> num;
  rnd_pow2 : Q -> num
}.

Section OnNum.

Variable R : rounding.

Definition r_add (a b : num) : num :=
  match a, b with
  | Fin x, Fin y => rnd R (x + y)
  | _, _ => JsNum.add a b
  end.

Definition r_sub (a b : num) : num :=
  match a, b with
  | Fin x, Fin y => rnd R (x - y)
  | _, _ => JsNum.sub a b
  end.

Definition r_mul (a b : num) : num :=
  match a, b with
  | Fin x, Fin y => rnd R (x * y)
  | _, _ => JsNum.mul a b
  end.

Definition r_div (a b : num) : num :=
  match a, b with
  | Fin x, Fin y =>
      match y ?= 0 with
      | Eq => JsNum.div a b
      | _ => rnd R (x / y)
      end
  | _, _ => JsNum.div a b
  end.

Definition r_sqrt (a : num) : num :=
  match a with
  | Fin q => match q ?= 0 with Lt => NaN | _ => rnd_sqrt R q end
  | PInf => PInf
  | NInf | NaN => NaN
  end.

Definition r_pow2 (a : num) : num :=
  match a with
  | Fin q => rnd_pow2 R q
  | PInf | NInf => PInf
  | NaN => NaN
  end.

Definition on_num : ops num := {|
  op_lit := fun z => rnd R (inject_Z z);
  op_undefined := NaN;
  op_add := r_add;
  op_sub := r_sub;
  op_mul := r_mul;
  op_div := r_div;
  op_abs := JsNum.Math_abs;
  op_sqrt := r_sqrt;
  op_pow2 := r_pow2;
  op_lt := JsNum.lt;
  op_gt := JsNum.gt;
  op_eq := JsNum.eqb
|}.

End OnNum.

Unset Implicit Arguments.

(** The laws of rounding to nearest that the proofs use.  Binary64
    satisfies each of them: a rounded result is never NaN; rounding depends
    on the value only, is monotone and leaves a representable value as it
    is; the integers up to 2^53 are representable; the square root of a
    non-negative number is not negative, and zero for zero; a square is
    +Infinity or a non-negative number. *)
Record lawful (R : rounding) : Prop := {
  rnd_not_NaN : forall q, rnd R q <> NaN;
  rnd_proper : forall x y, x == y -> rnd R x = rnd R y;
  rnd_monotone : forall x y, x <= y -> le (rnd R x) (rnd R y) = true;
  rnd_representable : forall x y, rnd R x = Fin y -> rnd R y = Fin y;
  rnd_integer : forall z, (Z.abs z <= 2 ^ 53)%Z -> rnd R (inject_Z z) = Fin (inject_Z z);
  sqrt_nonneg : forall q, 0 <= q ->
    rnd_sqrt R q = PInf \/ exists s, rnd_sqrt R q = Fin s /\ 0 <= s;
  sqrt_zero : forall q, q == 0 -> exists s, rnd_sqrt R q = Fin s /\ s == 0;
  pow2_nonneg : forall q, rnd_pow2 R q = PInf \/ exists s, rnd_pow2 R q = Fin s /\ 0 <= s
}.

Set Implicit Arguments.

End Rounded.

(** ** Rounding to binary64

    The rounding of IEEE 754 binary64, to nearest with ties to even, as a
    function on the rationals: 53 significant bits, exponents from -1022 to
    1023, gradual underflow below 2^-1022 and overflow to an infinity from
    2^1024 - 2^970 on.  It instantiates the rounded operations, and on the
    inputs below it gives the numbers the primitive floats give. *)

Module Binary64.

Definition pow2 (e : Z) : Q := 2 ^ e.

(** [floor (log2 a)] for a rational [a > 0]. *)
Definition ilog2 (a : Q) : Z :=
  let e0 := (Z.log2 (Qnum a) - Z.log2 (Zpos (Qden a)))%Z in
  if Qle_bool (pow2 e0) a then e0 else (e0 - 1)%Z.

(** The exponent of the unit in the last place of [q]: the representable
    numbers around [q] are the multiples of [2 ^ ulp_exp q]. *)
Definition ulp_exp (q : Q) : Z :=
  let a := Qabs q in
  if Qle_bool a 0 then (-1074)%Z else (Z.max (ilog2 a) (-1022) - 52)%Z.

(** The integer nearest to [t]; a tie goes to the even one. *)
Definition round_half_even (t : Q) : Z :=
  let f := Qfloor t in
  match Qcompare (t - inject_Z f) (1 # 2) with
  | Lt => f
  | Gt => (f + 1)%Z
  | Eq => if Z.even f then f else (f + 1)%Z
  end.

(** Rounding with an unbounded exponent range. *)
Definition round_unbounded (q : Q) : Q :=
  inject_Z (round_half_even (q / pow2 (ulp_exp q))) * pow2 (ulp_exp q).

Definition rnd (q : Q) : num :=
  let v := round_unbounded (Qred q) in
  if Qle_bool (pow2 1024) v then PInf
  else if Qle_bool v (- pow2 1024) then NInf
  else Fin (Qred v).

(** [Math.sqrt], correctly rounded: the integer square root of the scaled
    argument, then the comparison with the midpoint. *)
Definition rnd_sqrt (q : Q) : num :=
  let q := Qred q in
  if Qle_bool q 0 then Fin 0
  else
    let u := (Z.max (ilog2 q / 2) (-1022) - 52)%Z in
    let s := q / pow2 (2 * u) in
    let n := Z.sqrt (Qfloor s) in
    let h := inject_Z n + (1 # 2) in
    let m := match Qcompare s (h * h) with
             | Lt => n
             | Gt => (n + 1)%Z
             | Eq => if Z.even n then n else (n + 1)%Z
             end in
    let v := inject_Z m * pow2 u in
    if Qle_bool (pow2 1024) v then PInf else Fin (Qred v).

(** [Math.pow(x, 2)], taken as the rounded product [x * x]. *)
Definition rnd_pow2 (q : Q) : num := rnd (q * q).

Definition rounding : Rounded.rounding :=
  {| Rounded.rnd := rnd; Rounded.rnd_sqrt := rnd_sqrt; Rounded.rnd_pow2 := rnd_pow2 |}.

(** The value of a primitive float. *)
Definition num_of_float (f : float) : num :=
  match FloatOps.Prim2SF f with
  | SpecFloat.S754_zero _ => Fin 0
  | SpecFloat.S754_infinity false => PInf
  | SpecFloat.S754_infinity true => NInf
  | SpecFloat.S754_nan => NaN
  | SpecFloat.S754_finite s m e =>
      Fin (Qred (inject_Z (if s then Zneg m else Zpos m) * pow2 e))
  end.

End Binary64.

(** ** Predicates of the statements *)

Unset Implicit Arguments.

Definition finite (a : num) : Prop := exists q, a = Fin q.
Definition finite_nonneg (a : num) : Prop := exists q, a = Fin q /\ 0 <= q.
Definition in_0_100 (a : num) : Prop := exists q, a = Fin q /\ 0 <= q <= 100.
(** [a === 0] and [a === 100]. *)
Definition is_zero (a : num) : Prop := eqb a (Fin 0) = true.
(** The score before clamping is +Infinity or a rational of at least 50. *)
Definition above_50 (s : num) : Prop := s = PInf \/ exists q, s = Fin q /\ 50 <= q.
(** The call threw. *)
Definition throws {A : Type} (r : result A) : Prop := exists e, r = Throw e.

(** The criteria [{ rsi: { below: v } }]. *)
Definition only_rsi_below (v : num) : filters :=
  {| f_rsi := Some {| rsi_below := Some v; rsi_above := None; rsi_between := None |};
     f_macd := None; f_ma := None; f_bollinger := None; f_price := None |}.

(** The criteria [{}]. *)
Definition no_filters : filters :=
  {| f_rsi := None; f_macd := None; f_ma := None; f_bollinger := None; f_price := None |}.

(** A snapshot with a given RSI. *)
Definition snapshot_with_rsi (r : num) : indicators :=
  {| rsi := r;
     macd := {| macd_value := Fin 0; macd_signal := Fin 0; macd_histogram := Fin 0 |};
     ma20 := Fin 100; ma50 := Fin 100;
     bollinger := {| bb_upper := Fin 110; bb_middle := Fin 100; bb_lower := Fin 90 |};
     price := Fin 100;
     crosses := {| goldenCross := false; deathCross := false;
                   macdBullish := false; macdBearish := false |} |}.

(** [a] is the rational [q], up to the representation of the fraction. *)
Definition num_is (a : num) (q : Q) : Prop := exists q', a = Fin q' /\ q' == q.

(** A square root on the rationals, for running the code: the integer square
    root of [q * 2^20], over [2^10]. *)
Definition qsqrt_floor (q : Q) : Q :=
  inject_Z (Z.sqrt (Qfloor (q * inject_Z (2 ^ 20)))) / inject_Z (2 ^ 10).

(** [ceil(n / b)], as an integer. *)
Definition ceil_div (n b : nat) : Z := ((Z.of_nat n + Z.of_nat b - 1) / Z.of_nat b)%Z.

(** An exchange that answers one candle for every symbol but ["B"]. *)
Definition one_candle : kline :=
  {| k_open := Fin 1; k_high := Fin 1; k_low := Fin 1; k_close := Fin 1; k_volume := Fin 1 |}.

Definition net_without_B : exchange :=
  fun _ symbol => if String.eqb symbol "B" then None else Some [one_candle].

(** The series of a fetched map that reach the indicator computation. *)
Definition reaches_analysis (entry : string * list kline) : bool :=
  negb (length (snd entry) <? 100)%nat.

(** The result one fetched series gives, if any: the series is long enough,
    its snapshot is computed and the snapshot satisfies the criteria. *)
Definition result_of (qsqrt : Q -> Q) (f : filters) (entry : string * list kline)
  : option scan_result :=
  if reaches_analysis entry then
    match getLatestIndicators qsqrt (map k_close (snd entry))
            (map k_high (snd entry)) (map k_low (snd entry)) with
    | Ok ind =>
        if matchesFilters ind (Some f) then
          Some {| sr_symbol := fst entry;
                  sr_price := ind.(price);
                  sr_indicators :=
                    {| ri_rsi := ind.(rsi); ri_macd := ind.(macd);
                       ri_ma20 := ind.(ma20); ri_ma50 := ind.(ma50);
                       ri_bollinger := ind.(bollinger) |};
                  sr_crosses := ind.(crosses);
                  sr_score := calculateScore ind |}
        else None
    | Throw _ => None
    end
  else None.

(** The matching results of a fetched map, in the order of the map. *)
Definition matching (qsqrt : Q -> Q) (f : filters)
    (klinesMap : symbol_map (list kline)) : list scan_result :=
  flat_map (fun entry => match result_of qsqrt f entry with
                         | Some r => [r]
                         | None => []
                         end) klinesMap.

(** A snapshot whose bonuses stack to 120 before clamping. *)
Definition stacked_snapshot : indicators :=
  {| rsi := Fin 0;
     macd := {| macd_value := Fin 0; macd_signal := Fin 0; macd_histogram := Fin 0 |};
     ma20 := Fin 1; ma50 := Fin 1;
     bollinger := {| bb_upper := Fin 20; bb_middle := Fin 15; bb_lower := Fin 10 |};
     price := Fin 10;
     crosses := {| goldenCross := true; deathCross := false;
                   macdBullish := true; macdBearish := false |} |}.


(** [a] is a rational between [lo] and [hi]. *)
Definition within (lo hi : Q) (a : num) : Prop := exists q, a = Fin q /\ lo <= q <= hi.

(** The criteria restricted to one category. *)
Definition keep_rsi (f : filters) : filters :=
  {| f_rsi := f.(f_rsi); f_macd := None; f_ma := None; f_bollinger := None;
     f_price := None |}.
Definition keep_macd (f : filters) : filters :=
  {| f_rsi := None; f_macd := f.(f_macd); f_ma := None; f_bollinger := None;
     f_price := None |}.
Definition keep_ma (f : filters) : filters :=
  {| f_rsi := None; f_macd := None; f_ma := f.(f_ma); f_bollinger := None;
     f_price := None |}.
Definition keep_bollinger (f : filters) : filters :=
  {| f_rsi := None; f_macd := None; f_ma := None; f_bollinger := f.(f_bollinger);
     f_price := None |}.
Definition keep_price (f : filters) : filters :=
  {| f_rsi := None; f_macd := None; f_ma := None; f_bollinger := None;
     f_price := f.(f_price) |}.

(** The criteria [{ rsi: { between: [min, max] } }]. *)
Definition only_rsi_between (min max : num) : filters :=
  {| f_rsi := Some {| rsi_below := None; rsi_above := None;
                      rsi_between := Some (min, max) |};
     f_macd := None; f_ma := None; f_bollinger := None; f_price := None |}.

(** The criteria [{ ma: { above: p, below: p' } }]. *)
Definition only_ma_periods (above below : option num) : filters :=
  {| f_rsi := None; f_macd := None;
     f_ma := Some {| ma_goldenCross := None; ma_deathCross := None;
                     ma_above := above; ma_below := below |};
     f_bollinger := None; f_price := None |}.

(** A run without batching: one [fetch_one] per symbol, nothing else. *)
Definition sequential_run (net : exchange) (observer : bool) (symbols : list string)
  : fetch_state :=
  fold_left (fetch_one net observer (length symbols)) symbols fetch_start.

Definition is_batch_delay (e : event) : bool :=
  match e with EvDelay ms => (ms =? BATCH_DELAY)%nat | _ => false end.

(** A trace without its inter-batch delays. *)
Definition without_batch_delays (t : list event) : list event :=
  filter (fun e => negb (is_batch_delay e)) t.

(** The calls of the progress observer recorded in a trace. *)
Definition progress_events (t : list event) : list (nat * nat * string) :=
  flat_map (fun e => match e with
                     | EvProgress p n s => [(p, n, s)]
                     | _ => []
                     end) t.

(** The calls expected for the symbols [l], after [k] symbols. *)
Fixpoint progress_from (k total : nat) (l : list string) : list (nat * nat * string) :=
  match l with
  | [] => []
  | s :: l' => (S k, total, s) :: progress_from (S k) total l'
  end.

(** The time spent in [delay], in milliseconds. *)
Definition total_delay (t : list event) : nat :=
  fold_right (fun e acc => match e with EvDelay ms => (ms + acc)%nat | _ => acc end) 0%nat t.

(** Two states that differ by inter-batch delays only. *)
Definition same_but_batch_delays (st1 st2 : fetch_state) : Prop :=
  st1.(requests) = st2.(requests)
  /\ st1.(processed) = st2.(processed)
  /\ st1.(results) = st2.(results)
  /\ without_batch_delays st1.(trace) = without_batch_delays st2.(trace).

(** The score of [a] is at least the score of [b]. *)
Definition score_ge (a b : scan_result) : Prop := le b.(sr_score) a.(sr_score) = true.

Definition score_in_range (r : scan_result) : Prop := in_0_100 r.(sr_score).

(** At least one filter option was given on the command line. *)
Definition filter_option_given (a : cli_args) : bool :=
  is_defined a.(rsiBelow) || is_defined a.(rsiAbove) || is_defined a.(rsiBetween)
  || a.(macdBullish_flag) || a.(macdBearish_flag) || is_defined a.(macdHistogramPositive)
  || a.(maGoldenCross) || a.(maDeathCross) || is_defined a.(maAbove)
  || is_defined a.(maBelow)
  || a.(bbLower) || a.(bbUpper) || a.(bdBelowLower) || a.(bbAboveUpper)
  || a.(bbNarrow) || a.(bbWide)
  || is_defined a.(priceMin) || is_defined a.(priceMax).

(** The candle counts that pass the check of [main]. *)
Definition limit_accepted (l : num) : Prop :=
  match l with
  | Fin q => 50 <= q <= 1000
  | NaN => True
  | PInf | NInf => False
  end.

(** The command line with its defaults and no option. *)
Definition default_args : cli_args :=
  {| arg_interval := Some "4h"%string; arg_limit := Fin 100;
     arg_maxResults := Fin 0; arg_topVolume := Fin 0;
     rsiBelow := None; rsiAbove := None; rsiBetween := None;
     macdBullish_flag := false; macdBearish_flag := false;
     macdHistogramPositive := None;
     maGoldenCross := false; maDeathCross := false; maAbove := None; maBelow := None;
     bbLower := false; bbUpper := false; bdBelowLower := false; bbAboveUpper := false;
     bbNarrow := false; bbWide := false;
     priceMin := None; priceMax := None |}.

(** The defaults with [--macd-histogram-positive s]. *)
Definition args_histogram (s : string) : cli_args :=
  {| arg_interval := Some "4h"%string; arg_limit := Fin 100;
     arg_maxResults := Fin 0; arg_topVolume := Fin 0;
     rsiBelow := None; rsiAbove := None; rsiBetween := None;
     macdBullish_flag := false; macdBearish_flag := false;
     macdHistogramPositive := Some s;
     maGoldenCross := false; maDeathCross := false; maAbove := None; maBelow := None;
     bbLower := false; bbUpper := false; bdBelowLower := false; bbAboveUpper := false;
     bbNarrow := false; bbWide := false;
     priceMin := None; priceMax := None |}.

(** The defaults with [--rsi-below v] and a given candle count. *)
Definition args_rsi_below (v limit : num) : cli_args :=
  {| arg_interval := Some "4h"%string; arg_limit := limit;
     arg_maxResults := Fin 0; arg_topVolume := Fin 0;
     rsiBelow := Some v; rsiAbove := None; rsiBetween := None;
     macdBullish_flag := false; macdBearish_flag := false;
     macdHistogramPositive := None;
     maGoldenCross := false; maDeathCross := false; maAbove := None; maBelow := None;
     bbLower := false; bbUpper := false; bdBelowLower := false; bbAboveUpper := false;
     bbNarrow := false; bbWide := false;
     priceMin := None; priceMax := None |}.

(** A snapshot with a given MACD histogram. *)
Definition snapshot_with_histogram (h : num) : indicators :=
  {| rsi := Fin 50;
     macd := {| macd_value := Fin 0; macd_signal := Fin 0; macd_histogram := h |};
     ma20 := Fin 100; ma50 := Fin 100;
     bollinger := {| bb_upper := Fin 110; bb_middle := Fin 100; bb_lower := Fin 90 |};
     price := Fin 100;
     crosses := {| goldenCross := false; deathCross := false;
                   macdBullish := false; macdBearish := false |} |}.

(** [s] holds [w] somewhere. *)
Definition contains (s w : string) : Prop := exists a b, s = (a ++ w ++ b)%string.

(** ** Predicates of the statements on rounded arithmetic *)

(** +Infinity, or a rational that is not negative. *)
Definition nonneg_or_PInf (a : num) : Prop := a = PInf \/ finite_nonneg a.




(** The multiples [0, G, 2 G, .., n G] are representable: rounding leaves
    them as they are.  In binary64 this holds of a power of two [G = 2^e]
    when [n <= 2^53] and [n G < 2^1024]. *)
Definition multiples_representable (R : Rounded.rounding) (G : Q) (n : nat) : Prop :=
  forall k, (k <= n)%nat ->
    num_is (Rounded.rnd R (inject_Z (Z.of_nat k) * G)) (inject_Z (Z.of_nat k) * G).

(** Exact arithmetic is one rounding: every rational is representable.
    The square root is the one used to run the code. *)
Definition exact : Rounded.rounding :=
  {| Rounded.rnd := fun q => Fin (Qred q);
     Rounded.rnd_sqrt := fun q => Fin (qsqrt_floor q);
     Rounded.rnd_pow2 := fun q => Fin (Qred (q * q)) |}.


(** The binary64 number [0.1], and twenty closes of it. *)
Definition tenth : float := PrimFloat.div (Rounded.float_of_Z 1) (Rounded.float_of_Z 10).

Definition flat_tenth : list float := repeat tenth 20.

(** The number a primitive float stands for is the number [a]. *)
Definition same_value (f : float) (a : num) : bool :=
  match Binary64.num_of_float f, a with
  | Fin x, Fin y => Qeq_bool x y
  | PInf, PInf | NInf, NInf | NaN, NaN => true
  | _, _ => false
  end.

(** An operation of the primitive floats and an operation on [num] give the
    same number on the operands [a] and [b]. *)
Definition operations_agree (fop : float -> float -> float) (nop : num -> num -> num)
    (a b : float) : bool :=
  same_value (fop a b) (nop (Binary64.num_of_float a) (Binary64.num_of_float b)).

Definition all_pairs {A : Type} (l : list A) : list (A * A) :=
  flat_map (fun a => map (fun b => (a, b)) l) l.

(** Two runs of an indicator function, one on primitive floats and one on
    [num], give the same numbers. *)
Definition runs_agree (r : result (list float)) (r' : result (list num)) : bool :=
  match r, r' with
  | Ok l, Ok l' =>
      (length l =? length l')%nat
      && forallb (fun p => same_value (fst p) (snd p)) (combine l l')
  | Throw _, Throw _ => true
  | _, _ => false
  end.

(** The bands of two runs of [calculateBollingerBands] are the same numbers. *)
Definition bands_agree (r : result (Rounded.bands float)) (r' : result (Rounded.bands num))
  : bool :=
  match r, r' with
  | Ok b, Ok b' =>
      runs_agree (Ok (Rounded.upper b)) (Ok (Rounded.upper b'))
      && runs_agree (Ok (Rounded.middle b)) (Ok (Rounded.middle b'))
      && runs_agree (Ok (Rounded.lower b)) (Ok (Rounded.lower b'))
  | Throw _, Throw _ => true
  | _, _ => false
  end.

#[local] Set Warnings "-inexact-float".

(** Operands for comparing the rounded operations with the primitive
    floats. *)
Definition sample_floats : list float :=
  [0; 0.1; 0.3; 1; 3; 42150.37; 0x1p-60; 9007199254740993; 1e308; 3e-308;
   5e-324; -2.5; infinity; neg_infinity; nan]%float.

(** Twenty-two closes of a market, with cents. *)
Definition sample_closes : list float :=
  [42150.37; 42210.5; 42185.12; 42302.9; 42288.01; 42110.75; 42095.3; 42240.66;
   42391.18; 42377.42; 42405.09; 42290.8; 42180.25; 42266.47; 42349.93; 42420.1;
   42398.64; 42512.36; 42480.02; 42350.71; 42299.99; 42301.15]%float.

(** * Properties *)

(** ** Finite values *)

#[local] Arguments Qred : simpl never.

Lemma eqb_Fin (x y : Q) : eqb (Fin x) (Fin y) = true <-> x == y.
Proof.
  unfold eqb; simpl. rewrite Qeq_alt.
  destruct (x ?= y); split; intros H; congruence.
Qed.

Lemma lt_Fin (x y : Q) : lt (Fin x) (Fin y) = true <-> x < y.
Proof.
  unfold lt; simpl. rewrite Qlt_alt.
  destruct (x ?= y); split; intros H; congruence.
Qed.

Lemma gt_Fin (x y : Q) : gt (Fin x) (Fin y) = true <-> y < x.
Proof.
  unfold gt; simpl. rewrite (Qgt_alt x y).
  destruct (x ?= y); split; intros H; congruence.
Qed.

Lemma le_Fin (x y : Q) : le (Fin x) (Fin y) = true <-> x <= y.
Proof.
  unfold le; simpl. rewrite Qle_alt.
  destruct (x ?= y); split; intros H; congruence.
Qed.

Lemma ge_Fin (x y : Q) : ge (Fin x) (Fin y) = true <-> y <= x.
Proof.
  unfold ge; simpl. rewrite (Qge_alt x y).
  destruct (x ?= y); split; intros H; congruence.
Qed.

Lemma is_zero_Fin (q : Q) : is_zero (Fin q) <-> q == 0.
Proof. apply eqb_Fin. Qed.

Lemma of_nat_pos (n : nat) : (1 <= n)%nat -> 0 < inject_Z (Z.of_nat n).
Proof.
  intros H. change 0 with (inject_Z 0). rewrite <- Zlt_Qlt. lia.
Qed.

(** Division by a positive count stays finite. *)
Lemma div_of_nat (x : Q) (n : nat) :
  (1 <= n)%nat ->
  (Fin x / of_nat n)%num = Fin (Qred (x / inject_Z (Z.of_nat n))).
Proof.
  intros H. unfold div, of_nat, of_Z.
  pose proof (of_nat_pos n H) as Hp.
  apply Qgt_alt in Hp. rewrite Hp. reflexivity.
Qed.

Lemma Qdiv_nonneg (x y : Q) : 0 <= x -> 0 < y -> 0 <= x / y.
Proof.
  intros Hx Hy. apply Qle_shift_div_l; [exact Hy | lra].
Qed.

Lemma Qdiv_zero_iff (x y : Q) : 0 < y -> (x / y == 0 <-> x == 0).
Proof.
  intros Hy. split; intros H.
  - assert (E : x == (x / y) * y) by (field; lra).
    rewrite E, H. ring.
  - rewrite H. field. lra.
Qed.

Lemma finite_nonneg_add (a b : num) :
  finite_nonneg a -> finite_nonneg b -> finite_nonneg (a + b)%num.
Proof.
  intros (x & -> & Hx) (y & -> & Hy). exists (Qred (x + y)). split; [reflexivity|].
  rewrite Qred_correct. lra.
Qed.

Lemma is_zero_add (a b : num) :
  finite_nonneg a -> finite_nonneg b ->
  (is_zero (a + b)%num <-> is_zero a /\ is_zero b).
Proof.
  intros (x & -> & Hx) (y & -> & Hy). simpl.
  rewrite !is_zero_Fin, Qred_correct. split; [intros H; split | intros [H1 H2]]; lra.
Qed.

Lemma reduce_from_nonneg (l : list num) (acc : num) :
  finite_nonneg acc -> Forall finite_nonneg l ->
  finite_nonneg (fold_left add l acc)
  /\ (is_zero (fold_left add l acc) <-> is_zero acc /\ Forall is_zero l).
Proof.
  intros Ha Hl. revert acc Ha. induction Hl as [| x l Hx Hl IH]; intros acc Ha; simpl.
  - split; [exact Ha|]. split; [intros H; split; [exact H | constructor] | tauto].
  - destruct (IH (acc + x)%num (finite_nonneg_add _ _ Ha Hx)) as [IH1 IH2].
    split; [exact IH1|]. rewrite IH2, (is_zero_add _ _ Ha Hx). split.
    + intros [[H1 H2] H3]. split; [exact H1 | constructor; assumption].
    + intros [H1 H2]. inversion H2; subst. tauto.
Qed.

Lemma reduce_sum_nonneg (l : list num) :
  Forall finite_nonneg l ->
  finite_nonneg (reduce_sum l) /\ (is_zero (reduce_sum l) <-> Forall is_zero l).
Proof.
  intros Hl.
  assert (H0 : finite_nonneg (Fin 0)) by (exists 0; split; [reflexivity | lra]).
  destruct (reduce_from_nonneg _ _ H0 Hl) as [H1 H2]. split; [exact H1|].
  rewrite H2. split; [tauto | intros H; split; [|exact H]].
  apply is_zero_Fin. reflexivity.
Qed.

(** The mean over [n >= 1] values. *)
Lemma mean_nonneg (a : num) (n : nat) :
  (1 <= n)%nat -> finite_nonneg a ->
  finite_nonneg (a / of_nat n)%num /\ (is_zero (a / of_nat n)%num <-> is_zero a).
Proof.
  intros Hn (x & -> & Hx). rewrite (div_of_nat _ _ Hn).
  pose proof (of_nat_pos _ Hn) as Hp. split.
  - eexists; split; [reflexivity|]. rewrite Qred_correct. apply Qdiv_nonneg; assumption.
  - rewrite !is_zero_Fin, Qred_correct. apply Qdiv_zero_iff; assumption.
Qed.

(** ** RSI *)

(** One step of Wilder's smoothing. *)
Lemma smooth_step_nonneg (avg x : num) (period : nat) :
  (1 <= period)%nat -> finite_nonneg avg -> finite_nonneg x ->
  let avg' := ((avg * of_Z (Z.of_nat period - 1) + x) / of_nat period)%num in
  finite_nonneg avg'
  /\ (is_zero avg' <-> (period = 1%nat \/ is_zero avg) /\ is_zero x).
Proof.
  intros Hp (a & -> & Ha) (b & -> & Hb). cbn zeta. unfold of_Z. cbn [mul add].
  rewrite !(div_of_nat _ _ Hp).
  set (k := inject_Z (Z.of_nat period - 1)).
  assert (Hk : 0 <= k).
  { unfold k. change 0 with (inject_Z 0). rewrite <- Zle_Qle. lia. }
  assert (Hk1 : k == 0 <-> period = 1%nat).
  { unfold k. change 0 with (inject_Z 0). rewrite inject_Z_injective. lia. }
  pose proof (of_nat_pos _ Hp) as Hn.
  assert (Hak : 0 <= a * k) by (apply Qmult_le_0_compat; assumption).
  split.
  - eexists; split; [reflexivity|]. rewrite !Qred_correct.
    apply Qdiv_nonneg; [|exact Hn]. rewrite ?Qred_correct. lra.
  - rewrite !is_zero_Fin, Qred_correct, (Qdiv_zero_iff _ _ Hn), !Qred_correct.
    split.
    + intros H. assert (Hz : a * k == 0) by lra. split; [|lra].
      apply Qmult_integral in Hz. destruct Hz as [Hz | Hz]; [right; exact Hz|].
      left. apply Hk1, Hz.
    + intros [[H | H] H']; [apply Hk1 in H|]; rewrite H, H'; ring.
Qed.

Lemma changes_from_finite (prev : Q) (rest : list Q) :
  Forall finite (changes_from (Fin prev) (map Fin rest)).
Proof.
  revert prev. induction rest as [| c rest IH]; intros prev; simpl; constructor.
  - eexists; reflexivity.
  - apply IH.
Qed.

Lemma changes_from_length (prev : num) (rest : list num) :
  length (changes_from prev rest) = length rest.
Proof.
  revert prev. induction rest as [| c rest IH]; intros prev; simpl; [reflexivity|].
  now rewrite IH.
Qed.

Lemma changes_of_length (closes : list num) :
  length (changes_of closes) = (length closes - 1)%nat.
Proof.
  destruct closes as [| c rest]; simpl; [reflexivity|].
  rewrite changes_from_length. lia.
Qed.

Lemma changes_of_finite (closes : list Q) :
  Forall finite (changes_of (map Fin closes)).
Proof.
  destruct closes as [| c rest]; simpl; [constructor | apply changes_from_finite].
Qed.

Lemma gains_of_nonneg (changes : list num) :
  Forall finite changes -> Forall finite_nonneg (gains_of changes).
Proof.
  intros H. unfold gains_of. induction H as [| c l [q ->] H IH]; simpl; constructor.
  - destruct (gt (Fin q) (Fin 0)) eqn:E.
    + apply gt_Fin in E. exists q. split; [reflexivity | lra].
    + exists 0. split; [reflexivity | lra].
  - exact IH.
Qed.

Lemma losses_of_nonneg (changes : list num) :
  Forall finite changes -> Forall finite_nonneg (losses_of changes).
Proof.
  intros H. unfold losses_of. induction H as [| c l [q ->] H IH]; simpl; constructor.
  - destruct (lt (Fin q) (Fin 0)) eqn:E.
    + eexists. split; [reflexivity|]. rewrite Qred_correct. apply Qabs_nonneg.
    + exists 0. split; [reflexivity | lra].
  - exact IH.
Qed.

Lemma Forall_firstn {A : Type} (P : A -> Prop) (n : nat) (l : list A) :
  Forall P l -> Forall P (firstn n l).
Proof.
  intros H. revert n. induction H; intros [| n]; simpl; constructor; auto.
Qed.

Lemma Forall_skipn {A : Type} (P : A -> Prop) (n : nat) (l : list A) :
  Forall P l -> Forall P (skipn n l).
Proof.
  intros H. revert n. induction H; intros [| n]; simpl; auto.
Qed.

(** With period 1 the smoothing forgets the past: a later value can be 100
    although the initial window has a loss. *)
Example calculateRSI_period_1 :
  calculateRSI (map of_Z [2; 1; 2]%Z) 1 = Ok [Fin 0; Fin 100].
Proof. vm_compute. reflexivity. Qed.


(** ** Scorer *)

Lemma above_50_bonus (b : bool) (s : num) (d : Q) :
  above_50 s -> 0 <= d -> above_50 (if b then (s + Fin d)%num else s).
Proof.
  intros Hs Hd. destruct b; [|exact Hs].
  destruct Hs as [-> | (q & -> & Hq)].
  - left. reflexivity.
  - right. eexists. split; [reflexivity|]. rewrite Qred_correct. lra.
Qed.

Lemma above_50_rsi_bonus (r : num) :
  above_50 (if lt r (Fin 30) then (Fin 50 + (Fin 30 - r))%num
            else if gt r (Fin 70) then (Fin 50 + (r - Fin 70))%num
            else Fin 50).
Proof.
  destruct r as [q | | |].
  - destruct (lt (Fin q) (Fin 30)) eqn:E1; [|destruct (gt (Fin q) (Fin 70)) eqn:E2].
    + apply lt_Fin in E1. right. eexists. split; [reflexivity|].
      rewrite !Qred_correct. lra.
    + apply gt_Fin in E2. right. eexists. split; [reflexivity|].
      rewrite !Qred_correct. lra.
    + right. exists 50. split; [reflexivity | lra].
  - left. reflexivity.
  - left. reflexivity.
  - right. exists 50. split; [reflexivity | lra].
Qed.

Lemma raw_score_above_50 (ind : indicators) : above_50 (raw_score ind).
Proof.
  unfold raw_score. cbv zeta.
  repeat (apply above_50_bonus; [|lra]).
  apply above_50_rsi_bonus.
Qed.

Lemma clamp_above_50 (s : num) :
  above_50 s -> in_0_100 (Math_min (Fin 100) (Math_max (Fin 0) s)).
Proof.
  intros [-> | (q & -> & Hq)].
  - exists 100. split; [reflexivity | lra].
  - assert (H0 : (0 ?= q) = Lt) by (apply (proj1 (Qlt_alt 0 q)); lra).
    unfold Math_max. cbn [compare]. rewrite H0.
    unfold Math_min. cbn [compare].
    destruct (100 ?= q) eqn:E.
    + exists 100. split; [reflexivity | lra].
    + exists 100. split; [reflexivity | lra].
    + apply Qgt_alt in E. exists q. split; [reflexivity | lra].
Qed.

(** C2: for every snapshot, whatever its numbers (the special values
    included) and flags, [calculateScore] returns a rational in [0,100]. *)
Theorem calculateScore_in_0_100 (ind : indicators) : in_0_100 (calculateScore ind).
Proof.
  unfold calculateScore. apply clamp_above_50, raw_score_above_50.
Qed.

Example stacked_score_clamped :
  raw_score stacked_snapshot = Fin 120 /\ calculateScore stacked_snapshot = Fin 100.
Proof. split; vm_compute; reflexivity. Qed.

(** Equal bands: the position is 1/0 = +Infinity and earns the upper bonus. *)
Example flat_band_score :
  calculateScore
    {| rsi := Fin 50;
       macd := {| macd_value := Fin 0; macd_signal := Fin 0; macd_histogram := Fin 0 |};
       ma20 := Fin 1; ma50 := Fin 1;
       bollinger := {| bb_upper := Fin 10; bb_middle := Fin 10; bb_lower := Fin 10 |};
       price := Fin 11;
       crosses := {| goldenCross := false; deathCross := false;
                     macdBullish := false; macdBearish := false |} |} = Fin 60.
Proof. vm_compute. reflexivity. Qed.

(** ** Moving averages *)

Lemma calculateSMA_ok (prices : list num) (period : nat) :
  (period <= length prices)%nat ->
  calculateSMA prices period =
  Ok (map (fun k => (reduce_sum (slice k (k + period) prices) / of_nat period)%num)
          (seq 0 (length prices - period + 1))).
Proof.
  intros H. unfold calculateSMA.
  destruct (Nat.ltb_spec (length prices) period); [lia | reflexivity].
Qed.

Lemma calculateEMA_ok (prices : list num) (period : nat) :
  (period <= length prices)%nat ->
  calculateEMA prices period =
  Ok ((reduce_sum (slice 0 period prices) / of_nat period)%num
        :: ema_loop (Fin 2 / (of_nat period + Fin 1))%num
             (reduce_sum (slice 0 period prices) / of_nat period)%num
             (skipn period prices)).
Proof.
  intros H. unfold calculateEMA.
  destruct (Nat.ltb_spec (length prices) period); [lia | reflexivity].
Qed.

Lemma calculateSMA_throws (prices : list num) (period : nat) :
  (length prices < period)%nat ->
  calculateSMA prices period = Throw (NotEnoughData SMA period).
Proof.
  intros H. unfold calculateSMA.
  destruct (Nat.ltb_spec (length prices) period); [reflexivity | lia].
Qed.

Lemma calculateEMA_throws (prices : list num) (period : nat) :
  (length prices < period)%nat ->
  calculateEMA prices period = Throw (NotEnoughData EMA period).
Proof.
  intros H. unfold calculateEMA.
  destruct (Nat.ltb_spec (length prices) period); [reflexivity | lia].
Qed.

Lemma ema_loop_length (multiplier prev : num) (rest : list num) :
  length (ema_loop multiplier prev rest) = length rest.
Proof.
  revert prev. induction rest as [| p rest IH]; intros prev; simpl; [reflexivity|].
  now rewrite IH.
Qed.

Lemma calculateEMA_length (prices : list num) (period : nat) (e : list num) :
  calculateEMA prices period = Ok e ->
  length e = (length prices - period + 1)%nat /\ (period <= length prices)%nat.
Proof.
  unfold calculateEMA.
  destruct (Nat.ltb_spec (length prices) period) as [H | H]; [discriminate|].
  intros [= <-]. cbn [length]. rewrite ema_loop_length, length_skipn. lia.
Qed.

(** C5: when [values] has at least [period] elements, [calculateEMA] and
    [calculateSMA] both return, and their first elements are the same number:
    the sum of the first [period] values divided by [period]. *)
Theorem calculateEMA_first_is_SMA_first (values : list num) (period : nat) :
  (period <= length values)%nat ->
  exists ema sma,
    calculateEMA values period = Ok ema
    /\ calculateSMA values period = Ok sma
    /\ nth_error ema 0 = nth_error sma 0
    /\ nth_error ema 0
       = Some (reduce_sum (firstn period values) / of_nat period)%num.
Proof.
  intros H. do 2 eexists.
  split; [apply calculateEMA_ok, H|].
  split; [apply calculateSMA_ok, H|].
  rewrite Nat.add_1_r. cbn [seq map nth_error].
  unfold slice. cbn [skipn Nat.add]. rewrite Nat.sub_0_r. split; reflexivity.
Qed.

Lemma calculateEMA_first_is_SMA_first_witness :
  exists ema sma,
    calculateEMA (map of_Z [3; 5; 10; 4]%Z) 3 = Ok ema
    /\ calculateSMA (map of_Z [3; 5; 10; 4]%Z) 3 = Ok sma
    /\ nth_error ema 0 = nth_error sma 0
    /\ nth_error ema 0 = Some (Fin 6).
Proof.
  destruct (calculateEMA_first_is_SMA_first (map of_Z [3; 5; 10; 4]%Z) 3)
    as (ema & sma & H1 & H2 & H3 & H4); [simpl; lia|].
  exists ema, sma. split; [exact H1|]. split; [exact H2|]. split; [exact H3|].
  rewrite H4. vm_compute. reflexivity.
Defined.

Example calculateEMA_example :
  calculateEMA (map of_Z [3; 5; 10; 4]%Z) 3 = Ok [Fin 6; Fin 5]
  /\ calculateSMA (map of_Z [3; 5; 10; 4]%Z) 3 = Ok [Fin 6; Fin (19 # 3)].
Proof. split; vm_compute; reflexivity. Qed.

(** ** MACD *)

Lemma throws_Ok {A : Type} (a : A) : ~ throws (Ok a).
Proof. intros [e H]. discriminate. Qed.

Lemma throws_Throw {A : Type} (e : error) : throws (@Throw A e).
Proof. exists e. reflexivity. Qed.

Lemma is_ok_throws {A : Type} (r : result A) : is_ok r = false <-> throws r.
Proof.
  destruct r; simpl; split; intros H; try discriminate.
  - destruct (throws_Ok _ H).
  - apply throws_Throw.
  - reflexivity.
Qed.

(** What [calculateMACD] does, by the length of its input. *)
Lemma calculateMACD_cases (closes : list num) (fast slow signal : nat) :
  ((length closes < slow + signal)%nat
   /\ calculateMACD closes fast slow signal = Throw (NotEnoughData MACD (slow + signal)))
  \/ ((slow + signal <= length closes)%nat /\ (length closes < fast)%nat
      /\ calculateMACD closes fast slow signal = Throw (NotEnoughData EMA fast))
  \/ ((slow + signal <= length closes)%nat /\ (fast <= length closes)%nat
      /\ exists m, calculateMACD closes fast slow signal = Ok m
                   /\ length m.(macdLine) = (length closes - slow + 1)%nat
                   /\ length m.(signalLine) = (length closes - slow + 1 - signal + 1)%nat
                   /\ length m.(histogram) = length m.(signalLine)).
Proof.
  unfold calculateMACD.
  destruct (Nat.ltb_spec (length closes) (slow + signal)) as [H | H]; [left; auto|].
  right.
  destruct (Nat.lt_ge_cases (length closes) fast) as [Hf | Hf].
  - left. rewrite (calculateEMA_throws _ _ Hf). auto.
  - right. split; [exact H|]. split; [exact Hf|].
    rewrite (calculateEMA_ok closes fast Hf). cbn [bind].
    assert (Hs : (slow <= length closes)%nat) by lia.
    rewrite (calculateEMA_ok closes slow Hs). cbn [bind].
    match goal with
    | |- context [calculateEMA ?m signal] =>
        assert (Hm : length m = (length closes - slow + 1)%nat)
    end.
    { rewrite length_map, length_seq. cbn [length].
      rewrite ema_loop_length, length_skipn. lia. }
    match goal with
    | |- context [calculateEMA ?m signal] =>
        assert (Hsig : (signal <= length m)%nat) by lia;
        rewrite (calculateEMA_ok m signal Hsig); set (macd_line := m) in *
    end.
    cbn [bind]. eexists. split; [reflexivity|]. cbn [macdLine signalLine histogram].
    split; [exact Hm|]. split.
    + cbn [length]. rewrite ema_loop_length, length_skipn. lia.
    + rewrite length_map, length_seq. reflexivity.
Qed.

(** C4 (as the code has it): [calculateMACD] throws exactly when the input is
    shorter than [slow + signal] or shorter than [fast]; with the default
    periods 12, 26 and 9 it throws exactly when the input has fewer than 35
    elements, so 35 closes succeed and 34 fail. *)
Theorem calculateMACD_throws_iff (closes : list num) (fast slow signal : nat) :
  (throws (calculateMACD closes fast slow signal)
   <-> (length closes < slow + signal)%nat \/ (length closes < fast)%nat)
  /\ (throws (calculateMACD closes 12 26 9) <-> (length closes < 35)%nat).
Proof.
  split.
  - destruct (calculateMACD_cases closes fast slow signal)
      as [[H ->] | [(H1 & H2 & ->) | (H1 & H2 & m & -> & _)]].
    + split; [auto | intros _; apply throws_Throw].
    + split; [auto | intros _; apply throws_Throw].
    + split; [intros H; destruct (throws_Ok _ H) | lia].
  - destruct (calculateMACD_cases closes 12 26 9)
      as [[H ->] | [(H1 & H2 & ->) | (H1 & H2 & m & -> & _)]].
    + split; [intros _; simpl in H; lia | intros _; apply throws_Throw].
    + simpl in H1. lia.
    + split; [intros H; destruct (throws_Ok _ H) | simpl in H1; lia].
Qed.

(** C4 as stated fails when the fast period exceeds the length: 35 closes are
    enough for [slow + signal = 35], and the fast EMA of period 40 throws. *)
Lemma calculateMACD_throws_on_long_fast :
  calculateMACD (repeat (Fin 1) 35) 40 26 9 = Throw (NotEnoughData EMA 40)
  /\ ~ (throws (calculateMACD (repeat (Fin 1) 35) 40 26 9)
        <-> (length (repeat (Fin 1) 35) < 26 + 9)%nat).
Proof.
  split; [vm_compute; reflexivity|].
  intros [H _]. specialize (H (throws_Throw _)). simpl in H. lia.
Qed.

Example calculateMACD_35_succeeds :
  is_ok (calculateMACD (map of_Z (map Z.of_nat (seq 1 35))) 12 26 9) = true.
Proof. vm_compute. reflexivity. Qed.

Example calculateMACD_34_fails :
  calculateMACD (map of_Z (map Z.of_nat (seq 1 34))) 12 26 9
  = Throw (NotEnoughData MACD 35).
Proof. vm_compute. reflexivity. Qed.

(** ** Snapshot assembly *)

Lemma calculateRSI_cases (closes : list num) (period : nat) :
  ((length closes < period + 1)%nat
   /\ calculateRSI closes period = Throw (NotEnoughData RSI (period + 1)))
  \/ ((period + 1 <= length closes)%nat
      /\ exists values, calculateRSI closes period = Ok values).
Proof.
  unfold calculateRSI.
  destruct (Nat.ltb_spec (length closes) (period + 1)) as [H | H].
  - left. auto.
  - right. split; [exact H|]. eexists. reflexivity.
Qed.

Lemma calculateBollingerBands_ok (qsqrt : Q -> Q) (prices : list num)
    (period : nat) (stdDev : num) :
  (period <= length prices)%nat ->
  exists b, calculateBollingerBands qsqrt prices period stdDev = Ok b.
Proof.
  intros H. unfold calculateBollingerBands.
  destruct (Nat.ltb_spec (length prices) period); [lia|].
  rewrite (calculateSMA_ok _ _ H). cbn [bind]. eexists. reflexivity.
Qed.

(** The error of [getLatestIndicators] is the one of the first computation
    that is short of data. *)
Lemma getLatestIndicators_cases (qsqrt : Q -> Q) (closes highs lows : list num) :
  ((length closes < 15)%nat
   /\ getLatestIndicators qsqrt closes highs lows = Throw (NotEnoughData RSI 15))
  \/ ((15 <= length closes < 35)%nat
      /\ getLatestIndicators qsqrt closes highs lows = Throw (NotEnoughData MACD 35))
  \/ ((35 <= length closes < 50)%nat
      /\ getLatestIndicators qsqrt closes highs lows = Throw (NotEnoughData SMA 50))
  \/ ((50 <= length closes)%nat
      /\ exists ind, getLatestIndicators qsqrt closes highs lows = Ok ind).
Proof.
  unfold getLatestIndicators.
  destruct (calculateRSI_cases closes 14) as [[H ->] | (H & values & ->)];
    [left; simpl in H; auto|].
  right. cbn [bind]. simpl in H.
  destruct (calculateMACD_cases closes 12 26 9)
    as [[H1 ->] | [(H1 & H2 & _) | (H1 & _ & m & -> & _)]]; simpl in H1.
  - left. split; [lia | reflexivity].
  - lia.
  - right. cbn [bind].
    rewrite (calculateSMA_ok closes 20) by lia. cbn [bind].
    destruct (Nat.lt_ge_cases (length closes) 50) as [H50 | H50].
    + left. rewrite (calculateSMA_throws _ _ H50). split; [lia | reflexivity].
    + right. rewrite (calculateSMA_ok _ _ H50). cbn [bind].
      destruct (calculateBollingerBands_ok qsqrt closes 20 (Fin 2)) as [b ->]; [lia|].
      cbn [bind]. split; [exact H50|]. eexists. reflexivity.
Qed.

(** C9: [getLatestIndicators] returns a snapshot exactly when there are at
    least 50 closes; with fewer, one of its computations throws. *)
Theorem getLatestIndicators_ok_iff (qsqrt : Q -> Q) (closes highs lows : list num) :
  ((exists ind, getLatestIndicators qsqrt closes highs lows = Ok ind)
   <-> (50 <= length closes)%nat)
  /\ (throws (getLatestIndicators qsqrt closes highs lows)
      <-> (length closes < 50)%nat).
Proof.
  destruct (getLatestIndicators_cases qsqrt closes highs lows)
    as [[H ->] | [[H ->] | [[H ->] | (H & ind & ->)]]].
  1-3: split;
    [split; [intros [x Hx]; discriminate | intros Hx; lia]
    |split; [intros _; lia | intros _; apply throws_Throw]].
  split.
  - split; [intros _; exact H | intros _; now exists ind].
  - split; [intros Hx; destruct (throws_Ok _ Hx) | intros Hx; lia].
Qed.

(** C10: the snapshot is a function of the closes alone; [highs] and [lows]
    are never read. *)
Theorem getLatestIndicators_ignores_highs_lows (qsqrt : Q -> Q)
    (closes highs1 lows1 highs2 lows2 : list num) :
  getLatestIndicators qsqrt closes highs1 lows1
  = getLatestIndicators qsqrt closes highs2 lows2.
Proof.
  unfold getLatestIndicators. reflexivity.
Qed.

(** ** Filter evaluator *)

Lemma matchesFilters_only_rsi_below (ind : indicators) (v : num) :
  matchesFilters ind (Some (only_rsi_below v)) = negb (ge ind.(rsi) v).
Proof.
  unfold matchesFilters, only_rsi_below, no_keys, block, rsi_block. cbn.
  destruct (ge (rsi ind) v); reflexivity.
Qed.

(** C7: with the criteria [{ rsi: { below: v } }] alone, a snapshot whose RSI
    is the rational [r] matches exactly when [r < v]. *)
Theorem matchesFilters_rsi_below_strict (ind : indicators) (r v : Q) :
  ind.(rsi) = Fin r ->
  (matchesFilters ind (Some (only_rsi_below (Fin v))) = true <-> r < v).
Proof.
  intros Hr. rewrite matchesFilters_only_rsi_below, Hr.
  rewrite negb_true_iff, <- not_true_iff_false, ge_Fin.
  split; [apply Qnot_le_lt | apply Qlt_not_le].
Qed.

(** RSI 28.5 matches [rsi.below(30)]; RSI 30 does not. *)
Lemma matchesFilters_rsi_below_strict_witness :
  matchesFilters (snapshot_with_rsi (Fin (57 # 2))) (Some (only_rsi_below (Fin 30))) = true
  /\ matchesFilters (snapshot_with_rsi (Fin 30)) (Some (only_rsi_below (Fin 30))) <> true.
Proof.
  split.
  - apply (matchesFilters_rsi_below_strict (snapshot_with_rsi (Fin (57 # 2))) (57 # 2) 30).
    + reflexivity.
    + reflexivity.
  - intros H.
    apply (matchesFilters_rsi_below_strict (snapshot_with_rsi (Fin 30)) 30 30) in H.
    + discriminate H.
    + reflexivity.
Defined.

Example matchesFilters_boundary :
  matchesFilters (snapshot_with_rsi (Fin (57 # 2))) (Some (only_rsi_below (Fin 30))) = true
  /\ matchesFilters (snapshot_with_rsi (Fin 30)) (Some (only_rsi_below (Fin 30))) = false.
Proof. split; vm_compute; reflexivity. Qed.

(** An RSI that is not a number passes every comparison of the block. *)
Example matchesFilters_nan_rsi :
  matchesFilters (snapshot_with_rsi NaN) (Some (only_rsi_below (Fin 30))) = true.
Proof. vm_compute. reflexivity. Qed.

Lemma matchesFilters_no_filters (ind : indicators) :
  matchesFilters ind (Some no_filters) = true /\ matchesFilters ind None = true.
Proof. split; reflexivity. Qed.

(** ** Indexing, and the square root used to run the code *)

Lemma nth_map_seq {A : Type} (f : nat -> A) (n i : nat) (d : A) :
  (i < n)%nat -> nth i (map f (seq 0 n)) d = f i.
Proof.
  intros H. rewrite (nth_indep _ d (f 0%nat)) by (now rewrite length_map, length_seq).
  rewrite map_nth, seq_nth by exact H. reflexivity.
Qed.

Lemma js_nth_of_nat (l : list num) (i : nat) : js_nth l (Z.of_nat i) = nth i l NaN.
Proof.
  unfold js_nth. destruct (Z.ltb_spec (Z.of_nat i) 0); [lia|].
  now rewrite Nat2Z.id.
Qed.

Lemma qsqrt_floor_nonneg (q : Q) : 0 <= qsqrt_floor q.
Proof.
  unfold qsqrt_floor. apply Qdiv_nonneg; [|reflexivity].
  change 0 with (inject_Z 0). rewrite <- Zle_Qle. apply Z.sqrt_nonneg.
Qed.

Lemma qsqrt_floor_zero (q : Q) : q == 0 -> qsqrt_floor q == 0.
Proof.
  intros H. unfold qsqrt_floor.
  assert (E : q * inject_Z (2 ^ 20) == 0) by (rewrite H; ring).
  rewrite (Qfloor_comp _ _ E). reflexivity.
Qed.

(** ** Rounding to binary64 *)

(** *** Powers of two *)

Lemma pow2_pos (e : Z) : 0 < Binary64.pow2 e.
Proof. apply Qpower_0_lt. reflexivity. Qed.

Lemma pow2_add (a b : Z) :
  Binary64.pow2 (a + b) == Binary64.pow2 a * Binary64.pow2 b.
Proof. apply Qpower_plus. intros H. discriminate H. Qed.

Lemma pow2_le (a b : Z) : (a <= b)%Z -> Binary64.pow2 a <= Binary64.pow2 b.
Proof. intros H. apply Qpower_le_compat_l; [exact H | discriminate]. Qed.

Lemma pow2_lt (a b : Z) : (a < b)%Z -> Binary64.pow2 a < Binary64.pow2 b.
Proof. intros H. apply Qpower_lt_compat_l; [exact H | reflexivity]. Qed.

Lemma pow2_Z (e : Z) : (0 <= e)%Z -> Binary64.pow2 e == inject_Z (2 ^ e).
Proof. intros H. symmetry. apply (Zpower_Qpower 2 e H). Qed.

Lemma pow2_shift (a b : Z) :
  Binary64.pow2 a == Binary64.pow2 (a - b) * Binary64.pow2 b.
Proof. rewrite <- pow2_add. replace (a - b + b)%Z with a by lia. reflexivity. Qed.

(** *** The exponent *)

Lemma ilog2_spec (a : Q) :
  0 < a ->
  Binary64.pow2 (Binary64.ilog2 a) <= a < Binary64.pow2 (Binary64.ilog2 a + 1).
Proof.
  intros Ha. destruct a as [n d]. unfold Binary64.ilog2. cbn [Qnum Qden].
  assert (Hn : (0 < n)%Z).
  { unfold Qlt in Ha. simpl in Ha. lia. }
  set (ln := Z.log2 n). set (ld := Z.log2 (Z.pos d)).
  pose proof (Z.log2_spec n Hn) as [Hn1 Hn2]. fold ln in Hn1, Hn2.
  pose proof (Z.log2_spec (Z.pos d) (Pos2Z.is_pos d)) as [Hd1 Hd2]. fold ld in Hd1, Hd2.
  pose proof (Z.log2_nonneg n) as Hln. fold ln in Hln.
  pose proof (Z.log2_nonneg (Z.pos d)) as Hld. fold ld in Hld.
  set (N := inject_Z n). set (D := inject_Z (Z.pos d)).
  assert (HD : 0 < D) by (unfold D; change 0 with (inject_Z 0); rewrite <- Zlt_Qlt; lia).
  assert (E : n # d == N / D) by apply Qmake_Qdiv.
  assert (EN : (n # d) * D == N) by (rewrite E; field; lra).
  assert (HN1 : Binary64.pow2 ln <= N).
  { rewrite (pow2_Z ln Hln). unfold N. rewrite <- Zle_Qle. exact Hn1. }
  assert (HN2 : N < Binary64.pow2 (ln + 1)).
  { rewrite (pow2_Z (ln + 1)) by lia. unfold N. rewrite <- Zlt_Qlt.
    unfold Z.succ in Hn2. exact Hn2. }
  assert (HD1 : Binary64.pow2 ld <= D).
  { rewrite (pow2_Z ld Hld). unfold D. rewrite <- Zle_Qle. exact Hd1. }
  assert (HD2 : D < Binary64.pow2 (ld + 1)).
  { rewrite (pow2_Z (ld + 1)) by lia. unfold D. rewrite <- Zlt_Qlt.
    unfold Z.succ in Hd2. exact Hd2. }
  set (e0 := (ln - ld)%Z).
  pose proof (pow2_pos (e0 + 1)) as P1. pose proof (pow2_pos (e0 - 1)) as P2.
  assert (Hup : (n # d) < Binary64.pow2 (e0 + 1)).
  { assert (H1 : Binary64.pow2 (ln + 1) == Binary64.pow2 (e0 + 1) * Binary64.pow2 ld).
    { rewrite <- pow2_add. unfold e0. replace (ln - ld + 1 + ld)%Z with (ln + 1)%Z by lia.
      reflexivity. }
    apply (Qmult_lt_r _ _ D HD). rewrite EN.
    apply (Qlt_le_trans _ _ _ HN2). rewrite H1.
    apply Qmult_le_l; [exact P1 | exact HD1]. }
  assert (Hlo : Binary64.pow2 (e0 - 1) <= (n # d)).
  { assert (H1 : Binary64.pow2 ln == Binary64.pow2 (e0 - 1) * Binary64.pow2 (ld + 1)).
    { rewrite <- pow2_add. unfold e0. replace (ln - ld - 1 + (ld + 1))%Z with ln by lia.
      reflexivity. }
    apply (Qmult_le_r _ _ D HD). rewrite EN.
    apply (Qle_trans _ (Binary64.pow2 ln)); [|exact HN1]. rewrite H1.
    apply Qmult_le_l; [exact P2 | apply Qlt_le_weak, HD2]. }
  destruct (Qle_bool (Binary64.pow2 e0) (n # d)) eqn:Et.
  - apply Qle_bool_iff in Et. split; assumption.
  - replace (e0 - 1 + 1)%Z with e0 by lia. split; [exact Hlo|].
    apply Qnot_le_lt. intros H. apply Qle_bool_iff in H. congruence.
Qed.

Lemma ulp_exp_ge (q : Q) : (-1074 <= Binary64.ulp_exp q)%Z.
Proof.
  unfold Binary64.ulp_exp. destruct (Qle_bool (Qabs q) 0); lia.
Qed.

Lemma ulp_exp_upper (q : Q) : Qabs q < Binary64.pow2 (Binary64.ulp_exp q + 53).
Proof.
  unfold Binary64.ulp_exp. destruct (Qle_bool (Qabs q) 0) eqn:E.
  - apply Qle_bool_iff in E. apply (Qle_lt_trans _ 0); [exact E | apply pow2_pos].
  - assert (Ha : 0 < Qabs q).
    { apply Qnot_le_lt. intros H. apply Qle_bool_iff in H. congruence. }
    destruct (ilog2_spec _ Ha) as [_ H].
    apply (Qlt_le_trans _ _ _ H). apply pow2_le. lia.
Qed.

Lemma ulp_exp_lower (q : Q) :
  (-1074 < Binary64.ulp_exp q)%Z ->
  Binary64.pow2 (Binary64.ulp_exp q + 52) <= Qabs q.
Proof.
  unfold Binary64.ulp_exp. destruct (Qle_bool (Qabs q) 0) eqn:E; [lia|].
  intros Hu.
  assert (Ha : 0 < Qabs q).
  { apply Qnot_le_lt. intros H. apply Qle_bool_iff in H. congruence. }
  destruct (ilog2_spec _ Ha) as [H _].
  replace (Z.max (Binary64.ilog2 (Qabs q)) (-1022) - 52 + 52)%Z
    with (Binary64.ilog2 (Qabs q)) by lia.
  exact H.
Qed.

Lemma ulp_exp_small (q : Q) (k : Z) :
  (-1074 <= k)%Z -> Qabs q < Binary64.pow2 (k + 53) -> (Binary64.ulp_exp q <= k)%Z.
Proof.
  intros Hk H. destruct (Z.le_gt_cases (Binary64.ulp_exp q) k) as [Hle | Hgt]; [exact Hle|].
  exfalso. assert (Hu : (-1074 < Binary64.ulp_exp q)%Z) by lia.
  pose proof (ulp_exp_lower q Hu) as Hl.
  pose proof (pow2_le (k + 53) (Binary64.ulp_exp q + 52) ltac:(lia)) as Hp.
  lra.
Qed.

Lemma ulp_exp_large (q : Q) (k : Z) :
  Binary64.pow2 (k + 52) <= Qabs q -> (k <= Binary64.ulp_exp q)%Z.
Proof.
  intros H. destruct (Z.le_gt_cases k (Binary64.ulp_exp q)) as [Hle | Hgt]; [exact Hle|].
  exfalso. pose proof (ulp_exp_upper q) as Hu.
  pose proof (pow2_le (Binary64.ulp_exp q + 53) (k + 52) ltac:(lia)) as Hp.
  lra.
Qed.

(** *** Rounding to the nearest integer *)

Lemma round_half_even_Z (t : Q) (z : Z) :
  t == inject_Z z -> Binary64.round_half_even t = z.
Proof.
  intros H. unfold Binary64.round_half_even.
  rewrite (Qfloor_comp _ _ H), Qfloor_Z.
  destruct (Qcompare_spec (t - inject_Z z) (1 # 2)) as [E | E | E];
    [exfalso; lra | reflexivity | exfalso; lra].
Qed.

Lemma round_half_even_near (t : Q) :
  Binary64.round_half_even t = Qfloor t
  \/ Binary64.round_half_even t = (Qfloor t + 1)%Z.
Proof.
  unfold Binary64.round_half_even.
  destruct (Qcompare _ _); [destruct (Z.even _)| |]; auto.
Qed.

Lemma round_half_even_monotone (t t' : Q) :
  t <= t' -> (Binary64.round_half_even t <= Binary64.round_half_even t')%Z.
Proof.
  intros H. pose proof (Qfloor_resp_le _ _ H) as Hf.
  destruct (Z.eq_dec (Qfloor t) (Qfloor t')) as [E | E].
  - unfold Binary64.round_half_even. rewrite <- E.
    destruct (Qcompare_spec (t - inject_Z (Qfloor t)) (1 # 2)) as [E1 | E1 | E1];
      destruct (Qcompare_spec (t' - inject_Z (Qfloor t)) (1 # 2)) as [E2 | E2 | E2];
      try destruct (Z.even (Qfloor t)); try lia; exfalso; lra.
  - destruct (round_half_even_near t) as [-> | ->];
      destruct (round_half_even_near t') as [-> | ->]; lia.
Qed.

(** *** Rounding with an unbounded exponent *)

Lemma Qabs_inject_Z (n : Z) : Qabs (inject_Z n) = inject_Z (Z.abs n).
Proof. reflexivity. Qed.

Lemma scaled_bounds (q : Q) :
  - inject_Z (2 ^ 53) < q / Binary64.pow2 (Binary64.ulp_exp q) < inject_Z (2 ^ 53).
Proof.
  pose proof (ulp_exp_upper q) as Hu.
  pose proof (pow2_pos (Binary64.ulp_exp q)) as Hp.
  rewrite (Z.add_comm _ 53), pow2_add, (pow2_Z 53) in Hu by lia.
  apply Qabs_Qlt_condition in Hu. destruct Hu as [H1 H2].
  split.
  - apply Qlt_shift_div_l; [exact Hp | lra].
  - apply Qlt_shift_div_r; [exact Hp | lra].
Qed.

Lemma round_unbounded_mantissa (q : Q) :
  (- 2 ^ 53 <= Binary64.round_half_even (q / Binary64.pow2 (Binary64.ulp_exp q)) <= 2 ^ 53)%Z.
Proof.
  destruct (scaled_bounds q) as [H1 H2]. split.
  - assert (H : inject_Z (- 2 ^ 53) <= q / Binary64.pow2 (Binary64.ulp_exp q)).
    { rewrite inject_Z_opp. lra. }
    apply round_half_even_monotone in H.
    rewrite (round_half_even_Z _ (- 2 ^ 53) (Qeq_refl _)) in H. exact H.
  - pose proof (round_half_even_monotone _ _ (Qlt_le_weak _ _ H2)) as H.
    rewrite (round_half_even_Z _ (2 ^ 53) (Qeq_refl _)) in H. exact H.
Qed.

Lemma round_unbounded_monotone (x y : Q) :
  x <= y -> Binary64.round_unbounded x <= Binary64.round_unbounded y.
Proof.
  intros H. unfold Binary64.round_unbounded.
  set (ux := Binary64.ulp_exp x). set (uy := Binary64.ulp_exp y).
  pose proof (pow2_pos ux) as Px. pose proof (pow2_pos uy) as Py.
  pose proof (round_unbounded_mantissa x) as [Mx1 Mx2]. fold ux in Mx1, Mx2.
  pose proof (round_unbounded_mantissa y) as [My1 My2]. fold uy in My1, My2.
  set (nx := Binary64.round_half_even (x / Binary64.pow2 ux)) in *.
  set (ny := Binary64.round_half_even (y / Binary64.pow2 uy)) in *.
  destruct (Z.lt_trichotomy ux uy) as [Hu | [Hu | Hu]].
  - (* x is in a lower binade: y is positive and at least 2^(uy + 52) *)
    assert (Hy : Binary64.pow2 (uy + 52) <= Qabs y).
    { apply ulp_exp_lower. pose proof (ulp_exp_ge x). fold ux in H0. fold uy. lia. }
    pose proof (ulp_exp_upper x) as Hx. fold ux in Hx.
    pose proof (pow2_le (ux + 53) (uy + 52) ltac:(lia)) as Hp.
    assert (Hypos : 0 <= y).
    { destruct (Qlt_le_dec y 0) as [Hneg | Hpos]; [exfalso | exact Hpos].
      rewrite (Qabs_neg y) in Hy by lra. rewrite (Qabs_neg x) in Hx by lra. lra. }
    rewrite (Qabs_pos y Hypos) in Hy.
    assert (Hny : (2 ^ 52 <= ny)%Z).
    { assert (Ht : inject_Z (2 ^ 52) <= y / Binary64.pow2 uy).
      { apply Qle_shift_div_l; [exact Py|].
        rewrite <- (pow2_Z 52) by lia. rewrite <- pow2_add.
        rewrite (Z.add_comm 52 uy). exact Hy. }
      apply round_half_even_monotone in Ht.
      rewrite (round_half_even_Z _ (2 ^ 52) (Qeq_refl _)) in Ht. exact Ht. }
    apply (Qle_trans _ (Binary64.pow2 (ux + 53))).
    + rewrite (Z.add_comm ux 53), pow2_add, (pow2_Z 53) by lia.
      apply Qmult_le_compat_r; [|lra]. rewrite <- Zle_Qle. exact Mx2.
    + apply (Qle_trans _ _ _ Hp).
      rewrite (Z.add_comm uy 52), pow2_add, (pow2_Z 52) by lia.
      apply Qmult_le_compat_r; [|lra]. rewrite <- Zle_Qle. exact Hny.
  - (* the same binade *)
    unfold nx, ny. rewrite Hu. fold uy.
    apply Qmult_le_compat_r; [|lra]. rewrite <- Zle_Qle.
    apply round_half_even_monotone.
    apply Qmult_le_compat_r; [exact H|]. apply Qlt_le_weak, Qinv_lt_0_compat, Py.
  - (* y is in a lower binade: x is negative and at most -2^(ux + 52) *)
    assert (Hx : Binary64.pow2 (ux + 52) <= Qabs x).
    { apply ulp_exp_lower. pose proof (ulp_exp_ge y). fold uy in H0. fold ux. lia. }
    pose proof (ulp_exp_upper y) as Hy. fold uy in Hy.
    pose proof (pow2_le (uy + 53) (ux + 52) ltac:(lia)) as Hp.
    assert (Hxneg : x <= 0).
    { destruct (Qlt_le_dec 0 x) as [Hpos | Hneg]; [exfalso | exact Hneg].
      rewrite (Qabs_pos x) in Hx by lra. rewrite (Qabs_pos y) in Hy by lra. lra. }
    rewrite (Qabs_neg x Hxneg) in Hx.
    assert (Hnx : (nx <= - 2 ^ 52)%Z).
    { assert (Ht : x / Binary64.pow2 ux <= inject_Z (- 2 ^ 52)).
      { apply Qle_shift_div_r; [exact Px|].
        rewrite inject_Z_opp, <- (pow2_Z 52) by lia.
        assert (E : - Binary64.pow2 52 * Binary64.pow2 ux == - Binary64.pow2 (ux + 52)).
        { rewrite (Z.add_comm ux 52), pow2_add. ring. }
        rewrite E. lra. }
      apply round_half_even_monotone in Ht.
      rewrite (round_half_even_Z _ (- 2 ^ 52) (Qeq_refl _)) in Ht. exact Ht. }
    apply (Qle_trans _ (- Binary64.pow2 (ux + 52))).
    + rewrite (Z.add_comm ux 52), pow2_add, (pow2_Z 52) by lia.
      assert (E : - (inject_Z (2 ^ 52) * Binary64.pow2 ux)
                  == inject_Z (- 2 ^ 52) * Binary64.pow2 ux).
      { rewrite inject_Z_opp. ring. }
      rewrite E. apply Qmult_le_compat_r; [|lra]. rewrite <- Zle_Qle. exact Hnx.
    + apply (Qle_trans _ (- Binary64.pow2 (uy + 53))); [lra|].
      rewrite (Z.add_comm uy 53), pow2_add, (pow2_Z 53) by lia.
      assert (E : - (inject_Z (2 ^ 53) * Binary64.pow2 uy)
                  == inject_Z (- 2 ^ 53) * Binary64.pow2 uy).
      { rewrite inject_Z_opp. ring. }
      rewrite E. apply Qmult_le_compat_r; [|lra]. rewrite <- Zle_Qle. exact My1.
Qed.

(** A multiple of the unit in the last place is left as it is. *)
Lemma round_unbounded_grid (q : Q) (m : Z) :
  q == inject_Z m * Binary64.pow2 (Binary64.ulp_exp q) ->
  Binary64.round_unbounded q == q.
Proof.
  intros H. unfold Binary64.round_unbounded.
  pose proof (pow2_pos (Binary64.ulp_exp q)) as Hp.
  assert (E : q / Binary64.pow2 (Binary64.ulp_exp q) == inject_Z m).
  { rewrite H at 1. field. lra. }
  rewrite (round_half_even_Z _ _ E). symmetry. exact H.
Qed.

(** A number with a mantissa of at most 53 bits and an exponent of at least
    -1074 is a multiple of its unit in the last place. *)
Lemma on_grid (q : Q) (n k : Z) :
  (-1074 <= k)%Z -> (Z.abs n <= 2 ^ 53)%Z ->
  q == inject_Z n * Binary64.pow2 k ->
  exists m, q == inject_Z m * Binary64.pow2 (Binary64.ulp_exp q).
Proof.
  intros Hk Hn Hq.
  pose proof (pow2_pos k) as Pk.
  assert (Habs : Qabs q == inject_Z (Z.abs n) * Binary64.pow2 k).
  { transitivity (Qabs (inject_Z n * Binary64.pow2 k)); [apply Qabs_wd, Hq|].
    rewrite Qabs_Qmult, Qabs_inject_Z.
    rewrite (Qabs_pos (Binary64.pow2 k)) by lra. reflexivity. }
  destruct (Z.eq_dec (Z.abs n) (2 ^ 53)) as [Hfull | Hless].
  - (* the mantissa is 2^53: the number is a power of two of the next binade *)
    assert (Hpow : Qabs q == Binary64.pow2 (k + 53)).
    { rewrite Habs, Hfull, (Z.add_comm k 53), pow2_add, (pow2_Z 53) by lia. reflexivity. }
    assert (Hu : Binary64.ulp_exp q = (k + 1)%Z).
    { apply Z.le_antisymm.
      - apply ulp_exp_small; [lia|]. rewrite Hpow. apply pow2_lt. lia.
      - apply ulp_exp_large. rewrite Hpow. apply pow2_le. lia. }
    exists (n / 2)%Z. rewrite Hu, Hq, pow2_add.
    assert (En : n = (2 * (n / 2))%Z).
    { apply Z.div_exact; [lia|].
      destruct (Z.abs_eq_or_opp n) as [E | E]; rewrite E in Hfull.
      - rewrite Hfull. reflexivity.
      - replace n with (- 2 ^ 53)%Z by lia. reflexivity. }
    rewrite En at 1. rewrite inject_Z_mult.
    change (Binary64.pow2 1) with 2. change (inject_Z 2) with 2. ring.
  - assert (Hlt : Qabs q < Binary64.pow2 (k + 53)).
    { rewrite Habs, (Z.add_comm k 53), pow2_add, (pow2_Z 53) by lia.
      apply Qmult_lt_compat_r; [exact Pk|]. rewrite <- Zlt_Qlt. lia. }
    pose proof (ulp_exp_small q k Hk Hlt) as Hu.
    exists (n * 2 ^ (k - Binary64.ulp_exp q))%Z.
    transitivity (inject_Z n * Binary64.pow2 k); [exact Hq|].
    rewrite inject_Z_mult, <- (pow2_Z (k - Binary64.ulp_exp q)) by lia.
    rewrite (pow2_shift k (Binary64.ulp_exp q)). ring.
Qed.

Lemma round_unbounded_integer (z : Z) :
  (Z.abs z <= 2 ^ 53)%Z -> Binary64.round_unbounded (inject_Z z) == inject_Z z.
Proof.
  intros H. destruct (on_grid (inject_Z z) z 0) as (m & Hm).
  - lia.
  - exact H.
  - change (Binary64.pow2 0) with 1. ring.
  - apply (round_unbounded_grid _ m Hm).
Qed.

(** *** The laws *)

Lemma binary64_rnd_cases (q : Q) :
  let v := Binary64.round_unbounded (Qred q) in
  (Binary64.rnd q = PInf /\ Binary64.pow2 1024 <= v)
  \/ (Binary64.rnd q = NInf /\ v <= - Binary64.pow2 1024)
  \/ (Binary64.rnd q = Fin (Qred v)
      /\ - Binary64.pow2 1024 < v < Binary64.pow2 1024).
Proof.
  cbv zeta. unfold Binary64.rnd.
  destruct (Qle_bool (Binary64.pow2 1024) _) eqn:E1.
  - left. split; [reflexivity | apply Qle_bool_iff, E1].
  - destruct (Qle_bool _ (- Binary64.pow2 1024)) eqn:E2.
    + right. left. split; [reflexivity | apply Qle_bool_iff, E2].
    + right. right. split; [reflexivity|]. split; apply Qnot_le_lt; intros H;
        apply Qle_bool_iff in H; congruence.
Qed.

Lemma binary64_rnd_monotone (x y : Q) :
  x <= y -> le (Binary64.rnd x) (Binary64.rnd y) = true.
Proof.
  intros H.
  assert (Hv : Binary64.round_unbounded (Qred x) <= Binary64.round_unbounded (Qred y)).
  { apply round_unbounded_monotone. rewrite !Qred_correct. exact H. }
  pose proof (pow2_pos 1024) as Hp.
  destruct (binary64_rnd_cases x) as [[-> Hx] | [[-> Hx] | [-> Hx]]];
    destruct (binary64_rnd_cases y) as [[-> Hy] | [[-> Hy] | [-> Hy]]];
    cbv zeta in *; try reflexivity; try (exfalso; lra).
  apply le_Fin. apply (proj2 (Qred_le _ _)), Hv.
Qed.

Lemma binary64_rnd_integer (z : Z) :
  (Z.abs z <= 2 ^ 53)%Z -> Binary64.rnd (inject_Z z) = Fin (inject_Z z).
Proof.
  intros H.
  assert (Ez : Qred (inject_Z z) = inject_Z z) by apply Qcanon.Qred_identity, Z.gcd_1_r.
  pose proof (round_unbounded_integer z H) as Hv.
  assert (Hb : - Binary64.pow2 1024 < inject_Z z < Binary64.pow2 1024).
  { pose proof (pow2_lt 53 1024 ltac:(lia)) as Hp. rewrite (pow2_Z 53) in Hp by lia.
    assert (H1 : inject_Z (- 2 ^ 53) <= inject_Z z) by (rewrite <- Zle_Qle; lia).
    assert (H2 : inject_Z z <= inject_Z (2 ^ 53)) by (rewrite <- Zle_Qle; lia).
    rewrite inject_Z_opp in H1. lra. }
  destruct (binary64_rnd_cases (inject_Z z)) as [[_ Hx] | [[_ Hx] | [-> _]]];
    cbv zeta in *; rewrite Ez in *; try (exfalso; lra).
  f_equal. rewrite <- Ez at 2. apply Qred_complete, Hv.
Qed.

Lemma binary64_rnd_representable (x y : Q) :
  Binary64.rnd x = Fin y -> Binary64.rnd y = Fin y.
Proof.
  intros H.
  destruct (binary64_rnd_cases x) as [[E _] | [[E _] | [E Hx]]]; cbv zeta in *;
    rewrite E in H; try discriminate.
  injection H as <-.
  set (v := Binary64.round_unbounded (Qred x)) in *.
  assert (Ey : Qred (Qred v) = Qred v) by apply Qred_complete, Qred_correct.
  assert (Hv : Binary64.round_unbounded (Qred v) == v).
  { assert (Hg : exists m, Qred v == inject_Z m * Binary64.pow2 (Binary64.ulp_exp (Qred v))).
    { apply (on_grid (Qred v)
               (Binary64.round_half_even (Qred x / Binary64.pow2 (Binary64.ulp_exp (Qred x))))
               (Binary64.ulp_exp (Qred x))).
      - apply ulp_exp_ge.
      - pose proof (round_unbounded_mantissa (Qred x)). lia.
      - rewrite Qred_correct. reflexivity. }
    destruct Hg as (m & Hm). rewrite (round_unbounded_grid _ m Hm). apply Qred_correct. }
  destruct (binary64_rnd_cases (Qred v)) as [[_ Hy] | [[_ Hy] | [-> _]]];
    cbv zeta in *; rewrite Ey in *; try (exfalso; lra).
  f_equal. apply Qred_complete, Hv.
Qed.

Lemma binary64_rnd_nonneg (q : Q) :
  0 <= q -> Binary64.rnd q = PInf \/ exists s, Binary64.rnd q = Fin s /\ 0 <= s.
Proof.
  intros H. pose proof (binary64_rnd_monotone 0 q H) as Hm.
  pose proof (binary64_rnd_integer 0 ltac:(lia)) as H0.
  change (inject_Z 0) with 0 in H0. rewrite H0 in Hm.
  destruct (binary64_rnd_cases q) as [[E _] | [[E _] | [E _]]]; rewrite E in *.
  - left. reflexivity.
  - discriminate.
  - right. eexists. split; [reflexivity | apply le_Fin, Hm].
Qed.

Lemma binary64_lawful : Rounded.lawful Binary64.rounding.
Proof.
  constructor; cbn [Rounded.rnd Rounded.rnd_sqrt Rounded.rnd_pow2 Binary64.rounding].
  - intros q. destruct (binary64_rnd_cases q) as [[-> _] | [[-> _] | [-> _]]]; discriminate.
  - intros x y H. unfold Binary64.rnd. now rewrite (Qred_complete _ _ H).
  - apply binary64_rnd_monotone.
  - apply binary64_rnd_representable.
  - apply binary64_rnd_integer.
  - intros q Hq. unfold Binary64.rnd_sqrt.
    destruct (Qle_bool (Qred q) 0); [right; exists 0; split; [reflexivity | lra]|].
    cbv zeta.
    set (u := (Z.max (Binary64.ilog2 (Qred q) / 2) (-1022) - 52)%Z).
    set (s := Qred q / Binary64.pow2 (2 * u)).
    set (n := Z.sqrt (Qfloor s)).
    set (m := match Qcompare s _ with Lt => n | Eq => _ | Gt => _ end).
    assert (Hm : (0 <= m)%Z).
    { pose proof (Z.sqrt_nonneg (Qfloor s)) as Hn. fold n in Hn. unfold m.
      destruct (Qcompare _ _); [destruct (Z.even n)| |]; lia. }
    destruct (Qle_bool _ _); [left; reflexivity|].
    right. eexists. split; [reflexivity|]. rewrite Qred_correct.
    apply Qmult_le_0_compat; [|apply Qlt_le_weak, pow2_pos].
    change 0 with (inject_Z 0). rewrite <- Zle_Qle. exact Hm.
  - intros q Hq. unfold Binary64.rnd_sqrt.
    assert (E : Qle_bool (Qred q) 0 = true).
    { apply Qle_bool_iff. rewrite Qred_correct, Hq. lra. }
    rewrite E. exists 0. split; reflexivity.
  - intros q. apply binary64_rnd_nonneg. generalize q. intros d. nra.
Qed.

(** ** Rounded arithmetic *)

Lemma exact_lawful : Rounded.lawful exact.
Proof.
  constructor; cbn [Rounded.rnd Rounded.rnd_sqrt Rounded.rnd_pow2 exact].
  - discriminate.
  - intros x y H. f_equal. apply Qred_complete, H.
  - intros x y H. apply le_Fin. rewrite !Qred_correct. exact H.
  - intros x y H. injection H as <-. f_equal. apply Qred_complete, Qred_correct.
  - intros z _. f_equal. apply Qcanon.Qred_identity. apply Z.gcd_1_r.
  - intros q _. right. eexists. split; [reflexivity | apply qsqrt_floor_nonneg].
  - intros q H. eexists. split; [reflexivity | apply qsqrt_floor_zero, H].
  - intros q. right. eexists. split; [reflexivity|]. rewrite Qred_correct.
    generalize q. intros d. nra.
Qed.

Lemma is_zero_inv (a : num) : is_zero a -> exists q, a = Fin q /\ q == 0.
Proof.
  destruct a as [q | | |]; try discriminate.
  intros H. exists q. split; [reflexivity | apply is_zero_Fin, H].
Qed.

Lemma inject_Z_pred (z : Z) : inject_Z z - 1 == inject_Z (z - 1).
Proof.
  unfold Z.sub. rewrite inject_Z_plus, inject_Z_opp. reflexivity.
Qed.

Section RoundedArithmetic.

Variable R : Rounded.rounding.
Hypothesis HR : Rounded.lawful R.

Local Abbreviation rnd := (Rounded.rnd R).
Local Abbreviation O := (Rounded.on_num R).
Local Abbreviation r_add := (Rounded.r_add R).
Local Abbreviation r_sub := (Rounded.r_sub R).
Local Abbreviation r_mul := (Rounded.r_mul R).
Local Abbreviation r_div := (Rounded.r_div R).

Lemma rnd_small (z : Z) : (Z.abs z <= 100)%Z -> rnd (inject_Z z) = Fin (inject_Z z).
Proof.
  intros H. apply (Rounded.rnd_integer R HR).
  change (2 ^ 53)%Z with 9007199254740992%Z. lia.
Qed.

Lemma rnd_0 : rnd 0 = Fin 0.
Proof. apply (rnd_small 0). lia. Qed.

Lemma rnd_1 : rnd 1 = Fin 1.
Proof. apply (rnd_small 1). lia. Qed.

Lemma rnd_100 : rnd 100 = Fin 100.
Proof. apply (rnd_small 100). lia. Qed.

Lemma rnd_eq (x y : Q) : x == y -> rnd x = rnd y.
Proof. apply (Rounded.rnd_proper R HR). Qed.

Lemma rnd_zero (q : Q) : q == 0 -> rnd q = Fin 0.
Proof. intros H. rewrite (rnd_eq _ _ H). apply rnd_0. Qed.

(** Rounding is monotone: a bound that is representable is kept. *)
Lemma rnd_above (lo lo' q : Q) :
  rnd lo = Fin lo' -> lo <= q ->
  rnd q = PInf \/ exists y, rnd q = Fin y /\ lo' <= y.
Proof.
  intros Hlo H. pose proof (Rounded.rnd_monotone R HR _ _ H) as Hm. rewrite Hlo in Hm.
  pose proof (Rounded.rnd_not_NaN R HR q) as Hn.
  destruct (rnd q) as [y | | |]; try discriminate; try contradiction.
  - right. exists y. split; [reflexivity | apply le_Fin, Hm].
  - left. reflexivity.
Qed.

Lemma rnd_below (hi hi' q : Q) :
  rnd hi = Fin hi' -> q <= hi ->
  rnd q = NInf \/ exists y, rnd q = Fin y /\ y <= hi'.
Proof.
  intros Hhi H. pose proof (Rounded.rnd_monotone R HR _ _ H) as Hm. rewrite Hhi in Hm.
  pose proof (Rounded.rnd_not_NaN R HR q) as Hn.
  destruct (rnd q) as [y | | |]; try discriminate; try contradiction.
  - right. exists y. split; [reflexivity | apply le_Fin, Hm].
  - left. reflexivity.
Qed.

Lemma rnd_within (lo lo' hi hi' q : Q) :
  rnd lo = Fin lo' -> rnd hi = Fin hi' -> lo <= q <= hi ->
  exists y, rnd q = Fin y /\ lo' <= y <= hi'.
Proof.
  intros Hlo Hhi [H1 H2].
  destruct (rnd_above _ _ _ Hlo H1) as [E | (y & E & Hy)];
    destruct (rnd_below _ _ _ Hhi H2) as [E' | (y' & E' & Hy')]; try congruence.
  exists y. split; [exact E|]. split; [exact Hy|].
  rewrite E in E'. injection E' as <-. exact Hy'.
Qed.

Lemma rnd_nonneg (q : Q) : 0 <= q -> nonneg_or_PInf (rnd q).
Proof.
  intros H. destruct (rnd_above _ _ _ rnd_0 H) as [E | (y & E & Hy)].
  - left. exact E.
  - right. exists y. split; assumption.
Qed.

(** A value computed by a rounded operation is representable. *)
Lemma rnd_fixed (x y : Q) : rnd x = Fin y -> rnd y = Fin y.
Proof. apply (Rounded.rnd_representable R HR). Qed.

(** *** Counts *)

Lemma lit_0 : Rounded.op_lit O 0 = Fin 0.
Proof. apply rnd_0. Qed.

Lemma lit_1 : Rounded.op_lit O 1 = Fin 1.
Proof. apply rnd_1. Qed.

Lemma lit_100 : Rounded.op_lit O 100 = Fin 100.
Proof. apply rnd_100. Qed.

Lemma count_Fin (p : nat) :
  (Z.of_nat p <= 2 ^ 53)%Z -> Rounded.count O p = Fin (inject_Z (Z.of_nat p)).
Proof.
  intros H. apply (Rounded.rnd_integer R HR). lia.
Qed.

Lemma count_pred (p : nat) :
  (1 <= p)%nat -> (Z.of_nat p <= 2 ^ 53)%Z ->
  Rounded.op_sub O (Rounded.count O p) (Rounded.op_lit O 1)
  = Fin (inject_Z (Z.of_nat p - 1)).
Proof.
  intros H1 H2. rewrite (count_Fin _ H2), lit_1.
  cbn [Rounded.op_sub Rounded.on_num Rounded.r_sub].
  rewrite (rnd_eq _ _ (inject_Z_pred (Z.of_nat p))).
  apply (Rounded.rnd_integer R HR). lia.
Qed.

(** *** Values that are not negative *)

Lemma r_add_nonneg (a b : num) :
  nonneg_or_PInf a -> nonneg_or_PInf b -> nonneg_or_PInf (r_add a b).
Proof.
  intros [-> | (x & -> & Hx)] [-> | (y & -> & Hy)]; try (left; reflexivity).
  cbn [Rounded.r_add]. apply rnd_nonneg. lra.
Qed.



Lemma r_div_nonneg (a : num) (p : Q) :
  0 < p -> nonneg_or_PInf a -> nonneg_or_PInf (r_div a (Fin p)).
Proof.
  intros Hp Ha. assert (E : (p ?= 0) = Gt) by (apply (proj1 (Qgt_alt p 0)), Hp).
  destruct Ha as [-> | (x & -> & Hx)].
  - left. cbn [Rounded.r_div JsNum.div]. rewrite E. reflexivity.
  - cbn [Rounded.r_div]. rewrite E. apply rnd_nonneg, Qdiv_nonneg; assumption.
Qed.


Lemma fold_add_nonneg (l : list num) (acc : num) :
  nonneg_or_PInf acc -> Forall nonneg_or_PInf l ->
  nonneg_or_PInf (fold_left r_add l acc).
Proof.
  intros Ha Hl. revert acc Ha. induction Hl as [| x l Hx _ IH]; intros acc Ha; simpl.
  - exact Ha.
  - apply IH, r_add_nonneg; assumption.
Qed.

Lemma reduce_sum_nonneg_or_PInf (l : list num) :
  Forall nonneg_or_PInf l -> nonneg_or_PInf (Rounded.reduce_sum O l).
Proof.
  intros H. unfold Rounded.reduce_sum. rewrite lit_0.
  apply fold_add_nonneg; [|exact H].
  right. exists 0. split; [reflexivity | lra].
Qed.



(** *** Zeros *)

Lemma r_add_zero (a b : num) : is_zero a -> is_zero b -> is_zero (r_add a b).
Proof.
  intros Ha Hb. destruct (is_zero_inv _ Ha) as (x & -> & Hx).
  destruct (is_zero_inv _ Hb) as (y & -> & Hy).
  cbn [Rounded.r_add]. rewrite rnd_zero by lra. reflexivity.
Qed.

Lemma r_mul_zero (a : num) (k : Q) : is_zero a -> is_zero (r_mul a (Fin k)).
Proof.
  intros Ha. destruct (is_zero_inv _ Ha) as (x & -> & Hx).
  cbn [Rounded.r_mul]. rewrite rnd_zero by (rewrite Hx; ring). reflexivity.
Qed.

Lemma r_div_zero (a : num) (p : Q) : 0 < p -> is_zero a -> is_zero (r_div a (Fin p)).
Proof.
  intros Hp Ha. destruct (is_zero_inv _ Ha) as (x & -> & Hx).
  assert (E : (p ?= 0) = Gt) by (apply (proj1 (Qgt_alt p 0)), Hp).
  cbn [Rounded.r_div]. rewrite E.
  rewrite rnd_zero by (rewrite Hx; field; lra). reflexivity.
Qed.

Lemma fold_add_zero (l : list num) (acc : num) :
  is_zero acc -> Forall is_zero l -> is_zero (fold_left r_add l acc).
Proof.
  intros Ha Hl. revert acc Ha. induction Hl as [| x l Hx _ IH]; intros acc Ha; simpl.
  - exact Ha.
  - apply IH, r_add_zero; assumption.
Qed.

Lemma reduce_sum_zero (l : list num) :
  Forall is_zero l -> is_zero (Rounded.reduce_sum O l).
Proof.
  intros H. unfold Rounded.reduce_sum. rewrite lit_0.
  apply fold_add_zero; [reflexivity | exact H].
Qed.

(** *** Bounded values *)

Lemma within_le (lo hi hi' : Q) (a : num) : within lo hi a -> hi <= hi' -> within lo hi' a.
Proof.
  intros (q & -> & Hq) H. exists q. split; [reflexivity | lra].
Qed.


Lemma rnd_within_representable (hi q : Q) :
  num_is (rnd hi) hi -> 0 <= q <= hi -> within 0 hi (rnd q).
Proof.
  intros (h & Hh & Hh') Hq.
  destruct (rnd_within 0 0 hi h q rnd_0 Hh Hq) as (y & -> & Hy).
  exists y. split; [reflexivity | lra].
Qed.

Lemma r_add_within (a b : num) (A B : Q) :
  within 0 A a -> within 0 B b -> num_is (rnd (A + B)) (A + B) ->
  within 0 (A + B) (r_add a b).
Proof.
  intros (x & -> & Hx) (y & -> & Hy) H. cbn [Rounded.r_add].
  apply rnd_within_representable; [exact H | lra].
Qed.


Lemma r_div_within (a : num) (G p : Q) :
  0 < p -> within 0 (p * G) a -> num_is (rnd G) G -> within 0 G (r_div a (Fin p)).
Proof.
  intros Hp (x & -> & Hx) H.
  assert (E : (p ?= 0) = Gt) by (apply (proj1 (Qgt_alt p 0)), Hp).
  cbn [Rounded.r_div]. rewrite E.
  apply rnd_within_representable; [exact H|]. split.
  - apply Qdiv_nonneg; lra.
  - apply Qle_shift_div_r; [exact Hp | lra].
Qed.

Lemma multiples_rnd (G : Q) (n k : nat) (q : Q) :
  multiples_representable R G n -> (k <= n)%nat ->
  q == inject_Z (Z.of_nat k) * G -> num_is (rnd q) q.
Proof.
  intros H Hk Hq. destruct (H k Hk) as (y & Hy & Hy').
  exists y. split; [rewrite (rnd_eq _ _ Hq); exact Hy | rewrite Hq; exact Hy'].
Qed.

Lemma inject_Z_S (k : nat) : inject_Z (Z.of_nat (S k)) == inject_Z (Z.of_nat k) + 1.
Proof.
  rewrite Nat2Z.inj_succ. unfold Z.succ. rewrite inject_Z_plus. reflexivity.
Qed.

Lemma fold_add_within (G : Q) (n : nat) (l : list num) :
  multiples_representable R G n -> Forall (within 0 G) l ->
  forall (j : nat) (acc : num),
    within 0 (inject_Z (Z.of_nat j) * G) acc -> (j + length l <= n)%nat ->
    within 0 (inject_Z (Z.of_nat (j + length l)) * G) (fold_left r_add l acc).
Proof.
  intros HG Hl. induction Hl as [| x l Hx _ IH]; intros j acc Ha Hj; simpl in *.
  - rewrite Nat.add_0_r. exact Ha.
  - replace (j + S (length l))%nat with (S j + length l)%nat by lia.
    apply IH; [|lia].
    assert (E : inject_Z (Z.of_nat j) * G + G == inject_Z (Z.of_nat (S j)) * G).
    { rewrite inject_Z_S. ring. }
    apply (within_le _ (inject_Z (Z.of_nat j) * G + G)); [|rewrite E; lra].
    apply r_add_within; [exact Ha | exact Hx|].
    apply (multiples_rnd G n (S j)); [exact HG | lia | exact E].
Qed.

(** The mean of [period] values between 0 and [G]. *)
Lemma mean_within (G : Q) (period : nat) (l : list num) :
  (1 <= period)%nat -> (Z.of_nat period <= 2 ^ 53)%Z ->
  multiples_representable R G period ->
  Forall (within 0 G) l -> length l = period ->
  within 0 G (Rounded.op_div O (Rounded.reduce_sum O l) (Rounded.count O period)).
Proof.
  intros Hp Hp' HG Hl Hlen. rewrite (count_Fin _ Hp').
  cbn [Rounded.op_div Rounded.on_num].
  apply r_div_within; [apply of_nat_pos, Hp | |].
  - unfold Rounded.reduce_sum. rewrite lit_0. rewrite <- Hlen at 1.
    apply (fold_add_within G period l HG Hl 0%nat); [|simpl; lia].
    exists 0. split; [reflexivity|]. change (inject_Z (Z.of_nat 0)) with 0. lra.
  - apply (multiples_rnd G period 1); [exact HG | lia | change (inject_Z (Z.of_nat 1)) with 1; ring].
Qed.



(** *** The value pushed for one pair of averages *)



Lemma rsi_point_unfold (g l : num) :
  Rounded.rsi_point O g l
  = if eqb l (Fin 0) then Fin 100
    else r_sub (Fin 100) (r_div (Fin 100) (r_add (Fin 1) (r_div g l))).
Proof.
  unfold Rounded.rsi_point. rewrite lit_0, lit_1, lit_100. reflexivity.
Qed.



Lemma rsi_point_no_loss_rounded (g l : num) :
  is_zero l -> Rounded.rsi_point O g l = Fin 100.
Proof.
  intros H. rewrite rsi_point_unfold. unfold is_zero in H. now rewrite H.
Qed.

(** *** One step of Wilder's smoothing *)

Lemma smooth_step_unfold (avg x : num) (period : nat) :
  (1 <= period)%nat -> (Z.of_nat period <= 2 ^ 53)%Z ->
  Rounded.op_div O
    (Rounded.op_add O
       (Rounded.op_mul O avg (Rounded.op_sub O (Rounded.count O period) (Rounded.op_lit O 1)))
       x)
    (Rounded.count O period)
  = r_div (r_add (r_mul avg (Fin (inject_Z (Z.of_nat period - 1)))) x)
          (Fin (inject_Z (Z.of_nat period))).
Proof.
  intros H1 H2. rewrite (count_pred _ H1 H2), (count_Fin _ H2). reflexivity.
Qed.



Lemma smooth_step_zero (avg x : num) (period : nat) :
  (1 <= period)%nat -> is_zero avg -> is_zero x ->
  is_zero (r_div (r_add (r_mul avg (Fin (inject_Z (Z.of_nat period - 1)))) x)
                 (Fin (inject_Z (Z.of_nat period)))).
Proof.
  intros Hp Ha Hx.
  apply r_div_zero; [apply of_nat_pos, Hp|].
  apply r_add_zero; [|exact Hx]. apply r_mul_zero, Ha.
Qed.


(** *** The smoothing loop *)

Lemma changes_from_length_rounded (prev : num) (rest : list num) :
  length (Rounded.changes_from O prev rest) = length rest.
Proof.
  revert prev. induction rest as [| c rest IH]; intros prev; simpl; [reflexivity|].
  now rewrite IH.
Qed.






(** *** A series that never falls *)

Lemma rsi_smooth_all_100 (period : nat) (gains losses : list num) :
  (1 <= period)%nat -> (Z.of_nat period <= 2 ^ 53)%Z ->
  length gains = length losses -> Forall is_zero losses ->
  forall avgGain avgLoss,
    is_zero avgLoss ->
    Rounded.rsi_smooth O period avgGain avgLoss gains losses
    = repeat (Fin 100) (length losses).
Proof.
  intros Hp Hp'. revert losses.
  induction gains as [| g gains IH]; intros [| l losses] Hlen Hz avgGain avgLoss HZ;
    try discriminate; [reflexivity|].
  inversion Hz as [| ? ? Hz0 Hz']; subst.
  cbn [Rounded.rsi_smooth length repeat]. cbv zeta.
  rewrite !(smooth_step_unfold _ _ _ Hp Hp').
  pose proof (smooth_step_zero _ _ _ Hp HZ Hz0) as HZ'.
  rewrite (rsi_point_no_loss_rounded _ _ HZ'). f_equal.
  apply IH; [simpl in Hlen; congruence | exact Hz' | exact HZ'].
Qed.

Lemma changes_from_rising_rounded (prev : Q) (rest : list Q) :
  Sorted Qle (prev :: rest) ->
  Forall (fun c => lt c (Fin 0) = false)
         (Rounded.changes_from O (Fin prev) (map Fin rest)).
Proof.
  revert prev. induction rest as [| c rest IH]; intros prev H; simpl; constructor.
  - inversion H as [| ? ? _ Hhd]; subst. inversion Hhd; subst.
    cbn [Rounded.op_sub Rounded.on_num Rounded.r_sub].
    assert (H0 : 0 <= c - prev) by lra.
    destruct (rnd_nonneg _ H0) as [-> | (y & -> & Hy)]; [reflexivity|].
    destruct (lt (Fin y) (Fin 0)) eqn:E; [apply lt_Fin in E; lra | reflexivity].
  - apply IH. now inversion H.
Qed.

Lemma losses_of_rising_rounded (changes : list num) :
  Forall (fun c => lt c (Fin 0) = false) changes ->
  Forall is_zero (Rounded.losses_of O changes).
Proof.
  intros H. unfold Rounded.losses_of. apply Forall_map. eapply Forall_impl; [|exact H].
  intros c Hc. cbv beta. rewrite lit_0. cbn [Rounded.op_lt Rounded.on_num].
  rewrite Hc. reflexivity.
Qed.

(** X28: in rounded arithmetic too, when the closes never fall (a flat
    series included), every RSI value is 100. *)
Theorem calculateRSI_rounded_rising_is_100 (closes : list Q) (period : nat) :
  (1 <= period)%nat -> (Z.of_nat period <= 2 ^ 53)%Z ->
  (period + 1 <= length closes)%nat ->
  Sorted Qle closes ->
  Rounded.calculateRSI O (map Fin closes) period
  = Ok (repeat (Fin 100) (length closes - period)).
Proof.
  intros Hp Hp' Hlen Hs. unfold Rounded.calculateRSI. rewrite length_map.
  destruct (Nat.ltb_spec (length closes) (period + 1)) as [H | _]; [lia|].
  cbv zeta. set (changes := Rounded.changes_of O (map Fin closes)).
  assert (Hclen : length changes = (length closes - 1)%nat).
  { unfold changes. destruct closes as [| c rest]; simpl; [reflexivity|].
    rewrite Nat.sub_0_r, changes_from_length_rounded. apply length_map. }
  assert (Hz : Forall is_zero (Rounded.losses_of O changes)).
  { apply losses_of_rising_rounded. unfold changes.
    destruct closes as [| c rest]; [constructor|]. apply changes_from_rising_rounded, Hs. }
  assert (Hgl : length (Rounded.gains_of O changes) = length changes) by apply length_map.
  assert (Hll : length (Rounded.losses_of O changes) = length changes) by apply length_map.
  assert (HZ : is_zero (Rounded.op_div O
                          (Rounded.reduce_sum O (firstn period (Rounded.losses_of O changes)))
                          (Rounded.count O period))).
  { rewrite (count_Fin _ Hp'). cbn [Rounded.op_div Rounded.on_num].
    apply r_div_zero; [apply of_nat_pos, Hp|]. apply reduce_sum_zero, Forall_firstn, Hz. }
  rewrite (rsi_point_no_loss_rounded _ _ HZ).
  rewrite (rsi_smooth_all_100 period _ _ Hp Hp');
    [| rewrite !length_skipn; lia | apply Forall_skipn, Hz | exact HZ].
  rewrite length_skipn, Hll, Hclen.
  replace (length closes - period)%nat with (S (length closes - 1 - period)) by lia.
  reflexivity.
Qed.

(** *** Moving average of bounded prices *)

Lemma slice_window {A : Type} (P : A -> Prop) (k period : nat) (l : list A) :
  (k + period <= length l)%nat -> Forall P l ->
  length (slice k (k + period) l) = period /\ Forall P (slice k (k + period) l).
Proof.
  intros Hk Hl. unfold slice. split.
  - rewrite length_firstn, length_skipn. lia.
  - apply Forall_firstn, Forall_skipn, Hl.
Qed.

(** X29: in rounded arithmetic, the simple moving average of prices between
    0 and a bound [G] whose multiples up to [period * G] are representable
    (in binary64: a power of two, no overflow of a window sum) lies
    between 0 and [G] at every index. *)
Theorem calculateSMA_rounded_within (prices : list num) (period : nat) (G : Q) :
  (1 <= period)%nat -> (Z.of_nat period <= 2 ^ 53)%Z ->
  (period <= length prices)%nat ->
  multiples_representable R G period ->
  Forall (within 0 G) prices ->
  exists values,
    Rounded.calculateSMA O prices period = Ok values
    /\ length values = (length prices - period + 1)%nat
    /\ Forall (within 0 G) values.
Proof.
  intros Hp Hp' Hlen HG Hall. unfold Rounded.calculateSMA.
  destruct (Nat.ltb_spec (length prices) period) as [H | _]; [lia|].
  eexists. split; [reflexivity|]. split.
  - now rewrite length_map, length_seq.
  - apply Forall_map, Forall_forall. intros k Hk. apply in_seq in Hk.
    destruct (slice_window (within 0 G) k period prices) as [Hl Hw]; [lia | exact Hall|].
    apply mean_within; assumption.
Qed.

(** *** Bollinger bands *)

Local Abbreviation r_sqrt := (Rounded.r_sqrt R).
Local Abbreviation r_pow2 := (Rounded.r_pow2 R).

Lemma r_pow2_nonneg (a : num) : a <> NaN -> nonneg_or_PInf (r_pow2 a).
Proof.
  intros H. destruct a as [q | | |]; try contradiction; try (left; reflexivity).
  cbn [Rounded.r_pow2].
  destruct (Rounded.pow2_nonneg R HR q) as [-> | (s & -> & Hs)].
  - left. reflexivity.
  - right. exists s. split; [reflexivity | exact Hs].
Qed.

Lemma r_sub_Fin_not_NaN (x y : Q) : r_sub (Fin x) (Fin y) <> NaN.
Proof. apply (Rounded.rnd_not_NaN R HR). Qed.

Lemma r_sqrt_nonneg (a : num) : nonneg_or_PInf a -> nonneg_or_PInf (r_sqrt a).
Proof.
  intros [-> | (q & -> & Hq)]; [left; reflexivity|].
  cbn [Rounded.r_sqrt].
  assert (H : nonneg_or_PInf (Rounded.rnd_sqrt R q)).
  { destruct (Rounded.sqrt_nonneg R HR q Hq) as [-> | (s & -> & Hs)].
    - left. reflexivity.
    - right. exists s. split; [reflexivity | exact Hs]. }
  destruct (q ?= 0) eqn:E; [exact H | | exact H].
  apply Qlt_alt in E. lra.
Qed.

Lemma r_sqrt_zero (a : num) : is_zero a -> is_zero (r_sqrt a).
Proof.
  intros Ha. destruct (is_zero_inv _ Ha) as (q & -> & Hq).
  cbn [Rounded.r_sqrt]. destruct (Rounded.sqrt_zero R HR q Hq) as (s & -> & Hs).
  assert (E : (q ?= 0) = Eq) by (apply (proj1 (Qeq_alt q 0)), Hq).
  rewrite E. apply is_zero_Fin, Hs.
Qed.

Lemma r_mul_2_nonneg (d : num) : nonneg_or_PInf d -> nonneg_or_PInf (r_mul (Fin 2) d).
Proof.
  intros [-> | (s & -> & Hs)]; [left; reflexivity|].
  cbn [Rounded.r_mul]. apply rnd_nonneg. lra.
Qed.

Lemma r_mul_2_zero (d : num) : is_zero d -> is_zero (r_mul (Fin 2) d).
Proof.
  intros Hd. destruct (is_zero_inv _ Hd) as (s & -> & Hs).
  cbn [Rounded.r_mul]. rewrite rnd_zero by (rewrite Hs; ring). reflexivity.
Qed.

(** Adding a deviation to a representable mean does not go below the mean;
    subtracting it does not go above. *)
Lemma band_order (m : Q) (d : num) :
  rnd m = Fin m -> nonneg_or_PInf d ->
  le (r_sub (Fin m) d) (Fin m) = true /\ le (Fin m) (r_add (Fin m) d) = true.
Proof.
  intros Hm [-> | (s & -> & Hs)]; [split; reflexivity|].
  cbn [Rounded.r_sub Rounded.r_add]. split.
  - assert (H : m - s <= m) by lra.
    destruct (rnd_below m m _ Hm H) as [-> | (y & -> & Hy)];
      [reflexivity | apply le_Fin, Hy].
  - assert (H : m <= m + s) by lra.
    destruct (rnd_above m m _ Hm H) as [-> | (y & -> & Hy)];
      [reflexivity | apply le_Fin, Hy].
Qed.

Lemma band_collapse (m : Q) (d : num) :
  rnd m = Fin m -> is_zero d ->
  eqb (r_sub (Fin m) d) (Fin m) = true /\ eqb (Fin m) (r_add (Fin m) d) = true.
Proof.
  intros Hm Hd. destruct (is_zero_inv _ Hd) as (s & -> & Hs).
  cbn [Rounded.r_sub Rounded.r_add].
  rewrite (rnd_eq (m - s) m) by (rewrite Hs; ring).
  rewrite (rnd_eq (m + s) m) by (rewrite Hs; ring).
  rewrite Hm. split; apply eqb_Fin; reflexivity.
Qed.

(** A finite quotient by a count is a rounded value, hence representable. *)
Lemma r_div_representable (a : num) (p m : Q) :
  0 < p -> r_div a (Fin p) = Fin m -> rnd m = Fin m.
Proof.
  intros Hp. assert (E : (p ?= 0) = Gt) by (apply (proj1 (Qgt_alt p 0)), Hp).
  destruct a as [x | | |]; cbn [Rounded.r_div JsNum.div]; rewrite ?E; try discriminate.
  apply rnd_fixed.
Qed.

Lemma bb_variance_unfold (prices : list num) (period : nat) (mean : num) (i : nat) :
  (Z.of_nat period <= 2 ^ 53)%Z ->
  Rounded.bb_variance O prices period mean i
  = r_div (Rounded.reduce_sum O
             (map (fun p => r_pow2 (r_sub p mean)) (slice i (i + period) prices)))
          (Fin (inject_Z (Z.of_nat period))).
Proof.
  intros Hp'. unfold Rounded.bb_variance. cbv zeta. rewrite (count_Fin _ Hp'). reflexivity.
Qed.

Lemma bb_variance_nonneg (prices : list Q) (period : nat) (m : Q) (i : nat) :
  (1 <= period)%nat -> (Z.of_nat period <= 2 ^ 53)%Z ->
  nonneg_or_PInf (Rounded.bb_variance O (map Fin prices) period (Fin m) i).
Proof.
  intros Hp Hp'. rewrite (bb_variance_unfold _ _ _ _ Hp').
  apply r_div_nonneg; [apply of_nat_pos, Hp|].
  apply reduce_sum_nonneg_or_PInf.
  unfold slice. rewrite skipn_map, firstn_map, map_map.
  apply Forall_map, Forall_forall. intros q _. cbv beta.
  apply r_pow2_nonneg, r_sub_Fin_not_NaN.
Qed.

(** C6 (as the code has it, in rounded arithmetic): for finite prices with
    at least [period] elements and a period of at least 1,
    [calculateBollingerBands] with multiplier 2 returns three sequences of
    [length - period + 1] values; at every index whose middle value (the
    mean of the window) is finite, lower <= middle <= upper; the three are
    equal when the variance that the code computes is 0; that variance is
    the sum of the squared differences from the computed mean divided by
    [period], it is never negative, and the bands are the mean plus and
    minus twice its square root. *)
Theorem calculateBollingerBands_rounded_order (prices : list Q) (period : nat) :
  (1 <= period)%nat -> (Z.of_nat period <= 2 ^ 53)%Z ->
  (period <= length prices)%nat ->
  exists b,
    Rounded.calculateBollingerBands O (map Fin prices) period (Fin 2) = Ok b
    /\ length (Rounded.middle b) = (length prices - period + 1)%nat
    /\ length (Rounded.upper b) = length (Rounded.middle b)
    /\ length (Rounded.lower b) = length (Rounded.middle b)
    /\ forall i m, (i < length (Rounded.middle b))%nat ->
         nth i (Rounded.middle b) NaN = Fin m ->
         let lo := nth i (Rounded.lower b) NaN in
         let up := nth i (Rounded.upper b) NaN in
         let variance :=
           r_div (Rounded.reduce_sum O
                    (map (fun p => r_pow2 (r_sub p (Fin m)))
                         (slice i (i + period) (map Fin prices))))
                 (Fin (inject_Z (Z.of_nat period))) in
         le lo (Fin m) = true /\ le (Fin m) up = true
         /\ (is_zero variance -> eqb lo (Fin m) = true /\ eqb (Fin m) up = true)
         /\ nonneg_or_PInf variance
         /\ up = r_add (Fin m) (r_mul (Fin 2) (r_sqrt variance))
         /\ lo = r_sub (Fin m) (r_mul (Fin 2) (r_sqrt variance)).
Proof.
  intros Hp Hp' Hlen. unfold Rounded.calculateBollingerBands, Rounded.calculateSMA.
  rewrite length_map.
  destruct (Nat.ltb_spec (length prices) period) as [H | _]; [lia|].
  cbn [bind].
  set (n := (length prices - period + 1)%nat).
  set (mids := map (fun k => Rounded.op_div O
                       (Rounded.reduce_sum O (slice k (k + period) (map Fin prices)))
                       (Rounded.count O period)) (seq 0 n)).
  assert (Hmid : length mids = n) by (unfold mids; now rewrite length_map, length_seq).
  eexists. split; [reflexivity|]. cbn [Rounded.upper Rounded.middle Rounded.lower].
  rewrite !length_map, length_seq, Hmid.
  split; [reflexivity|]. split; [reflexivity|]. split; [reflexivity|].
  intros i m Hi Hm. cbv zeta.
  rewrite !map_map.
  rewrite (nth_map_seq
             (fun x => fst (Rounded.bb_band O (map Fin prices) period (Fin 2) mids x))
             n i NaN Hi).
  rewrite (nth_map_seq
             (fun x => snd (Rounded.bb_band O (map Fin prices) period (Fin 2) mids x))
             n i NaN Hi).
  unfold Rounded.bb_band. cbv zeta. cbn [fst snd Rounded.op_undefined Rounded.on_num].
  rewrite Hm, (bb_variance_unfold _ _ _ _ Hp').
  pose proof (bb_variance_nonneg prices period m i Hp Hp') as Hv.
  rewrite (bb_variance_unfold _ _ _ _ Hp') in Hv.
  set (variance := r_div _ _) in *.
  assert (Hrep : rnd m = Fin m).
  { unfold mids in Hm. rewrite (nth_map_seq _ n i NaN Hi) in Hm.
    rewrite (count_Fin _ Hp') in Hm.
    apply (r_div_representable _ _ _ (of_nat_pos _ Hp) Hm). }
  pose proof (r_mul_2_nonneg _ (r_sqrt_nonneg _ Hv)) as Hd.
  destruct (band_order m _ Hrep Hd) as [Hlo Hup].
  split; [exact Hlo|]. split; [exact Hup|].
  split; [|split; [exact Hv | split; reflexivity]].
  intros Hz. apply band_collapse; [exact Hrep|].
  apply r_mul_2_zero, r_sqrt_zero, Hz.
Qed.

End RoundedArithmetic.

(** *** The theorems at binary64 rounding, and the code run on primitive floats *)


Lemma calculateRSI_rounded_rising_is_100_witness :
  Rounded.calculateRSI (Rounded.on_num Binary64.rounding)
    (map Fin [1 # 10; 1 # 10; 3 # 10; 4215037 # 100; 4215037 # 100]) 2
  = Ok [Fin 100; Fin 100; Fin 100].
Proof.
  apply (calculateRSI_rounded_rising_is_100 Binary64.rounding binary64_lawful
           [1 # 10; 1 # 10; 3 # 10; 4215037 # 100; 4215037 # 100] 2).
  - lia.
  - vm_compute. discriminate.
  - simpl. lia.
  - repeat constructor; vm_compute; discriminate.
Defined.

Lemma calculateSMA_rounded_within_witness :
  exists values,
    Rounded.calculateSMA (Rounded.on_num Binary64.rounding)
      (map Fin [4215037 # 100; 4221050 # 100; 4218512 # 100; 4230290 # 100]) 3
    = Ok values
    /\ length values = 2%nat
    /\ Forall (within 0 65536) values.
Proof.
  apply (calculateSMA_rounded_within Binary64.rounding binary64_lawful
           (map Fin [4215037 # 100; 4221050 # 100; 4218512 # 100; 4230290 # 100]) 3 65536).
  - lia.
  - vm_compute. discriminate.
  - simpl. lia.
  - intros k Hk. destruct k as [| [| [| [| k]]]]; [| | | | lia];
      eexists; (split; [vm_compute; reflexivity | reflexivity]).
  - repeat constructor; eexists; (split; [reflexivity|]); split; discriminate.
Defined.


(** In binary64 a later value can be exactly 100 after a loss: the series
    2, 1, 2, 3, .., 55 falls once, and its value at index 53 is 100. *)
Example calculateRSI_binary64_rounds_to_100 :
  match Rounded.calculateRSI Rounded.binary64
          (map Rounded.float_of_Z (2 :: 1 :: map Z.of_nat (seq 2 54)))%Z 2 with
  | Ok values => nth 53 values nan = 100%float
  | Throw _ => False
  end.
Proof. vm_compute. reflexivity. Qed.

Lemma calculateBollingerBands_rounded_order_witness :
  exists b,
    Rounded.calculateBollingerBands (Rounded.on_num Binary64.rounding)
      (map Fin [1; 3; 3; 3]) 2 (Fin 2)
    = Ok b
    /\ Rounded.lower b = [Fin 0; Fin 3; Fin 3]
    /\ Rounded.middle b = [Fin 2; Fin 3; Fin 3]
    /\ Rounded.upper b = [Fin 4; Fin 3; Fin 3].
Proof.
  destruct (calculateBollingerBands_rounded_order Binary64.rounding binary64_lawful
              [1; 3; 3; 3] 2)
    as (b & Hb & _).
  - lia.
  - vm_compute. discriminate.
  - simpl. lia.
  - exists b. split; [exact Hb|].
    vm_compute in Hb. injection Hb as <-. repeat split.
Defined.

(** C6 as stated fails on the code, run in binary64: twenty closes of 0.1
    have zero variance, but their computed mean is 0.10000000000000002, the
    computed variance is not 0, and the three bands differ. *)
Lemma calculateBollingerBands_binary64_flat_window_spreads :
  tenth = 0.1%float
  /\ Rounded.calculateBollingerBands Rounded.binary64 flat_tenth 20 2%float
     = Ok {| Rounded.upper := [0.10000000000000005%float];
             Rounded.middle := [0.10000000000000002%float];
             Rounded.lower := [0.09999999999999999%float] |}
  /\ Rounded.bb_variance Rounded.binary64 flat_tenth 20 0.10000000000000002%float 0
     = 1.9259299443872359e-34%float
  /\ PrimFloat.ltb 0.09999999999999999%float 0.10000000000000002%float = true
  /\ PrimFloat.ltb 0.10000000000000002%float 0.10000000000000005%float = true.
Proof.
  repeat split; vm_compute; reflexivity.
Qed.

(** *** The rounded operations at binary64 rounding and the primitive floats

    On the sample operands (decimal fractions, a small power of two, an
    integer above 2^53, numbers near the largest and the smallest, a
    subnormal, the infinities and NaN) the four operations and the square
    root give the same numbers in both. *)

Example binary64_operations_agree :
  forallb (fun p =>
             operations_agree PrimFloat.add (Rounded.r_add Binary64.rounding) (fst p) (snd p)
             && operations_agree PrimFloat.sub (Rounded.r_sub Binary64.rounding) (fst p) (snd p)
             && operations_agree PrimFloat.mul (Rounded.r_mul Binary64.rounding) (fst p) (snd p)
             && operations_agree PrimFloat.div (Rounded.r_div Binary64.rounding) (fst p) (snd p))
          (all_pairs sample_floats)
  = true.
Proof. vm_compute. reflexivity. Qed.

Example binary64_sqrt_agrees :
  forallb (fun a => same_value (PrimFloat.sqrt a)
                      (Rounded.r_sqrt Binary64.rounding (Binary64.num_of_float a)))
          sample_floats
  = true.
Proof. vm_compute. reflexivity. Qed.

(** On the sample closes, on twenty closes of 0.1 and on the inputs that overflow
    or round to 100, the indicator functions give the same numbers over the
    primitive floats and over the rounded operations at binary64 rounding. *)
Example binary64_runs_agree :
  let O := Rounded.on_num Binary64.rounding in
  let values := map Binary64.num_of_float in
  runs_agree (Rounded.calculateRSI Rounded.binary64 sample_closes 14)
             (Rounded.calculateRSI O (values sample_closes) 14)
  && runs_agree (Rounded.calculateSMA Rounded.binary64 sample_closes 20)
                (Rounded.calculateSMA O (values sample_closes) 20)
  && bands_agree (Rounded.calculateBollingerBands Rounded.binary64 sample_closes 20 2%float)
                 (Rounded.calculateBollingerBands O (values sample_closes) 20 (Fin 2))
  && bands_agree (Rounded.calculateBollingerBands Rounded.binary64 flat_tenth 20 2%float)
                 (Rounded.calculateBollingerBands O (values flat_tenth) 20 (Fin 2))
  && runs_agree (Rounded.calculateRSI Rounded.binary64 [0x1p-60; 0; 1]%float 2)
                (Rounded.calculateRSI O (values [0x1p-60; 0; 1]%float) 2)
  && runs_agree (Rounded.calculateRSI Rounded.binary64 [0x1p1023; -0x1p1023; 0x1p1023]%float 2)
                (Rounded.calculateRSI O (values [0x1p1023; -0x1p1023; 0x1p1023]%float) 2)
  && runs_agree (Rounded.calculateRSI Rounded.binary64 [1e308; -1e308; -1.5e308]%float 1)
                (Rounded.calculateRSI O (values [1e308; -1e308; -1.5e308]%float) 1)
  = true.
Proof. vm_compute. reflexivity. Qed.

(** *** The exact embedding is the rounded one at the identity rounding *)

Lemma exact_count (n : nat) : Rounded.count (Rounded.on_num exact) n = of_nat n.
Proof.
  unfold Rounded.count, of_nat, of_Z. cbn [Rounded.op_lit Rounded.on_num Rounded.rnd exact].
  f_equal. apply Qcanon.Qred_identity, Z.gcd_1_r.
Qed.

Lemma exact_add (a b : num) : Rounded.r_add exact a b = (a + b)%num.
Proof. destruct a, b; reflexivity. Qed.

Lemma exact_sub (a b : num) : Rounded.r_sub exact a b = (a - b)%num.
Proof. destruct a, b; reflexivity. Qed.

Lemma exact_mul (a b : num) : Rounded.r_mul exact a b = (a * b)%num.
Proof. destruct a, b; reflexivity. Qed.

Lemma exact_div (a b : num) : Rounded.r_div exact a b = (a / b)%num.
Proof.
  destruct a as [x | | |], b as [y | | |]; try reflexivity.
  cbn [Rounded.r_div div]. destruct (y ?= 0); reflexivity.
Qed.

Lemma exact_count_pred (period : nat) :
  Rounded.op_sub (Rounded.on_num exact) (Rounded.count (Rounded.on_num exact) period)
    (Rounded.op_lit (Rounded.on_num exact) 1)
  = of_Z (Z.of_nat period - 1).
Proof.
  rewrite exact_count. unfold of_nat, of_Z.
  cbn [Rounded.op_sub Rounded.op_lit Rounded.on_num Rounded.r_sub Rounded.rnd exact].
  f_equal. rewrite <- (Qcanon.Qred_identity (inject_Z (Z.of_nat period - 1)))
    by apply Z.gcd_1_r.
  apply Qred_complete. unfold Z.sub. rewrite inject_Z_plus, inject_Z_opp.
  rewrite Qred_correct. reflexivity.
Qed.

Lemma exact_reduce_sum (l : list num) :
  Rounded.reduce_sum (Rounded.on_num exact) l = reduce_sum l.
Proof.
  unfold Rounded.reduce_sum, reduce_sum.
  change (Rounded.op_lit (Rounded.on_num exact) 0) with (Fin 0).
  generalize (Fin 0). induction l as [| x l IH]; intros acc; simpl; [reflexivity|].
  rewrite exact_add. apply IH.
Qed.

Lemma exact_rsi_point (g l : num) :
  Rounded.rsi_point (Rounded.on_num exact) g l = rsi_point g l.
Proof.
  unfold Rounded.rsi_point, rsi_point.
  change (Rounded.op_lit (Rounded.on_num exact) 0) with (Fin 0).
  change (Rounded.op_lit (Rounded.on_num exact) 1) with (Fin 1).
  change (Rounded.op_lit (Rounded.on_num exact) 100) with (Fin 100).
  cbn [Rounded.op_eq Rounded.op_sub Rounded.op_div Rounded.op_add Rounded.on_num].
  now rewrite exact_sub, !exact_div, exact_add.
Qed.

Lemma exact_rsi_smooth (period : nat) (gains losses : list num) (avgGain avgLoss : num) :
  Rounded.rsi_smooth (Rounded.on_num exact) period avgGain avgLoss gains losses
  = rsi_smooth period avgGain avgLoss gains losses.
Proof.
  revert losses avgGain avgLoss.
  induction gains as [| g gains IH]; intros [| l losses] avgGain avgLoss; try reflexivity.
  cbn [Rounded.rsi_smooth rsi_smooth]. cbv zeta.
  rewrite exact_count_pred, exact_count.
  cbn [Rounded.op_div Rounded.op_add Rounded.op_mul Rounded.on_num].
  rewrite !exact_div, !exact_add, !exact_mul, exact_rsi_point, IH. reflexivity.
Qed.

Lemma exact_changes_of (closes : list num) :
  Rounded.changes_of (Rounded.on_num exact) closes = changes_of closes.
Proof.
  destruct closes as [| c rest]; [reflexivity|]. simpl. revert c.
  induction rest as [| x rest IH]; intros c; simpl; [reflexivity|].
  now rewrite exact_sub, IH.
Qed.

(** On every input, the two embeddings of [calculateRSI] agree at exact
    arithmetic. *)
Lemma exact_calculateRSI (closes : list num) (period : nat) :
  Rounded.calculateRSI (Rounded.on_num exact) closes period = calculateRSI closes period.
Proof.
  unfold Rounded.calculateRSI, calculateRSI.
  destruct (length closes <? period + 1)%nat; [reflexivity|]. cbv zeta.
  rewrite exact_changes_of.
  assert (Eg : forall l, Rounded.gains_of (Rounded.on_num exact) l = gains_of l)
    by reflexivity.
  assert (El : forall l, Rounded.losses_of (Rounded.on_num exact) l = losses_of l)
    by reflexivity.
  rewrite Eg, El, exact_rsi_smooth, exact_rsi_point, !exact_reduce_sum, exact_count.
  cbn [Rounded.op_div Rounded.on_num]. now rewrite !exact_div.
Qed.

Lemma exact_calculateSMA (prices : list num) (period : nat) :
  Rounded.calculateSMA (Rounded.on_num exact) prices period = calculateSMA prices period.
Proof.
  unfold Rounded.calculateSMA, calculateSMA.
  destruct (length prices <? period)%nat; [reflexivity|]. f_equal.
  apply map_ext. intros k. rewrite exact_reduce_sum, exact_count.
  cbn [Rounded.op_div Rounded.on_num]. apply exact_div.
Qed.

Lemma exact_sqrt (a : num) : Rounded.r_sqrt exact a = Math_sqrt qsqrt_floor a.
Proof. destruct a; reflexivity. Qed.

Lemma exact_pow2 (a : num) : Rounded.r_pow2 exact a = Math_pow2 a.
Proof. destruct a; reflexivity. Qed.

Lemma exact_bb_band (prices : list num) (period : nat) (stdDev : num)
    (mids : list num) (i : nat) :
  Rounded.bb_band (Rounded.on_num exact) prices period stdDev mids i
  = bb_band qsqrt_floor prices period stdDev mids i.
Proof.
  unfold Rounded.bb_band, bb_band, Rounded.bb_variance, bb_variance. cbv zeta.
  rewrite js_nth_of_nat, exact_reduce_sum, exact_count.
  cbn [Rounded.op_div Rounded.op_add Rounded.op_sub Rounded.op_mul Rounded.op_sqrt
       Rounded.op_pow2 Rounded.op_undefined Rounded.on_num].
  rewrite exact_add, exact_sub, !exact_mul, exact_sqrt, exact_div.
  rewrite (map_ext (fun p => Rounded.r_pow2 exact (Rounded.r_sub exact p (nth i mids NaN)))
             (fun p => Math_pow2 (p - nth i mids NaN)%num)); [reflexivity|].
  intros p. now rewrite exact_pow2, exact_sub.
Qed.

(** The two embeddings of [calculateBollingerBands] agree at exact
    arithmetic, with the square root used to run the code. *)
Lemma exact_calculateBollingerBands (prices : list num) (period : nat) (stdDev : num) :
  calculateBollingerBands qsqrt_floor prices period stdDev
  = match Rounded.calculateBollingerBands (Rounded.on_num exact) prices period stdDev with
    | Ok b => Ok {| upper := Rounded.upper b; middle := Rounded.middle b;
                    lower := Rounded.lower b |}
    | Throw e => Throw e
    end.
Proof.
  unfold Rounded.calculateBollingerBands, calculateBollingerBands.
  destruct (length prices <? period)%nat eqn:E; [reflexivity|].
  rewrite exact_calculateSMA. unfold calculateSMA. rewrite E. cbn [bind].
  cbn [Rounded.upper Rounded.middle Rounded.lower].
  rewrite (map_ext _ _ (exact_bb_band prices period stdDev _)). reflexivity.
Qed.

(** ** Retrieval loop *)

Lemma map_has_set {V : Type} (m : symbol_map V) (k : string) (v : V) (s : string) :
  map_has (map_set m k v) s = true <-> k = s \/ map_has m s = true.
Proof.
  unfold map_has. induction m as [| [k' v'] m IH]; simpl.
  - rewrite orb_false_r, String.eqb_eq. intuition congruence.
  - destruct (String.eqb_spec k' k) as [-> | Hne]; simpl.
    + rewrite orb_true_iff, String.eqb_eq. tauto.
    + rewrite !orb_true_iff, IH. tauto.
Qed.

Lemma batch_delays_app (t1 t2 : list event) :
  batch_delays (t1 ++ t2) = (batch_delays t1 + batch_delays t2)%nat.
Proof.
  unfold batch_delays. now rewrite filter_app, length_app.
Qed.

Lemma fetched_symbols_app (t1 t2 : list event) :
  fetched_symbols (t1 ++ t2) = fetched_symbols t1 ++ fetched_symbols t2.
Proof.
  unfold fetched_symbols. apply flat_map_app.
Qed.

(** What one symbol adds to the state. *)
Lemma fetch_one_spec (net : exchange) (observer : bool) (total : nat)
    (st : fetch_state) (symbol : string) :
  let st' := fetch_one net observer total st symbol in
  st'.(requests) = S st.(requests)
  /\ st'.(processed) = S st.(processed)
  /\ (exists t, st'.(trace) = st.(trace) ++ t
                /\ fetched_symbols t = [symbol] /\ batch_delays t = 0%nat)
  /\ (forall s, map_has st'.(results) s = true
                <-> map_has st.(results) s = true
                    \/ (symbol = s /\ exists k ks, net st.(requests) symbol = Some (k :: ks))).
Proof.
  unfold fetch_one, fetchKlines, delay, emit.
  destruct (net (requests st) symbol) as [[| k ks] |] eqn:E;
    destruct observer; cbn [requests processed trace results];
    (split; [reflexivity|]); (split; [reflexivity|]); split;
    try (rewrite <- !app_assoc; eexists; split; [reflexivity|];
         split; reflexivity);
    intros s; try rewrite map_has_set;
    split; try tauto;
    try (intros [H | [_ (k' & ks' & H)]]; [exact H | discriminate]).
  - intros [H | H]; [right; split; [exact H | eauto] | tauto].
  - intros [H | H]; [right; split; [exact H | eauto] | tauto].
Qed.

(** What a batch adds to the state: one request per symbol, in order. *)
Lemma fetch_batch_spec (net : exchange) (observer : bool) (total : nat)
    (batch : list string) (st : fetch_state) :
  let st' := fold_left (fetch_one net observer total) batch st in
  st'.(requests) = (st.(requests) + length batch)%nat
  /\ st'.(processed) = (st.(processed) + length batch)%nat
  /\ (exists t, st'.(trace) = st.(trace) ++ t
                /\ fetched_symbols t = batch /\ batch_delays t = 0%nat)
  /\ (forall s, map_has st'.(results) s = true
                <-> map_has st.(results) s = true
                    \/ exists j k ks, nth_error batch j = Some s
                                      /\ net (st.(requests) + j)%nat s = Some (k :: ks)).
Proof.
  revert st. induction batch as [| symbol batch IH]; intros st; cbn [fold_left].
  - cbv zeta. cbn [length]. rewrite !Nat.add_0_r.
    split; [reflexivity|]. split; [reflexivity|]. split.
    + exists []. rewrite app_nil_r. repeat split.
    + intros s. split; [tauto|]. intros [H | (j & k & ks & H & _)]; [exact H|].
      destruct j; discriminate.
  - destruct (fetch_one_spec net observer total st symbol) as (R1 & P1 & (t1 & T1 & F1 & D1) & M1).
    cbv zeta in *.
    destruct (IH (fetch_one net observer total st symbol)) as (R2 & P2 & (t2 & T2 & F2 & D2) & M2).
    cbv zeta in *. cbn [length].
    split; [lia|]. split; [lia|]. split.
    + exists (t1 ++ t2). rewrite T2, T1, <- app_assoc. split; [reflexivity|].
      rewrite fetched_symbols_app, batch_delays_app, F1, F2, D1, D2. split; reflexivity.
    + intros s. rewrite M2, M1, R1. split.
      * intros [[H | [H (k & ks & Hk)]] | (j & k & ks & Hj & Hk)].
        -- tauto.
        -- right. exists 0%nat, k, ks. rewrite Nat.add_0_r. subst. split; [reflexivity | exact Hk].
        -- right. exists (S j), k, ks. split; [exact Hj|].
           replace (requests st + S j)%nat with (S (requests st) + j)%nat by lia. exact Hk.
      * intros [H | (j & k & ks & Hj & Hk)]; [tauto|].
        destruct j as [| j].
        -- left. right. cbn in Hj. injection Hj as <-. rewrite Nat.add_0_r in Hk. eauto.
        -- right. exists j, k, ks. split; [exact Hj|].
           replace (S (requests st) + j)%nat with (requests st + S j)%nat by lia. exact Hk.
Qed.

Lemma ceil_div_one (n b : nat) : (0 < n <= b)%nat -> ceil_div n b = 1%Z.
Proof.
  intros H. unfold ceil_div. symmetry.
  apply (Z.div_unique _ _ 1 (Z.of_nat n - 1)); lia.
Qed.

Lemma ceil_div_step (n b : nat) :
  (1 <= b)%nat -> (b < n)%nat -> ceil_div n b = (1 + ceil_div (n - b) b)%Z.
Proof.
  intros Hb H. unfold ceil_div.
  replace (Z.of_nat n + Z.of_nat b - 1)%Z
    with (Z.of_nat (n - b) + Z.of_nat b - 1 + 1 * Z.of_nat b)%Z by lia.
  rewrite Z.div_add by lia. lia.
Qed.

Lemma batch_loop_done (fuel batchSize : nat) (net : exchange) (observer : bool)
    (symbols : list string) (i : nat) (st : fetch_state) :
  (length symbols <= i)%nat ->
  batch_loop fuel batchSize net observer symbols i st = Some st.
Proof.
  intros H. destruct fuel; simpl;
    destruct (Nat.ltb_spec i (length symbols)); try lia; reflexivity.
Qed.

(** The loop from index [i]: it ends, it requests every remaining symbol in
    order, and it pauses between batches only. *)
Lemma batch_loop_spec (batchSize : nat) (net : exchange) (observer : bool)
    (symbols : list string) :
  (1 <= batchSize)%nat ->
  forall fuel i st,
    (i < length symbols)%nat -> (length symbols - i <= fuel)%nat ->
    exists st',
      batch_loop fuel batchSize net observer symbols i st = Some st'
      /\ st'.(requests) = (st.(requests) + (length symbols - i))%nat
      /\ st'.(processed) = (st.(processed) + (length symbols - i))%nat
      /\ (exists t, st'.(trace) = st.(trace) ++ t
                    /\ fetched_symbols t = skipn i symbols
                    /\ Z.of_nat (batch_delays t)
                       = (ceil_div (length symbols - i) batchSize - 1)%Z)
      /\ (forall s, map_has st'.(results) s = true
                    <-> map_has st.(results) s = true
                        \/ exists j k ks,
                             nth_error (skipn i symbols) j = Some s
                             /\ net (st.(requests) + j)%nat s = Some (k :: ks)).
Proof.
  intros HB. induction fuel as [| fuel IH]; intros i st Hi Hfuel; [lia|].
  cbn [batch_loop].
  destruct (Nat.ltb_spec i (length symbols)) as [_ | H]; [|lia].
  set (batch := slice i (Nat.min (i + batchSize) (length symbols)) symbols).
  destruct (fetch_batch_spec net observer (length symbols) batch st)
    as (R1 & P1 & (t1 & T1 & F1 & D1) & M1).
  cbv zeta in R1, P1, T1, M1.
  set (st1 := fold_left (fetch_one net observer (length symbols)) batch st) in *.
  destruct (Nat.ltb_spec (i + batchSize) (length symbols)) as [Hmore | Hlast].
  - (* a further batch follows *)
    assert (Hbatch : batch = firstn batchSize (skipn i symbols)).
    { unfold batch, slice. f_equal. lia. }
    assert (Hlenb : length batch = batchSize).
    { rewrite Hbatch, length_firstn, length_skipn. lia. }
    assert (Hsplit : skipn i symbols = batch ++ skipn (i + batchSize) symbols).
    { rewrite Hbatch, (Nat.add_comm i batchSize), <- skipn_skipn.
      symmetry. apply firstn_skipn. }
    destruct (IH (i + batchSize)%nat (delay BATCH_DELAY st1) Hmore)
      as (st' & E & R2 & P2 & (t2 & T2 & F2 & D2) & M2); [lia|].
    cbn [delay emit requests processed trace results] in R2, P2, T2, M2.
    exists st'. split; [exact E|]. split; [lia|]. split; [lia|]. split.
    + exists (t1 ++ [EvDelay BATCH_DELAY] ++ t2).
      rewrite T2, T1, <- !app_assoc. split; [reflexivity|].
      rewrite !fetched_symbols_app, !batch_delays_app, F1, F2, D1. split.
      * rewrite Hsplit. reflexivity.
      * rewrite (ceil_div_step (length symbols - i) batchSize) by lia.
        replace (length symbols - i - batchSize)%nat
          with (length symbols - (i + batchSize))%nat by lia.
        change (batch_delays [EvDelay BATCH_DELAY]) with 1%nat. lia.
    + intros s. rewrite M2, M1, R1, Hsplit, Hlenb. split.
      * intros [[H | (j & k & ks & Hj & Hk)] | (j & k & ks & Hj & Hk)].
        -- tauto.
        -- right. exists j, k, ks. split; [|exact Hk].
           rewrite nth_error_app1; [exact Hj|]. apply nth_error_Some. congruence.
        -- right. exists (batchSize + j)%nat, k, ks. split.
           ++ rewrite nth_error_app2 by lia.
              replace (batchSize + j - length batch)%nat with j by lia. exact Hj.
           ++ rewrite Nat.add_assoc. exact Hk.
      * intros [H | (j & k & ks & Hj & Hk)]; [tauto|].
        destruct (Nat.lt_ge_cases j batchSize) as [Hlt | Hge].
        -- left. right. exists j, k, ks. split; [|exact Hk].
           rewrite nth_error_app1 in Hj by lia. exact Hj.
        -- right. exists (j - batchSize)%nat, k, ks. split.
           ++ rewrite nth_error_app2 in Hj by lia. rewrite Hlenb in Hj. exact Hj.
           ++ replace (requests st + batchSize + (j - batchSize))%nat
                with (requests st + j)%nat by lia. exact Hk.
  - (* the final batch *)
    assert (Hbatch : batch = skipn i symbols).
    { unfold batch, slice. apply firstn_all2. rewrite length_skipn. lia. }
    assert (Hlenb : length batch = (length symbols - i)%nat).
    { rewrite Hbatch, length_skipn. reflexivity. }
    rewrite batch_loop_done by lia.
    exists st1. split; [reflexivity|]. split; [lia|]. split; [lia|]. split.
    + exists t1. split; [exact T1|]. split; [congruence|].
      rewrite D1, ceil_div_one by lia. reflexivity.
    + intros s. rewrite M1, Hbatch. reflexivity.
Qed.

(** C8: for a batch size of at least 1 and a non-empty list of symbols, the
    run ends (given fuel for one iteration per symbol), it issues
    ceil(N/B) - 1 inter-batch delays, it requests every symbol, in order,
    whatever the exchange answers, and the returned map holds exactly the
    symbols for which some request was answered with a non-empty series. *)
Theorem fetchKlinesBatch_delays_and_isolation (batchSize fuel : nat) (net : exchange)
    (symbols : list string) (observer : bool) :
  (1 <= batchSize)%nat -> symbols <> [] -> (length symbols <= fuel)%nat ->
  exists st,
    fetchKlinesBatch_with fuel batchSize net symbols observer = Some st
    /\ Z.of_nat (batch_delays st.(trace))
       = (ceil_div (length symbols) batchSize - 1)%Z
    /\ fetched_symbols st.(trace) = symbols
    /\ (forall s, map_has st.(results) s = true
                  <-> exists j k ks, nth_error symbols j = Some s
                                     /\ net j s = Some (k :: ks)).
Proof.
  intros HB Hne Hfuel. unfold fetchKlinesBatch_with.
  assert (Hpos : (0 < length symbols)%nat).
  { destruct symbols; [congruence | simpl; lia]. }
  destruct (batch_loop_spec batchSize net observer symbols HB fuel 0 fetch_start Hpos)
    as (st & E & _ & _ & (t & T & F & D) & M); [lia|].
  cbn [fetch_start requests trace results] in T, M.
  rewrite Nat.sub_0_r in D. cbn [skipn] in F, M.
  exists st. split; [exact E|]. rewrite T. cbn [app].
  split; [exact D|]. split; [exact F|].
  intros s. rewrite M. cbn [map_has existsb Nat.add]. split.
  - intros [H | H]; [discriminate | exact H].
  - intros H. right. exact H.
Qed.

Lemma fetchKlinesBatch_delays_and_isolation_witness :
  exists st,
    fetchKlinesBatch_with 3 2 net_without_B ["A"; "B"; "C"]%string true = Some st
    /\ batch_delays st.(trace) = 1%nat
    /\ fetched_symbols st.(trace) = ["A"; "B"; "C"]%string
    /\ map fst st.(results) = ["A"; "C"]%string.
Proof.
  destruct (fetchKlinesBatch_delays_and_isolation 2 3 net_without_B
              ["A"; "B"; "C"]%string true)
    as (st & E & D & F & _); [lia | discriminate | simpl; lia |].
  exists st. split; [exact E|].
  split; [|split; [exact F|]].
  - change (ceil_div (length ["A"; "B"; "C"]%string) 2 - 1)%Z with 1%Z in D. lia.
  - vm_compute in E. injection E as <-. reflexivity.
Defined.

(** The exported function, with its batch size of 20. *)
Corollary fetchKlinesBatch_completes (net : exchange) (symbols : list string)
    (observer : bool) :
  symbols <> [] ->
  exists st,
    fetchKlinesBatch (length symbols) net symbols observer = Some st
    /\ Z.of_nat (batch_delays st.(trace)) = (ceil_div (length symbols) 20 - 1)%Z
    /\ fetched_symbols st.(trace) = symbols.
Proof.
  intros Hne. unfold fetchKlinesBatch, fetchKlinesBatch_with.
  assert (Hpos : (0 < length symbols)%nat).
  { destruct symbols; [congruence | simpl; lia]. }
  destruct (batch_loop_spec BATCH_SIZE net observer symbols) with
    (fuel := length symbols) (i := 0%nat) (st := fetch_start)
    as (st & E & _ & _ & (t & T & F & D) & _);
    [unfold BATCH_SIZE; lia | exact Hpos | lia |].
  rewrite Nat.sub_0_r in D.
  exists st. split; [exact E|]. rewrite T. split; [exact D | exact F].
Qed.

Lemma fetchKlinesBatch_empty (fuel : nat) (net : exchange) (observer : bool) :
  fetchKlinesBatch fuel net [] observer = Some fetch_start.
Proof. destruct fuel; reflexivity. Qed.

(** A batch size of 0 never advances: no fuel is enough. *)
Lemma batch_size_0_runs_forever (fuel : nat) (net : exchange)
    (symbols : list string) (observer : bool) (i : nat) (st : fetch_state) :
  (i < length symbols)%nat ->
  batch_loop fuel 0 net observer symbols i st = None.
Proof.
  intros Hi. revert st. induction fuel as [| fuel IH]; intros st; cbn [batch_loop];
    destruct (Nat.ltb_spec i (length symbols)); try lia; [reflexivity|].
  rewrite Nat.add_0_r. apply IH.
Qed.

(** ** Screening pipeline *)

Lemma insert_by_score_length (a : scan_result) (l : list scan_result) :
  length (insert_by_score a l) = S (length l).
Proof.
  induction l as [| b l IH]; simpl; [reflexivity|].
  destruct (gt (sr_score b - sr_score a)%num (Fin 0)); simpl; [now rewrite IH | reflexivity].
Qed.

Lemma sort_by_score_length (l : list scan_result) :
  length (sort_by_score l) = length l.
Proof.
  induction l as [| a l IH]; simpl; [reflexivity|].
  now rewrite insert_by_score_length, IH.
Qed.

Lemma analyze_one_result (qsqrt : Q -> Q) (f : filters)
    (results : list scan_result) (scanned : nat) (entry : string * list kline) :
  analyze_one qsqrt f (results, scanned) entry
  = (results ++ match result_of qsqrt f entry with Some r => [r] | None => [] end,
     S scanned).
Proof.
  destruct entry as [symbol klines]. unfold analyze_one, result_of, reaches_analysis.
  cbn [fst snd parseKlines closes highs lows].
  destruct (length klines <? 100)%nat; cbn [negb]; [now rewrite app_nil_r|].
  destruct (getLatestIndicators qsqrt (map k_close klines) (map k_high klines)
              (map k_low klines)) as [ind | e]; [|now rewrite app_nil_r].
  destruct (matchesFilters ind (Some f)); [reflexivity | now rewrite app_nil_r].
Qed.

Lemma analyze_fold (qsqrt : Q -> Q) (f : filters) (klinesMap : symbol_map (list kline))
    (results : list scan_result) (scanned : nat) :
  fold_left (analyze_one qsqrt f) klinesMap (results, scanned)
  = (results ++ matching qsqrt f klinesMap, (scanned + length klinesMap)%nat).
Proof.
  revert results scanned. induction klinesMap as [| entry m IH]; intros results scanned.
  - simpl. now rewrite app_nil_r, Nat.add_0_r.
  - cbn [fold_left]. rewrite analyze_one_result, IH.
    unfold matching. cbn [flat_map length]. rewrite <- app_assoc. f_equal. lia.
Qed.

(** A series that reaches the indicator computation has at least 100 closes,
    so the computation cannot fail. *)
Lemma reaches_analysis_computes (qsqrt : Q -> Q) (entry : string * list kline) :
  reaches_analysis entry = true ->
  exists ind, getLatestIndicators qsqrt (map k_close (snd entry))
                (map k_high (snd entry)) (map k_low (snd entry)) = Ok ind.
Proof.
  unfold reaches_analysis. intros H. apply negb_true_iff, Nat.ltb_ge in H.
  destruct (getLatestIndicators_cases qsqrt (map k_close (snd entry))
              (map k_high (snd entry)) (map k_low (snd entry)))
    as [[H' _] | [[H' _] | [[H' _] | (_ & ind & ->)]]];
    try (rewrite length_map in H'; lia).
  now exists ind.
Qed.

(** C3 (as the code has it): [totalScanned] is the number of series in the
    fetched map, whether or not they reach the indicator computation;
    [matchedCount] is the number of matching results before truncation; and
    the report holds the first [maxResults] of them when [maxResults] is
    positive, all of them otherwise. *)
Theorem analyze_counts (qsqrt : Q -> Q) (klinesMap : symbol_map (list kline))
    (f : filters) (itv : string) (maxResults : Z) :
  let report := analyze qsqrt klinesMap f itv maxResults in
  report.(totalScanned) = length klinesMap
  /\ report.(matchedCount) = length (matching qsqrt f klinesMap)
  /\ report.(report_results)
     = (if (maxResults >? 0)%Z
        then firstn (Z.to_nat maxResults) (sort_by_score (matching qsqrt f klinesMap))
        else sort_by_score (matching qsqrt f klinesMap))
  /\ length report.(report_results)
     = (if (maxResults >? 0)%Z
        then Nat.min (Z.to_nat maxResults) report.(matchedCount)
        else report.(matchedCount)).
Proof.
  unfold analyze. rewrite analyze_fold. cbn [app Nat.add]. cbv zeta.
  cbn [totalScanned matchedCount report_results].
  unfold slice. cbn [skipn]. rewrite Nat.sub_0_r, sort_by_score_length.
  split; [reflexivity|]. split; [reflexivity|]. split; [reflexivity|].
  destruct (maxResults >? 0)%Z; [|apply sort_by_score_length].
  now rewrite length_firstn, sort_by_score_length.
Qed.

(** C3 as stated fails on a series that is too short to be analysed: a map
    with one series of 99 candles is counted in [totalScanned], and no series
    reaches the indicator computation. *)
Lemma totalScanned_counts_short_series :
  totalScanned (analyze qsqrt_floor [("A"%string, repeat one_candle 99)]
                  (only_rsi_below (Fin 30)) "4h" 0) = 1%nat
  /\ length (filter reaches_analysis [("A"%string, repeat one_candle 99)]) = 0%nat.
Proof. split; vm_compute; reflexivity. Qed.

(** End to end: three symbols, the fetch of ["B"] fails; the run completes and
    [totalScanned] counts ["A"] and ["C"]. *)
Example scanSymbols_failed_fetch :
  option_map totalScanned
    (scanSymbols qsqrt_floor 3 net_without_B ["A"; "B"; "C"]%string
       (only_rsi_below (Fin 30)) "4h" 0) = Some 2%nat.
Proof. vm_compute. reflexivity. Qed.

(** The whole run ends, on any list of symbols and any exchange. *)
Lemma scanSymbols_completes (qsqrt : Q -> Q) (net : exchange) (symbols : list string)
    (f : filters) (itv : string) (maxResults : Z) :
  exists report,
    scanSymbols qsqrt (length symbols) net symbols f itv maxResults = Some report.
Proof.
  unfold scanSymbols. destruct symbols as [| s symbols].
  - rewrite fetchKlinesBatch_empty. eexists. reflexivity.
  - destruct (fetchKlinesBatch_completes net (s :: symbols) true) as (st & -> & _);
      [discriminate|].
    eexists. reflexivity.
Qed.

(** * Further properties *)

(** ** Cross detectors *)

Lemma gt_lt_exclusive (a b : num) : gt a b = true -> lt a b = false.
Proof.
  unfold gt, lt. destruct (compare a b) as [[| |] |]; congruence.
Qed.

(** X1: the same pair of moving averages never shows a golden cross and a
    death cross at once, whatever the numbers are. *)
Theorem golden_death_exclusive (maFast maSlow : list num) :
  isGoldenCross maFast maSlow && isDeathCross maFast maSlow = false.
Proof.
  unfold isGoldenCross, isDeathCross.
  destruct ((length maFast <? 2)%nat || (length maSlow <? 2)%nat); [reflexivity|].
  cbv zeta.
  destruct (gt (last_of maFast) (last_of maSlow)) eqn:E.
  - rewrite (gt_lt_exclusive _ _ E). now rewrite !andb_false_r.
  - now rewrite andb_false_r.
Qed.

(** X2: a histogram never shows a bullish and a bearish MACD cross at once. *)
Theorem macd_bullish_bearish_exclusive (histogram : list num) :
  isMACDBullishCross histogram && isMACDBearishCross histogram = false.
Proof.
  unfold isMACDBullishCross, isMACDBearishCross.
  destruct (length histogram <? 2)%nat; [reflexivity|]. cbv zeta.
  destruct (gt (last_of histogram) (Fin 0)) eqn:E.
  - rewrite (gt_lt_exclusive _ _ E). now rewrite !andb_false_r.
  - now rewrite andb_false_r.
Qed.

(** ** RSI of monotone series *)

Lemma rsi_point_no_loss (g l : num) : is_zero l -> rsi_point g l = Fin 100.
Proof.
  intros H. unfold rsi_point. unfold is_zero in H. now rewrite H.
Qed.

Lemma rsi_smooth_no_loss (period : nat) (gains losses : list num) :
  (1 <= period)%nat ->
  Forall finite_nonneg gains -> Forall finite_nonneg losses -> Forall is_zero losses ->
  length gains = length losses ->
  forall avgGain avgLoss,
    finite_nonneg avgGain -> finite_nonneg avgLoss -> is_zero avgLoss ->
    rsi_smooth period avgGain avgLoss gains losses = repeat (Fin 100) (length losses).
Proof.
  intros Hp Hg. revert losses.
  induction Hg as [| g gains Hg0 Hg IH]; intros losses Hl Hz Hlen avgGain avgLoss HG HL HZ.
  - destruct losses; [reflexivity | discriminate].
  - destruct Hl as [| l losses Hl0 Hl]; [discriminate|]. inversion Hz as [| ? ? Hz0 Hz']; subst.
    cbn [rsi_smooth length repeat]. cbv zeta.
    destruct (smooth_step_nonneg _ _ _ Hp HG Hg0) as [HG' _].
    destruct (smooth_step_nonneg _ _ _ Hp HL Hl0) as [HL' HZ']. cbv zeta in HG', HL', HZ'.
    assert (Hzero : is_zero ((avgLoss * of_Z (Z.of_nat period - 1) + l) / of_nat period)%num).
    { apply HZ'. tauto. }
    rewrite (rsi_point_no_loss _ _ Hzero). f_equal.
    apply IH; try assumption. simpl in Hlen. congruence.
Qed.

(** The changes of a series that never falls are non-negative; those of a
    series that always falls are negative. *)
Lemma changes_from_rising (prev : Q) (rest : list Q) :
  Sorted Qle (prev :: rest) ->
  Forall (fun c => exists q, c = Fin q /\ 0 <= q) (changes_from (Fin prev) (map Fin rest)).
Proof.
  revert prev. induction rest as [| c rest IH]; intros prev H; simpl; constructor.
  - inversion H as [| ? ? _ Hhd]; subst. inversion Hhd; subst.
    eexists. split; [reflexivity|]. rewrite Qred_correct. lra.
  - apply IH. now inversion H.
Qed.

Lemma losses_of_rising (changes : list num) :
  Forall (fun c => exists q, c = Fin q /\ 0 <= q) changes ->
  Forall is_zero (losses_of changes).
Proof.
  intros H. unfold losses_of. apply Forall_map. eapply Forall_impl; [|exact H].
  intros c (q & -> & Hq). cbv beta.
  destruct (lt (Fin q) (Fin 0)) eqn:E; [apply lt_Fin in E; lra|].
  apply is_zero_Fin. reflexivity.
Qed.

Lemma changes_of_rising (closes : list Q) :
  Sorted Qle closes ->
  Forall (fun c => exists q, c = Fin q /\ 0 <= q) (changes_of (map Fin closes)).
Proof.
  destruct closes as [| c rest]; simpl; [constructor | apply changes_from_rising].
Qed.

(** X5: when the closes never fall (a flat series included), every RSI
    value is 100. *)
Theorem calculateRSI_rising_is_100 (closes : list Q) (period : nat) :
  (1 <= period)%nat -> (period + 1 <= length closes)%nat ->
  Sorted Qle closes ->
  calculateRSI (map Fin closes) period
  = Ok (repeat (Fin 100) (length closes - period)).
Proof.
  intros Hp Hlen Hs. unfold calculateRSI. rewrite length_map.
  destruct (Nat.ltb_spec (length closes) (period + 1)) as [H | _]; [lia|].
  set (changes := changes_of (map Fin closes)).
  assert (Hc : Forall finite changes) by apply changes_of_finite.
  assert (Hclen : length changes = (length closes - 1)%nat).
  { unfold changes. rewrite changes_of_length, length_map. reflexivity. }
  pose proof (gains_of_nonneg _ Hc) as Hg. pose proof (losses_of_nonneg _ Hc) as Hl.
  pose proof (losses_of_rising _ (changes_of_rising closes Hs)) as Hz. fold changes in Hz.
  assert (Hgl : length (gains_of changes) = length changes) by apply length_map.
  assert (Hll : length (losses_of changes) = length changes) by apply length_map.
  destruct (reduce_sum_nonneg _ (Forall_firstn _ period _ Hg)) as [HG0 _].
  destruct (reduce_sum_nonneg _ (Forall_firstn _ period _ Hl)) as [HL0 HZ0].
  destruct (mean_nonneg _ _ Hp HG0) as [HG _].
  destruct (mean_nonneg _ _ Hp HL0) as [HL HZ].
  assert (Hzero : is_zero (reduce_sum (firstn period (losses_of changes)) / of_nat period)%num).
  { apply HZ, HZ0, Forall_firstn, Hz. }
  rewrite (rsi_point_no_loss _ _ Hzero).
  rewrite (rsi_smooth_no_loss period); try assumption;
    try (apply Forall_skipn; assumption); [|rewrite !length_skipn; lia].
  rewrite length_skipn, Hll, Hclen.
  replace (length closes - period)%nat with (S (length closes - 1 - period)) by lia.
  reflexivity.
Qed.

Lemma calculateRSI_rising_is_100_witness :
  calculateRSI (map Fin [5; 5; 6; 6; 9]) 2 = Ok [Fin 100; Fin 100; Fin 100].
Proof.
  apply (calculateRSI_rising_is_100 [5; 5; 6; 6; 9] 2).
  - lia.
  - simpl. lia.
  - repeat constructor; simpl; lra.
Defined.

(** ** MACD: alignment of the three lines *)

Lemma js_nth_shift (l : list num) (i k : nat) :
  js_nth l (Z.of_nat i + Z.of_nat k) = nth (i + k) l NaN.
Proof.
  rewrite <- Nat2Z.inj_add. apply js_nth_of_nat.
Qed.

(** X7: with [fast <= slow], a signal period of at least 1 and at least
    [slow + signal] closes, [calculateMACD] returns; its MACD line has
    [length - slow + 1] values, each the fast EMA minus the slow EMA of the
    same candle (the fast EMA is [slow - fast] values ahead); its signal line
    is the EMA of the MACD line; and the histogram has as many values as the
    signal line, each the MACD line minus the signal line of the same candle
    (the MACD line is [signal - 1] values ahead). *)
Theorem calculateMACD_alignment (closes : list num) (fast slow signal : nat) :
  (fast <= slow)%nat -> (1 <= signal)%nat -> (slow + signal <= length closes)%nat ->
  exists m fastEMA slowEMA,
    calculateMACD closes fast slow signal = Ok m
    /\ calculateEMA closes fast = Ok fastEMA
    /\ calculateEMA closes slow = Ok slowEMA
    /\ calculateEMA m.(macdLine) signal = Ok m.(signalLine)
    /\ length m.(macdLine) = (length closes - slow + 1)%nat
    /\ length m.(signalLine) = (length closes - slow - signal + 2)%nat
    /\ length m.(histogram) = length m.(signalLine)
    /\ (forall i, (i < length m.(macdLine))%nat ->
          nth i m.(macdLine) NaN
          = (nth (i + (slow - fast)) fastEMA NaN - nth i slowEMA NaN)%num)
    /\ (forall i, (i < length m.(histogram))%nat ->
          nth i m.(histogram) NaN
          = (nth (i + (signal - 1)) m.(macdLine) NaN - nth i m.(signalLine) NaN)%num).
Proof.
  intros Hfs Hsig Hlen. unfold calculateMACD.
  destruct (Nat.ltb_spec (length closes) (slow + signal)) as [H | _]; [lia|].
  assert (Hf : (fast <= length closes)%nat) by lia.
  assert (Hs : (slow <= length closes)%nat) by lia.
  destruct (calculateEMA_length closes fast _ (calculateEMA_ok closes fast Hf)) as [Lf _].
  destruct (calculateEMA_length closes slow _ (calculateEMA_ok closes slow Hs)) as [Ls _].
  rewrite (calculateEMA_ok closes fast Hf), (calculateEMA_ok closes slow Hs). cbn [bind].
  match type of Lf with length ?l = _ => set (fastEMA := l) in * end.
  match type of Ls with length ?l = _ => set (slowEMA := l) in * end.
  set (macd_line := map _ (seq 0 (length slowEMA))).
  assert (Hm : length macd_line = (length closes - slow + 1)%nat).
  { unfold macd_line. now rewrite length_map, length_seq. }
  assert (Hsm : (signal <= length macd_line)%nat) by lia.
  destruct (calculateEMA_length macd_line signal _ (calculateEMA_ok macd_line signal Hsm))
    as [Lsig _].
  rewrite (calculateEMA_ok macd_line signal Hsm). cbn [bind].
  match type of Lsig with length ?l = _ => set (signal_line := l) in * end.
  exists {| macdLine := macd_line; signalLine := signal_line;
            histogram :=
              map (fun i => (js_nth macd_line
                               (Z.of_nat i + (Z.of_nat (length macd_line)
                                              - Z.of_nat (length signal_line)))
                             - js_nth signal_line (Z.of_nat i))%num)
                  (seq 0 (length signal_line)) |}, fastEMA, slowEMA.
  cbn [macdLine signalLine histogram].
  split; [reflexivity|].
  split; [reflexivity|]. split; [reflexivity|].
  split; [exact (calculateEMA_ok macd_line signal Hsm)|].
  split; [exact Hm|]. split; [lia|].
  split; [now rewrite length_map, length_seq|]. split.
  - intros i Hi. unfold macd_line. rewrite Hm, <- Ls in Hi.
    rewrite (nth_map_seq _ (length slowEMA) i NaN Hi).
    replace (Z.of_nat slow - Z.of_nat fast)%Z with (Z.of_nat (slow - fast)) by lia.
    now rewrite js_nth_shift, js_nth_of_nat.
  - intros i Hi. rewrite length_map, length_seq in Hi.
    rewrite (nth_map_seq _ (length signal_line) i NaN Hi).
    replace (Z.of_nat (length macd_line) - Z.of_nat (length signal_line))%Z
      with (Z.of_nat (signal - 1)) by lia.
    now rewrite js_nth_shift, js_nth_of_nat.
Qed.

Lemma calculateMACD_alignment_witness :
  exists m fastEMA slowEMA,
    calculateMACD (map of_Z [1; 2; 4; 8; 16; 32]%Z) 2 3 2 = Ok m
    /\ calculateEMA (map of_Z [1; 2; 4; 8; 16; 32]%Z) 2 = Ok fastEMA
    /\ calculateEMA (map of_Z [1; 2; 4; 8; 16; 32]%Z) 3 = Ok slowEMA
    /\ length m.(macdLine) = 4%nat
    /\ length m.(signalLine) = 3%nat
    /\ length m.(histogram) = 3%nat.
Proof.
  destruct (calculateMACD_alignment (map of_Z [1; 2; 4; 8; 16; 32]%Z) 2 3 2)
    as (m & f & s & H1 & H2 & H3 & _ & H5 & H6 & H7 & _); [lia | lia | simpl; lia |].
  exists m, f, s. rewrite H7. repeat split; assumption.
Defined.

(** ** MACD with the periods swapped *)

Lemma sub_NaN_r (a : num) : (a - NaN)%num = NaN.
Proof. destruct a; reflexivity. Qed.

Lemma fold_add_NaN (l : list num) : fold_left add l NaN = NaN.
Proof. induction l as [| x l IH]; simpl; [reflexivity | exact IH]. Qed.

Lemma ema_loop_NaN (multiplier : num) (rest : list num) :
  ema_loop multiplier NaN rest = repeat NaN (length rest).
Proof.
  induction rest as [| p rest IH]; simpl; [reflexivity|].
  rewrite sub_NaN_r. cbn [mul add]. now rewrite IH.
Qed.

Lemma map_all_NaN {A : Type} (f : A -> num) (l : list A) :
  (forall x, In x l -> f x = NaN) -> map f l = repeat NaN (length l).
Proof.
  induction l as [| x l IH]; intros H; simpl; [reflexivity|].
  rewrite H by (left; reflexivity). f_equal. apply IH. intros y Hy. apply H. now right.
Qed.

(** X8: when the fast period is greater than the slow one (and the input is
    long enough for all three EMAs) nothing is thrown: the first MACD value
    reads the fast EMA at a negative index, and the whole signal line and
    the whole histogram are NaN. *)
Theorem calculateMACD_swapped_periods_NaN (closes : list num) (fast slow signal : nat) :
  (slow < fast)%nat -> (fast <= length closes)%nat ->
  (1 <= signal)%nat -> (slow + signal <= length closes)%nat ->
  exists m,
    calculateMACD closes fast slow signal = Ok m
    /\ hd_error m.(macdLine) = Some NaN
    /\ m.(signalLine) = repeat NaN (length closes - slow - signal + 2)
    /\ m.(histogram) = repeat NaN (length closes - slow - signal + 2).
Proof.
  intros Hfs Hf Hsig Hlen. unfold calculateMACD.
  destruct (Nat.ltb_spec (length closes) (slow + signal)) as [H | _]; [lia|].
  assert (Hs : (slow <= length closes)%nat) by lia.
  rewrite (calculateEMA_ok closes fast Hf), (calculateEMA_ok closes slow Hs). cbn [bind].
  cbn [length seq map].
  assert (E0 : js_nth
                 ((reduce_sum (slice 0 fast closes) / of_nat fast)%num
                  :: ema_loop (Fin 2 / (of_nat fast + Fin 1))%num
                       (reduce_sum (slice 0 fast closes) / of_nat fast)%num
                       (skipn fast closes))
                 (Z.of_nat 0 + (Z.of_nat slow - Z.of_nat fast)) = NaN).
  { unfold js_nth. destruct (Z.ltb_spec (Z.of_nat 0 + (Z.of_nat slow - Z.of_nat fast)) 0);
      [reflexivity | lia]. }
  rewrite E0. cbn [sub].
  match goal with
  | |- context [calculateEMA (NaN :: ?rest) signal] => set (tail := rest)
  end.
  assert (Htail : length tail = (length closes - slow)%nat).
  { unfold tail. rewrite length_map, length_seq, ema_loop_length, length_skipn. reflexivity. }
  assert (Hsm : (signal <= length (NaN :: tail))%nat) by (cbn [length]; lia).
  rewrite (calculateEMA_ok (NaN :: tail) signal Hsm). cbn [bind].
  assert (Eseed : (reduce_sum (slice 0 signal (NaN :: tail)) / of_nat signal)%num = NaN).
  { destruct signal as [| s]; [lia|]. unfold slice, reduce_sum.
    rewrite Nat.sub_0_r. cbn [skipn firstn fold_left add].
    now rewrite fold_add_NaN. }
  rewrite Eseed, ema_loop_NaN.
  change (NaN :: repeat NaN (length (skipn signal (NaN :: tail))))
    with (repeat NaN (S (length (skipn signal (NaN :: tail))))).
  assert (En : S (length (skipn signal (NaN :: tail)))
               = (length closes - slow - signal + 2)%nat).
  { rewrite length_skipn. cbn [length]. lia. }
  rewrite En. eexists. cbn [macdLine signalLine histogram hd_error].
  split; [reflexivity|]. split; [reflexivity|]. split; [reflexivity|].
  rewrite map_all_NaN.
  - now rewrite length_seq, repeat_length.
  - intros i Hi. apply in_seq in Hi. rewrite repeat_length in Hi.
    rewrite (js_nth_of_nat (repeat NaN _) i), nth_repeat. apply sub_NaN_r.
Qed.

Lemma calculateMACD_swapped_periods_NaN_witness :
  exists m,
    calculateMACD (map of_Z [1; 2; 4; 8; 16; 32]%Z) 3 2 2 = Ok m
    /\ m.(signalLine) = [NaN; NaN; NaN; NaN]
    /\ m.(histogram) = [NaN; NaN; NaN; NaN].
Proof.
  destruct (calculateMACD_swapped_periods_NaN (map of_Z [1; 2; 4; 8; 16; 32]%Z) 3 2 2)
    as (m & H1 & _ & H3 & H4); [lia | simpl; lia | lia | simpl; lia |].
  exists m. split; [exact H1|]. split; assumption.
Defined.

(** ** The snapshot of a finite series *)

Lemma last_nth_length {A : Type} (l : list A) (d : A) :
  last l d = nth (length l - 1) l d.
Proof.
  induction l as [| a l IH]; [reflexivity|].
  destruct l as [| b l]; [reflexivity|].
  change (last (a :: b :: l) d) with (last (b :: l) d). rewrite IH.
  cbn [length].
  replace (S (S (length l)) - 1)%nat with (S (length l)) by lia.
  replace (S (length l) - 1)%nat with (length l) by lia. reflexivity.
Qed.

Lemma last_of_map_seq (f : nat -> num) (n : nat) :
  (1 <= n)%nat -> last_of (map f (seq 0 n)) = f (n - 1)%nat.
Proof.
  intros H. unfold last_of. rewrite last_nth_length, length_map, length_seq.
  apply nth_map_seq. lia.
Qed.

(** The latest histogram value is the latest MACD value minus the latest
    signal value, whatever the numbers. *)
Lemma calculateMACD_last (closes : list num) (fast slow signal : nat) :
  (fast <= length closes)%nat -> (1 <= signal)%nat ->
  (slow + signal <= length closes)%nat ->
  exists m,
    calculateMACD closes fast slow signal = Ok m
    /\ last_of m.(histogram) = (last_of m.(macdLine) - last_of m.(signalLine))%num.
Proof.
  intros Hf Hsig Hlen. unfold calculateMACD.
  destruct (Nat.ltb_spec (length closes) (slow + signal)) as [H | _]; [lia|].
  assert (Hs : (slow <= length closes)%nat) by lia.
  destruct (calculateEMA_length closes slow _ (calculateEMA_ok closes slow Hs)) as [Ls _].
  rewrite (calculateEMA_ok closes fast Hf), (calculateEMA_ok closes slow Hs). cbn [bind].
  match type of Ls with length ?l = _ => set (slowEMA := l) in * end.
  set (macd_line := map _ (seq 0 (length slowEMA))).
  assert (Hm : length macd_line = (length closes - slow + 1)%nat).
  { unfold macd_line. now rewrite length_map, length_seq. }
  assert (Hsm : (signal <= length macd_line)%nat) by lia.
  destruct (calculateEMA_length macd_line signal _ (calculateEMA_ok macd_line signal Hsm))
    as [Lsig _].
  rewrite (calculateEMA_ok macd_line signal Hsm). cbn [bind].
  match type of Lsig with length ?l = _ => set (signal_line := l) in * end.
  eexists. split; [reflexivity|]. cbn [macdLine signalLine histogram].
  replace (Z.of_nat (length macd_line) - Z.of_nat (length signal_line))%Z
    with (Z.of_nat (signal - 1)) by lia.
  rewrite (last_of_map_seq _ (length signal_line)) by lia.
  rewrite js_nth_shift, js_nth_of_nat. unfold last_of.
  rewrite !last_nth_length. f_equal. f_equal. lia.
Qed.

(** X9: in every snapshot that [getLatestIndicators] returns, whatever the
    numbers, the middle Bollinger band is the 20-period moving average, the
    price is the last close, and the MACD histogram is the MACD value minus
    the signal value. *)
Theorem getLatestIndicators_consistent (qsqrt : Q -> Q)
    (closes highs lows : list num) (ind : indicators) :
  getLatestIndicators qsqrt closes highs lows = Ok ind ->
  ind.(bollinger).(bb_middle) = ind.(ma20)
  /\ ind.(price) = last_of closes
  /\ ind.(macd).(macd_histogram)
     = (ind.(macd).(macd_value) - ind.(macd).(macd_signal))%num.
Proof.
  intros H.
  assert (H50 : (50 <= length closes)%nat).
  { destruct (getLatestIndicators_cases qsqrt closes highs lows)
      as [[_ E] | [[_ E] | [[_ E] | [H50 _]]]]; [congruence .. | exact H50]. }
  unfold getLatestIndicators in H.
  destruct (calculateRSI_cases closes 14) as [[Hr _] | (_ & values & Er)];
    [simpl in Hr; lia|].
  destruct (calculateMACD_last closes 12 26 9) as (m & Em & Hlast); try (simpl; lia).
  rewrite Er, Em in H. cbn [bind] in H.
  rewrite (calculateSMA_ok closes 20), (calculateSMA_ok closes 50) in H by lia.
  cbn [bind] in H. unfold calculateBollingerBands in H.
  destruct (Nat.ltb_spec (length closes) 20) as [H20 | _]; [lia|].
  rewrite (calculateSMA_ok closes 20) in H by lia. cbn [bind] in H.
  injection H as <-. cbn [bollinger bb_middle ma20 price macd macd_histogram
                           macd_value macd_signal middle].
  split; [reflexivity|]. split; [reflexivity | exact Hlast].
Qed.

Lemma getLatestIndicators_consistent_witness :
  exists ind,
    getLatestIndicators qsqrt_floor (map of_Z (map Z.of_nat (seq 1 50))) [] [] = Ok ind
    /\ ind.(bollinger).(bb_middle) = ind.(ma20)
    /\ ind.(price) = Fin 50.
Proof.
  destruct (getLatestIndicators qsqrt_floor (map of_Z (map Z.of_nat (seq 1 50))) [] [])
    as [ind | e] eqn:E; [|vm_compute in E; discriminate].
  exists ind. split; [reflexivity|].
  destruct (getLatestIndicators_consistent qsqrt_floor _ [] [] ind E) as (H1 & H2 & _).
  split; [exact H1|]. rewrite H2. vm_compute. reflexivity.
Defined.

(** ** Scorer and filter evaluator *)

(** X11: the score is never below the base of 50: it is a rational between
    50 and 100, for every snapshot. *)
Theorem calculateScore_at_least_50 (ind : indicators) :
  exists q, calculateScore ind = Fin q /\ 50 <= q <= 100.
Proof.
  unfold calculateScore.
  destruct (raw_score_above_50 ind) as [-> | (q & -> & Hq)].
  - exists 100. split; [reflexivity | lra].
  - assert (H0 : (0 ?= q) = Lt) by (apply (proj1 (Qlt_alt 0 q)); lra).
    unfold Math_max. cbn [compare]. rewrite H0.
    unfold Math_min. cbn [compare].
    destruct (100 ?= q) eqn:E.
    + exists 100. split; [reflexivity | lra].
    + exists 100. split; [reflexivity | lra].
    + apply Qgt_alt in E. exists q. split; [reflexivity | lra].
Qed.

(** The result is the conjunction of the five blocks. *)
Lemma matchesFilters_blocks (ind : indicators) (f : filters) :
  matchesFilters ind (Some f)
  = block rsi_block ind f.(f_rsi) && block macd_block ind f.(f_macd)
    && block ma_block ind f.(f_ma) && block bollinger_block ind f.(f_bollinger)
    && block price_block ind f.(f_price).
Proof.
  unfold matchesFilters, no_keys.
  destruct f as [[r |] [m |] [a |] [b |] [p |]]; cbn [f_rsi f_macd f_ma f_bollinger f_price
    is_defined negb andb block];
    repeat match goal with
           | |- context [rsi_block ?i ?x] => destruct (rsi_block i x)
           | |- context [macd_block ?i ?x] => destruct (macd_block i x)
           | |- context [ma_block ?i ?x] => destruct (ma_block i x)
           | |- context [bollinger_block ?i ?x] => destruct (bollinger_block i x)
           | |- context [price_block ?i ?x] => destruct (price_block i x)
           end; reflexivity.
Qed.

(** X12: the categories are independent and ANDed: a snapshot matches the
    criteria exactly when it matches the criteria of each category taken
    alone. *)
Theorem matchesFilters_by_category (ind : indicators) (f : filters) :
  matchesFilters ind (Some f)
  = matchesFilters ind (Some (keep_rsi f))
    && matchesFilters ind (Some (keep_macd f))
    && matchesFilters ind (Some (keep_ma f))
    && matchesFilters ind (Some (keep_bollinger f))
    && matchesFilters ind (Some (keep_price f)).
Proof.
  rewrite !matchesFilters_blocks.
  unfold keep_rsi, keep_macd, keep_ma, keep_bollinger, keep_price.
  cbn [f_rsi f_macd f_ma f_bollinger f_price block].
  rewrite !andb_true_r. reflexivity.
Qed.

(** X14: [ma.above] and [ma.below] are checked for the periods 20 and 50
    only: with any other period the criteria match every snapshot. *)
Theorem matchesFilters_ma_other_period (ind : indicators) (p p' : num) :
  eqb p (Fin 20) = false -> eqb p (Fin 50) = false ->
  eqb p' (Fin 20) = false -> eqb p' (Fin 50) = false ->
  matchesFilters ind (Some (only_ma_periods (Some p) (Some p'))) = true.
Proof.
  intros H1 H2 H3 H4. rewrite matchesFilters_blocks. unfold only_ma_periods.
  cbn [f_rsi f_macd f_ma f_bollinger f_price block andb].
  unfold ma_block. cbn [ma_goldenCross ma_deathCross ma_above ma_below truthy andb].
  rewrite H1, H2, H3, H4. reflexivity.
Qed.

Lemma matchesFilters_ma_other_period_witness :
  matchesFilters (snapshot_with_rsi (Fin 50))
    (Some (only_ma_periods (Some (Fin 100)) (Some (Fin 200)))) = true.
Proof.
  apply (matchesFilters_ma_other_period (snapshot_with_rsi (Fin 50)) (Fin 100) (Fin 200));
    reflexivity.
Defined.

(** X15: [rsi.between] is inclusive at both ends: for rational RSI and
    bounds, the criteria match exactly when min <= rsi <= max. *)
Theorem matchesFilters_rsi_between_inclusive (ind : indicators) (r lo hi : Q) :
  ind.(rsi) = Fin r ->
  (matchesFilters ind (Some (only_rsi_between (Fin lo) (Fin hi))) = true
   <-> lo <= r <= hi).
Proof.
  intros Hr. rewrite matchesFilters_blocks. unfold only_rsi_between.
  cbn [f_rsi f_macd f_ma f_bollinger f_price block andb].
  unfold rsi_block. cbn [rsi_below rsi_above rsi_between]. rewrite Hr.
  destruct (lt (Fin r) (Fin lo)) eqn:E1; [apply lt_Fin in E1|];
    [cbn [orb]; split; [discriminate | intros H; lra]|].
  destruct (gt (Fin r) (Fin hi)) eqn:E2; [apply gt_Fin in E2|];
    [cbn [orb]; split; [discriminate | intros H; lra]|].
  rewrite <- not_true_iff_false, lt_Fin in E1.
  rewrite <- not_true_iff_false, gt_Fin in E2.
  cbn [orb]. split; [intros _; lra | reflexivity].
Qed.

Lemma matchesFilters_rsi_between_inclusive_witness :
  matchesFilters (snapshot_with_rsi (Fin 40)) (Some (only_rsi_between (Fin 40) (Fin 60)))
  = true
  /\ matchesFilters (snapshot_with_rsi (Fin 60)) (Some (only_rsi_between (Fin 40) (Fin 60)))
     = true.
Proof.
  split.
  - apply (matchesFilters_rsi_between_inclusive (snapshot_with_rsi (Fin 40)) 40 40 60);
      [reflexivity | split; discriminate].
  - apply (matchesFilters_rsi_between_inclusive (snapshot_with_rsi (Fin 60)) 60 40 60);
      [reflexivity | split; discriminate].
Defined.

(** ** Retrieval: batching adds pauses and nothing else *)

Lemma without_batch_delays_app (t1 t2 : list event) :
  without_batch_delays (t1 ++ t2) = without_batch_delays t1 ++ without_batch_delays t2.
Proof. apply filter_app. Qed.

Lemma same_but_batch_delays_refl (st : fetch_state) : same_but_batch_delays st st.
Proof. repeat split. Qed.

Lemma same_but_batch_delays_delay (st1 st2 : fetch_state) :
  same_but_batch_delays st1 st2 ->
  same_but_batch_delays (delay BATCH_DELAY st1) st2.
Proof.
  intros (R & P & M & T). unfold delay, emit. repeat split; cbn; try assumption.
  rewrite without_batch_delays_app, T. cbn. now rewrite app_nil_r.
Qed.

Lemma fetch_one_same (net : exchange) (observer : bool) (total : nat)
    (st1 st2 : fetch_state) (symbol : string) :
  same_but_batch_delays st1 st2 ->
  same_but_batch_delays (fetch_one net observer total st1 symbol)
                        (fetch_one net observer total st2 symbol).
Proof.
  intros (R & P & M & T).
  unfold same_but_batch_delays, fetch_one, fetchKlines, delay, emit. rewrite R.
  destruct (net (requests st2) symbol) as [[| k ks] |]; destruct observer;
    cbn [requests processed results trace]; rewrite ?P, ?M;
    (split; [reflexivity|]); (split; [reflexivity|]); (split; [reflexivity|]);
    rewrite !without_batch_delays_app, T; reflexivity.
Qed.

Lemma fetch_batch_same (net : exchange) (observer : bool) (total : nat)
    (batch : list string) (st1 st2 : fetch_state) :
  same_but_batch_delays st1 st2 ->
  same_but_batch_delays (fold_left (fetch_one net observer total) batch st1)
                        (fold_left (fetch_one net observer total) batch st2).
Proof.
  revert st1 st2. induction batch as [| s batch IH]; intros st1 st2 H; cbn [fold_left].
  - exact H.
  - apply IH, fetch_one_same, H.
Qed.

Lemma batch_then_rest {A : Type} (l : list A) (i b : nat) :
  slice i (Nat.min (i + b) (length l)) l ++ skipn (i + b) l = skipn i l.
Proof.
  unfold slice. rewrite (Nat.add_comm i b), <- skipn_skipn.
  destruct (Nat.le_gt_cases b (length (skipn i l))) as [H | H].
  - rewrite length_skipn in H.
    replace (Nat.min (b + i) (length l) - i)%nat with b by lia.
    apply firstn_skipn.
  - rewrite (skipn_all2 (skipn i l)) by lia. rewrite app_nil_r.
    apply firstn_all2. rewrite length_skipn in *. lia.
Qed.

(** The batched loop ends in the state of the plain sequential loop, up to
    the inter-batch delays of its trace. *)
Lemma batch_loop_same (batchSize : nat) (net : exchange) (observer : bool)
    (symbols : list string) :
  (1 <= batchSize)%nat ->
  forall fuel i st1 st2,
    same_but_batch_delays st1 st2 -> (length symbols - i <= fuel)%nat ->
    exists st',
      batch_loop fuel batchSize net observer symbols i st1 = Some st'
      /\ same_but_batch_delays st'
           (fold_left (fetch_one net observer (length symbols)) (skipn i symbols) st2).
Proof.
  intros HB. induction fuel as [| fuel IH]; intros i st1 st2 HR Hfuel.
  - rewrite batch_loop_done by lia. exists st1. split; [reflexivity|].
    rewrite skipn_all2 by lia. exact HR.
  - destruct (Nat.le_gt_cases (length symbols) i) as [Hdone | Hi].
    { rewrite batch_loop_done by lia. exists st1. split; [reflexivity|].
      rewrite skipn_all2 by lia. exact HR. }
    cbn [batch_loop].
    destruct (Nat.ltb_spec i (length symbols)) as [_ | H]; [|lia].
    rewrite <- (batch_then_rest symbols i batchSize), fold_left_app.
    set (batch := slice i (Nat.min (i + batchSize) (length symbols)) symbols).
    pose proof (fetch_batch_same net observer (length symbols) batch st1 st2 HR) as HR1.
    apply IH; [|lia].
    destruct (i + batchSize <? length symbols)%nat;
      [apply same_but_batch_delays_delay|]; exact HR1.
Qed.

Lemma progress_events_app (t1 t2 : list event) :
  progress_events (t1 ++ t2) = progress_events t1 ++ progress_events t2.
Proof. apply flat_map_app. Qed.

Lemma total_delay_app (t1 t2 : list event) :
  total_delay (t1 ++ t2) = (total_delay t1 + total_delay t2)%nat.
Proof.
  induction t1 as [| e t1 IH]; [reflexivity|].
  simpl. destruct e; rewrite IH; lia.
Qed.

Lemma progress_events_without_batch_delays (t : list event) :
  progress_events (without_batch_delays t) = progress_events t.
Proof.
  induction t as [| e t IH]; [reflexivity|].
  unfold without_batch_delays, progress_events in *. cbn [filter].
  destruct e as [s | p n s | ms]; cbn [is_batch_delay negb flat_map app].
  - exact IH.
  - now rewrite IH.
  - destruct (ms =? BATCH_DELAY)%nat; cbn [negb flat_map app]; exact IH.
Qed.

Lemma total_delay_split (t : list event) :
  total_delay t
  = (total_delay (without_batch_delays t) + BATCH_DELAY * batch_delays t)%nat.
Proof.
  induction t as [| e t IH]; [reflexivity|].
  unfold without_batch_delays, batch_delays, total_delay in *.
  cbn [filter fold_right].
  destruct e as [s | p n s | ms]; cbn [is_batch_delay negb fold_right]; try exact IH.
  destruct (Nat.eqb_spec ms BATCH_DELAY) as [-> | Hne];
    cbn [negb length fold_right]; lia.
Qed.

(** The trace of one symbol. *)
Lemma fetch_one_trace (net : exchange) (observer : bool) (total : nat)
    (st : fetch_state) (symbol : string) :
  (fetch_one net observer total st symbol).(trace)
  = st.(trace) ++ [EvFetch symbol]
      ++ (if observer then [EvProgress (S st.(processed)) total symbol] else [])
      ++ [EvDelay REQUEST_DELAY]
  /\ (fetch_one net observer total st symbol).(processed) = S st.(processed).
Proof.
  unfold fetch_one, fetchKlines, delay, emit.
  destruct (net (requests st) symbol) as [[| k ks] |]; destruct observer;
    cbn [requests processed results trace]; rewrite <- ?app_assoc; split; reflexivity.
Qed.

(** The trace of the plain sequential loop. *)
Lemma fetch_all_trace (net : exchange) (observer : bool) (total : nat)
    (l : list string) (st : fetch_state) :
  let st' := fold_left (fetch_one net observer total) l st in
  progress_events st'.(trace)
  = progress_events st.(trace)
      ++ (if observer then progress_from st.(processed) total l else [])
  /\ total_delay st'.(trace) = (total_delay st.(trace) + REQUEST_DELAY * length l)%nat
  /\ st'.(processed) = (st.(processed) + length l)%nat.
Proof.
  revert st. induction l as [| s l IH]; intros st; cbn [fold_left]; cbv zeta.
  - cbn [length progress_from]. rewrite Nat.mul_0_r, !Nat.add_0_r.
    destruct observer; rewrite app_nil_r; repeat split.
  - destruct (IH (fetch_one net observer total st s)) as (H1 & H2 & H3). cbv zeta in *.
    destruct (fetch_one_trace net observer total st s) as [T P].
    rewrite H1, H2, H3, T, P. cbn [length progress_from].
    rewrite !progress_events_app, !total_delay_app.
    destruct observer; cbn; rewrite <- ?app_assoc; repeat split; cbn; try lia.
Qed.

(** X16: with an observer, the run calls it once per symbol, in the order of
    the list, with the counts 1, 2, ..., N and the total N, in batches of any
    size; without an observer it never calls it. *)
Theorem fetchKlinesBatch_progress (batchSize fuel : nat) (net : exchange)
    (symbols : list string) (observer : bool) :
  (1 <= batchSize)%nat -> (length symbols <= fuel)%nat ->
  exists st,
    fetchKlinesBatch_with fuel batchSize net symbols observer = Some st
    /\ st.(processed) = length symbols
    /\ progress_events st.(trace)
       = if observer then progress_from 0 (length symbols) symbols else [].
Proof.
  intros HB Hfuel. unfold fetchKlinesBatch_with.
  destruct (batch_loop_same batchSize net observer symbols HB fuel 0 fetch_start fetch_start
              (same_but_batch_delays_refl _)) as (st & E & (_ & P & _ & T)); [lia|].
  cbn [skipn] in P, T.
  destruct (fetch_all_trace net observer (length symbols) symbols fetch_start)
    as (H1 & _ & H3). cbv zeta in H1, H3.
  exists st. split; [exact E|]. split.
  - rewrite P, H3. reflexivity.
  - rewrite <- progress_events_without_batch_delays, T,
      progress_events_without_batch_delays, H1. reflexivity.
Qed.

Lemma fetchKlinesBatch_progress_witness :
  exists st,
    fetchKlinesBatch_with 3 2 net_without_B ["A"; "B"; "C"]%string true = Some st
    /\ progress_events st.(trace)
       = [(1, 3, "A"); (2, 3, "B"); (3, 3, "C")]%nat%string.
Proof.
  destruct (fetchKlinesBatch_progress 2 3 net_without_B ["A"; "B"; "C"]%string true)
    as (st & E & _ & P); [lia | simpl; lia |].
  exists st. split; [exact E | exact P].
Defined.

(** X17: the exported function, on N >= 1 symbols, spends
    100 N + 1000 (ceil(N/20) - 1) milliseconds in [delay]. *)
Theorem fetchKlinesBatch_total_delay (net : exchange) (symbols : list string)
    (observer : bool) :
  symbols <> [] ->
  exists st,
    fetchKlinesBatch (length symbols) net symbols observer = Some st
    /\ Z.of_nat (total_delay st.(trace))
       = (100 * Z.of_nat (length symbols)
          + 1000 * (ceil_div (length symbols) 20 - 1))%Z.
Proof.
  intros Hne. unfold fetchKlinesBatch, fetchKlinesBatch_with.
  assert (Hpos : (0 < length symbols)%nat).
  { destruct symbols; [congruence | simpl; lia]. }
  assert (HB : (1 <= BATCH_SIZE)%nat) by (unfold BATCH_SIZE; lia).
  destruct (batch_loop_spec BATCH_SIZE net observer symbols HB (length symbols) 0
              fetch_start Hpos) as (st & E & _ & _ & (t & T & _ & D) & _); [lia|].
  destruct (batch_loop_same BATCH_SIZE net observer symbols HB (length symbols) 0
              fetch_start fetch_start (same_but_batch_delays_refl _))
    as (st' & E' & (_ & _ & _ & T')); [lia|].
  rewrite E in E'. injection E' as <-.
  cbn [skipn] in T'. cbn [fetch_start trace app] in T. rewrite Nat.sub_0_r in D.
  destruct (fetch_all_trace net observer (length symbols) symbols fetch_start)
    as (_ & H2 & _). cbv zeta in H2. cbn [fetch_start trace total_delay fold_right] in H2.
  exists st. split; [exact E|].
  rewrite total_delay_split, T'.
  rewrite (total_delay_split (trace (fold_left _ symbols fetch_start))) in H2.
  destruct (fetch_batch_spec net observer (length symbols) symbols fetch_start)
    as (_ & _ & (t0 & T0 & _ & D0) & _). cbv zeta in T0.
  cbn [fetch_start trace app] in T0. rewrite T0, D0 in H2.
  rewrite T0, T. unfold BATCH_DELAY, REQUEST_DELAY, BATCH_SIZE in *. lia.
Qed.

Lemma fetchKlinesBatch_total_delay_witness :
  exists st,
    fetchKlinesBatch 3 net_without_B ["A"; "B"; "C"]%string false = Some st
    /\ total_delay st.(trace) = 300%nat.
Proof.
  destruct (fetchKlinesBatch_total_delay net_without_B ["A"; "B"; "C"]%string false)
    as (st & E & D); [discriminate|].
  exists st. split; [exact E|].
  change (ceil_div (length ["A"; "B"; "C"]%string) 20) with 1%Z in D.
  cbn [length] in D. lia.
Defined.

(** ** The returned map *)

Lemma map_has_In {V : Type} (m : symbol_map V) (k : string) :
  map_has m k = true <-> In k (map fst m).
Proof.
  unfold map_has. rewrite existsb_exists, in_map_iff. split.
  - intros (kv & Hin & E). apply String.eqb_eq in E. now exists kv.
  - intros (kv & E & Hin). exists kv. split; [exact Hin | now apply String.eqb_eq].
Qed.

Lemma map_set_keys {V : Type} (m : symbol_map V) (k : string) (v : V) :
  map fst (map_set m k v) = if map_has m k then map fst m else map fst m ++ [k].
Proof.
  unfold map_has. induction m as [| [k' v'] m IH]; [reflexivity|].
  cbn [map_set existsb fst]. destruct (String.eqb_spec k' k) as [-> | Hne].
  - reflexivity.
  - cbn [map fst orb]. rewrite IH. destruct (existsb _ m); reflexivity.
Qed.

Lemma map_set_values {V : Type} (P : V -> Prop) (m : symbol_map V) (k : string) (v : V) :
  P v -> Forall (fun kv => P (snd kv)) m -> Forall (fun kv => P (snd kv)) (map_set m k v).
Proof.
  intros Hv Hm. induction Hm as [| [k' v'] m H Hm IH]; cbn [map_set].
  - repeat constructor. exact Hv.
  - destruct (String.eqb k' k); constructor; assumption.
Qed.

Lemma map_set_NoDup {V : Type} (m : symbol_map V) (k : string) (v : V) :
  NoDup (map fst m) -> NoDup (map fst (map_set m k v)).
Proof.
  intros H. rewrite map_set_keys. destruct (map_has m k) eqn:E; [exact H|].
  apply NoDup_app; [exact H | repeat constructor; intros [] |].
  intros x Hx [<- | []]. apply map_has_In in Hx. congruence.
Qed.

(** What every symbol keeps true of the map. *)
Lemma fetch_one_map (net : exchange) (observer : bool) (total : nat)
    (st : fetch_state) (symbol : string) :
  NoDup (map fst st.(results)) ->
  Forall (fun kv => snd kv <> []) st.(results) ->
  let st' := fetch_one net observer total st symbol in
  NoDup (map fst st'.(results))
  /\ Forall (fun kv => snd kv <> []) st'.(results)
  /\ (length st'.(results) <= S (length st.(results)))%nat.
Proof.
  intros Hnd Hne. unfold fetch_one, fetchKlines, delay, emit.
  destruct (net (requests st) symbol) as [[| k ks] |]; destruct observer;
    cbn [requests processed results trace]; cbv zeta;
    try (split; [exact Hnd | split; [exact Hne | lia]]);
    (split; [apply map_set_NoDup, Hnd|]);
    (split; [apply (map_set_values (fun v => v <> [])); [discriminate | exact Hne]|]);
    rewrite <- !(length_map fst), map_set_keys;
    destruct (map_has (results st) symbol); rewrite ?length_app; simpl; lia.
Qed.

Lemma fetch_all_map (net : exchange) (observer : bool) (total : nat)
    (l : list string) (st : fetch_state) :
  NoDup (map fst st.(results)) ->
  Forall (fun kv => snd kv <> []) st.(results) ->
  let st' := fold_left (fetch_one net observer total) l st in
  NoDup (map fst st'.(results))
  /\ Forall (fun kv => snd kv <> []) st'.(results)
  /\ (length st'.(results) <= length st.(results) + length l)%nat.
Proof.
  revert st. induction l as [| s l IH]; intros st Hnd Hne; cbn [fold_left]; cbv zeta.
  - split; [exact Hnd|]. split; [exact Hne | lia].
  - destruct (fetch_one_map net observer total st s Hnd Hne) as (H1 & H2 & H3).
    cbv zeta in *.
    destruct (IH _ H1 H2) as (H4 & H5 & H6). cbv zeta in *.
    split; [exact H4|]. split; [exact H5|]. cbn [length]. lia.
Qed.

(** X18: the map returned holds every symbol at most once (also when the
    list repeats symbols), only symbols of the list, never an empty series,
    and at most as many entries as there are symbols. *)
Theorem fetchKlinesBatch_map_invariants (batchSize fuel : nat) (net : exchange)
    (symbols : list string) (observer : bool) :
  (1 <= batchSize)%nat -> (length symbols <= fuel)%nat ->
  exists st,
    fetchKlinesBatch_with fuel batchSize net symbols observer = Some st
    /\ NoDup (map fst st.(results))
    /\ (forall s, In s (map fst st.(results)) -> In s symbols)
    /\ Forall (fun kv => snd kv <> []) st.(results)
    /\ (length st.(results) <= length symbols)%nat.
Proof.
  intros HB Hfuel. unfold fetchKlinesBatch_with.
  destruct (batch_loop_same batchSize net observer symbols HB fuel 0 fetch_start fetch_start
              (same_but_batch_delays_refl _)) as (st & E & (_ & _ & M & _)); [lia|].
  cbn [skipn] in M.
  destruct (fetch_all_map net observer (length symbols) symbols fetch_start)
    as (H1 & H2 & H3); [constructor | constructor |]. cbv zeta in *.
  destruct (fetch_batch_spec net observer (length symbols) symbols fetch_start)
    as (_ & _ & _ & H4). cbv zeta in H4.
  exists st. split; [exact E|]. rewrite M.
  split; [exact H1|]. split; [|split; [exact H2 | exact H3]].
  intros s Hs. apply map_has_In, H4 in Hs.
  destruct Hs as [Hs | (j & k & ks & Hj & _)]; [discriminate|].
  eapply nth_error_In, Hj.
Qed.

Lemma fetchKlinesBatch_map_invariants_witness :
  exists st,
    fetchKlinesBatch_with 4 2 net_without_B ["A"; "B"; "A"; "C"]%string false = Some st
    /\ map fst st.(results) = ["A"; "C"]%string.
Proof.
  destruct (fetchKlinesBatch_map_invariants 2 4 net_without_B
              ["A"; "B"; "A"; "C"]%string false)
    as (st & E & _); [lia | simpl; lia |].
  exists st. split; [exact E|].
  vm_compute in E. injection E as <-. reflexivity.
Defined.

(** ** The report *)

Lemma insert_by_score_perm (a : scan_result) (l : list scan_result) :
  Permutation (insert_by_score a l) (a :: l).
Proof.
  induction l as [| b l IH]; simpl; [reflexivity|].
  destruct (gt (sr_score b - sr_score a)%num (Fin 0)); [|reflexivity].
  rewrite IH. apply perm_swap.
Qed.

Lemma sort_by_score_perm (l : list scan_result) : Permutation (sort_by_score l) l.
Proof.
  induction l as [| a l IH]; simpl; [reflexivity|].
  rewrite insert_by_score_perm. now constructor.
Qed.

Lemma score_ge_trans (a b c : scan_result) :
  score_in_range a -> score_in_range b -> score_in_range c ->
  score_ge a b -> score_ge b c -> score_ge a c.
Proof.
  unfold score_ge, score_in_range.
  intros (x & -> & _) (y & -> & _) (z & -> & _). rewrite !le_Fin. intros; lra.
Qed.

Lemma insert_by_score_sorted (a : scan_result) (l : list scan_result) :
  score_in_range a -> Forall score_in_range l ->
  StronglySorted score_ge l -> StronglySorted score_ge (insert_by_score a l).
Proof.
  intros Ha Hl Hs. induction Hs as [| b l Hs IH Hb]; simpl.
  - repeat constructor.
  - inversion Hl as [| ? ? Hb0 Hl']; subst.
    pose proof Ha as (x & Ex & _). pose proof Hb0 as (y & Ey & _).
    destruct (gt (sr_score b - sr_score a)%num (Fin 0)) eqn:E;
      rewrite Ex, Ey in E; cbn [sub] in E.
    + apply gt_Fin in E. rewrite Qred_correct in E.
      constructor; [apply IH, Hl'|].
      apply (Permutation_Forall (Permutation_sym (insert_by_score_perm a l))).
      constructor; [|exact Hb].
      unfold score_ge. rewrite Ex, Ey. apply le_Fin. lra.
    + rewrite <- not_true_iff_false, gt_Fin, Qred_correct in E.
      assert (Hab : score_ge a b).
      { unfold score_ge. rewrite Ex, Ey. apply le_Fin. lra. }
      constructor; [constructor; assumption|].
      constructor; [exact Hab|].
      rewrite Forall_forall in *. intros c Hc.
      apply (score_ge_trans a b c); auto.
Qed.

Lemma sort_by_score_sorted (l : list scan_result) :
  Forall score_in_range l -> StronglySorted score_ge (sort_by_score l).
Proof.
  induction 1 as [| a l Ha Hl IH]; simpl; [constructor|].
  apply insert_by_score_sorted; [exact Ha | | exact IH].
  apply (Permutation_Forall (Permutation_sym (sort_by_score_perm l))), Hl.
Qed.

Lemma StronglySorted_app {A : Type} (R : A -> A -> Prop) (l1 l2 : list A) :
  StronglySorted R (l1 ++ l2) ->
  StronglySorted R l1 /\ forall a b, In a l1 -> In b l2 -> R a b.
Proof.
  induction l1 as [| x l1 IH]; simpl; intros H.
  - split; [constructor | intros a b []].
  - inversion H as [| ? ? Hs Hx]; subst. destruct (IH Hs) as [IH1 IH2].
    rewrite Forall_app in Hx. destruct Hx as [Hx1 Hx2]. split.
    + constructor; assumption.
    + intros a b [<- | Ha] Hb; [|auto]. rewrite Forall_forall in Hx2. auto.
Qed.

Lemma matching_scores (qsqrt : Q -> Q) (f : filters) (klinesMap : symbol_map (list kline)) :
  Forall score_in_range (matching qsqrt f klinesMap).
Proof.
  unfold matching. apply Forall_flat_map, Forall_forall. intros entry _.
  unfold result_of. destruct (reaches_analysis entry); [|constructor].
  destruct (getLatestIndicators _ _ _ _) as [ind | e]; [|constructor].
  destruct (matchesFilters ind (Some f)); [|constructor].
  repeat constructor. unfold score_in_range. cbn [sr_score]. unfold calculateScore.
  apply clamp_above_50, raw_score_above_50.
Qed.

Lemma matching_short (qsqrt : Q -> Q) (f : filters) (klinesMap : symbol_map (list kline)) :
  Forall (fun entry => (length (snd entry) < 100)%nat) klinesMap ->
  matching qsqrt f klinesMap = [].
Proof.
  intros H. unfold matching. induction H as [| entry m He _ IH]; [reflexivity|].
  cbn [flat_map]. rewrite IH, app_nil_r. unfold result_of, reaches_analysis.
  destruct (Nat.ltb_spec (length (snd entry)) 100); [reflexivity | lia].
Qed.

(** X19: when every fetched series has fewer than 100 candles (as with a
    candle count below 100, which the command line accepts from 50 on), the
    report is empty whatever the criteria, while every series is counted
    in [totalScanned]. *)
Theorem analyze_short_series (qsqrt : Q -> Q) (klinesMap : symbol_map (list kline))
    (f : filters) (itv : string) (maxResults : Z) :
  Forall (fun entry => (length (snd entry) < 100)%nat) klinesMap ->
  let report := analyze qsqrt klinesMap f itv maxResults in
  report.(report_results) = []
  /\ report.(matchedCount) = 0%nat
  /\ report.(totalScanned) = length klinesMap.
Proof.
  intros H. unfold analyze. rewrite analyze_fold, (matching_short qsqrt f klinesMap H).
  cbn [app Nat.add sort_by_score fold_right]. cbv zeta.
  cbn [report_results matchedCount totalScanned length].
  split; [|split; reflexivity].
  destruct (maxResults >? 0)%Z; [|reflexivity].
  unfold slice. now rewrite firstn_nil.
Qed.

Lemma analyze_short_series_witness :
  report_results (analyze qsqrt_floor [("A"%string, repeat one_candle 60)]
                    (only_rsi_below (Fin 101)) "4h" 0) = []
  /\ totalScanned (analyze qsqrt_floor [("A"%string, repeat one_candle 60)]
                     (only_rsi_below (Fin 101)) "4h" 0) = 1%nat.
Proof.
  destruct (analyze_short_series qsqrt_floor [("A"%string, repeat one_candle 60)]
              (only_rsi_below (Fin 101)) "4h" 0) as (H1 & _ & H3).
  - constructor; [|constructor]. cbn [snd]. rewrite repeat_length. lia.
  - split; [exact H1 | exact H3].
Defined.

(** X20: the results of the report are in descending order of score, every
    score is in [0,100], and the report together with some left-out results
    is a rearrangement of the matching results, no left-out result having a
    higher score than a reported one. *)
Theorem analyze_results_ranked (qsqrt : Q -> Q) (klinesMap : symbol_map (list kline))
    (f : filters) (itv : string) (maxResults : Z) :
  let report := analyze qsqrt klinesMap f itv maxResults in
  StronglySorted score_ge report.(report_results)
  /\ Forall score_in_range report.(report_results)
  /\ exists dropped,
       Permutation (report.(report_results) ++ dropped) (matching qsqrt f klinesMap)
       /\ forall a b, In a report.(report_results) -> In b dropped -> score_ge a b.
Proof.
  unfold analyze. rewrite analyze_fold. cbn [app]. cbv zeta. cbn [report_results].
  pose proof (matching_scores qsqrt f klinesMap) as Hsc.
  pose proof (sort_by_score_sorted _ Hsc) as Hs.
  pose proof (sort_by_score_perm (matching qsqrt f klinesMap)) as Hp.
  set (sorted := sort_by_score (matching qsqrt f klinesMap)) in *.
  assert (Hsc' : Forall score_in_range sorted).
  { apply (Permutation_Forall (Permutation_sym Hp)), Hsc. }
  destruct (maxResults >? 0)%Z.
  - unfold slice. cbn [skipn]. rewrite Nat.sub_0_r.
    set (k := Z.to_nat maxResults).
    rewrite <- (firstn_skipn k sorted) in Hs, Hp.
    destruct (StronglySorted_app _ _ _ Hs) as [Hs1 Hs2].
    split; [exact Hs1|]. split; [apply Forall_firstn, Hsc'|].
    exists (skipn k sorted). split; [exact Hp | exact Hs2].
  - split; [exact Hs|]. split; [exact Hsc'|].
    exists []. rewrite app_nil_r. split; [exact Hp | intros a b _ []].
Qed.

(** X24: the loop leaves a fetched series out of the results for two
    reasons only: the series has fewer than 100 candles, or its snapshot
    does not satisfy the criteria.  The indicator computation never throws
    there (the [catch] is never taken), since 100 closes are enough for
    every indicator. *)
Theorem analyze_one_skips_iff (qsqrt : Q -> Q) (f : filters)
    (results : list scan_result) (scanned : nat) (entry : string * list kline) :
  fst (analyze_one qsqrt f (results, scanned) entry) = results
  <-> (length (snd entry) < 100)%nat
      \/ exists ind,
           getLatestIndicators qsqrt (map k_close (snd entry))
             (map k_high (snd entry)) (map k_low (snd entry)) = Ok ind
           /\ matchesFilters ind (Some f) = false.
Proof.
  rewrite analyze_one_result. cbn [fst]. unfold result_of.
  destruct (reaches_analysis entry) eqn:R.
  - destruct (reaches_analysis_computes qsqrt entry R) as (ind & E). rewrite E.
    unfold reaches_analysis in R. apply negb_true_iff, Nat.ltb_ge in R.
    destruct (matchesFilters ind (Some f)) eqn:M.
    + split.
      * intros H. apply (f_equal (@length scan_result)) in H.
        rewrite length_app in H. simpl in H. lia.
      * intros [H | (ind' & [= <-] & H)]; [lia | congruence].
    + rewrite app_nil_r. split; [intros _; right; now exists ind | reflexivity].
  - unfold reaches_analysis in R. apply negb_false_iff, Nat.ltb_lt in R.
    rewrite app_nil_r. split; [intros _; left; exact R | reflexivity].
Qed.

Lemma matching_symbols (qsqrt : Q -> Q) (f : filters) (klinesMap : symbol_map (list kline)) :
  exists keep,
    map sr_symbol (matching qsqrt f klinesMap)
    = map fst (filter keep klinesMap).
Proof.
  exists (fun entry => is_defined (result_of qsqrt f entry)).
  unfold matching. induction klinesMap as [| entry m IH]; [reflexivity|].
  cbn [flat_map filter]. rewrite map_app, IH.
  destruct (result_of qsqrt f entry) as [r |] eqn:E; cbn [is_defined]; [|reflexivity].
  cbn [map app]. f_equal. unfold result_of in E.
  destruct (reaches_analysis entry); [|discriminate].
  destruct (getLatestIndicators _ _ _ _); [|discriminate].
  destruct (matchesFilters _ _); [|discriminate].
  injection E as <-. reflexivity.
Qed.

Lemma NoDup_map_filter {A B : Type} (g : A -> B) (keep : A -> bool) (l : list A) :
  NoDup (map g l) -> NoDup (map g (filter keep l)).
Proof.
  induction l as [| a l IH]; simpl; intros H; [constructor|].
  inversion H as [| ? ? Hn Hd]; subst. destruct (keep a); simpl; [|auto].
  constructor; [|auto]. intros Hin. apply Hn.
  apply in_map_iff in Hin. destruct Hin as (x & E & Hx).
  apply filter_In in Hx. apply in_map_iff. exists x. tauto.
Qed.

Lemma In_firstn {A : Type} (n : nat) (l : list A) (x : A) : In x (firstn n l) -> In x l.
Proof.
  intros H. rewrite <- (firstn_skipn n l). apply in_or_app. now left.
Qed.

Lemma NoDup_firstn {A : Type} (n : nat) (l : list A) : NoDup l -> NoDup (firstn n l).
Proof.
  intros H. rewrite <- (firstn_skipn n l) in H. now apply NoDup_app_remove_r in H.
Qed.

(** X26: a whole run of [scanSymbols] ends; its report lists no symbol
    twice (also when the list of symbols repeats one) and only symbols of the
    list; and matchedCount <= totalScanned <= number of symbols. *)
Theorem scanSymbols_report_invariants (qsqrt : Q -> Q) (net : exchange)
    (symbols : list string) (f : filters) (itv : string) (maxResults : Z) :
  exists report,
    scanSymbols qsqrt (length symbols) net symbols f itv maxResults = Some report
    /\ NoDup (map sr_symbol report.(report_results))
    /\ (forall r, In r report.(report_results) -> In r.(sr_symbol) symbols)
    /\ (report.(matchedCount) <= report.(totalScanned))%nat
    /\ (report.(totalScanned) <= length symbols)%nat.
Proof.
  unfold scanSymbols, fetchKlinesBatch, fetchKlinesBatch_with.
  assert (HB : (1 <= BATCH_SIZE)%nat) by (unfold BATCH_SIZE; lia).
  destruct (batch_loop_same BATCH_SIZE net true symbols HB (length symbols) 0
              fetch_start fetch_start (same_but_batch_delays_refl _))
    as (st & -> & (_ & _ & M & _)); [lia|].
  cbn [skipn] in M.
  destruct (fetch_all_map net true (length symbols) symbols fetch_start)
    as (H1 & _ & H3); [constructor | constructor |]. cbv zeta in *.
  destruct (fetch_batch_spec net true (length symbols) symbols fetch_start)
    as (_ & _ & _ & H4). cbv zeta in H4.
  rewrite <- M in H1, H3, H4. cbn [fetch_start results length Nat.add] in H3.
  eexists. split; [reflexivity|].
  unfold analyze. rewrite analyze_fold. cbn [app Nat.add]. cbv zeta.
  cbn [report_results matchedCount totalScanned].
  destruct (matching_symbols qsqrt f (results st)) as (keep & Hsym).
  pose proof (sort_by_score_perm (matching qsqrt f (results st))) as Hp.
  assert (Hnd : NoDup (map sr_symbol (sort_by_score (matching qsqrt f (results st))))).
  { apply (Permutation_NoDup (Permutation_map _ (Permutation_sym Hp))).
    rewrite Hsym. apply NoDup_map_filter, H1. }
  assert (Hin : forall r, In r (sort_by_score (matching qsqrt f (results st))) ->
                          In (sr_symbol r) symbols).
  { intros r Hr. apply (Permutation_in _ Hp) in Hr.
    apply (in_map sr_symbol) in Hr. rewrite Hsym in Hr.
    apply in_map_iff in Hr. destruct Hr as (e & E & He). apply filter_In in He.
    assert (Hk : In (sr_symbol r) (map fst (results st))).
    { rewrite <- E. apply in_map, He. }
    apply map_has_In, H4 in Hk.
    destruct Hk as [Hk | (j & k & ks & Hj & _)]; [discriminate|].
    eapply nth_error_In, Hj. }
  assert (Hlen : (length (sort_by_score (matching qsqrt f (results st)))
                  <= length (results st))%nat).
  { rewrite sort_by_score_length, <- (length_map sr_symbol), Hsym, length_map.
    apply filter_length_le. }
  split; [|split; [|split; [exact Hlen | exact H3]]].
  - destruct (maxResults >? 0)%Z; [|exact Hnd].
    unfold slice. cbn [skipn]. rewrite <- firstn_map. apply NoDup_firstn, Hnd.
  - intros r Hr. apply Hin.
    destruct (maxResults >? 0)%Z; [|exact Hr].
    unfold slice in Hr. cbn [skipn] in Hr. eapply In_firstn, Hr.
Qed.

(** ** The command line *)

Section ParsersProperties.

Variable parseFloat : string -> num.
Variable parseInt : string -> num.
Variable Number : string -> num.

Lemma parseFiltersFromArgs_no_keys (a : cli_args) :
  no_keys (parseFiltersFromArgs parseFloat parseInt Number a)
  = negb (filter_option_given a).
Proof.
  unfold no_keys, parseFiltersFromArgs, filter_option_given.
  cbn [f_rsi f_macd f_ma f_bollinger f_price].
  destruct (rsiBelow a), (rsiAbove a), (rsiBetween a), (macdBullish_flag a),
    (macdBearish_flag a), (macdHistogramPositive a); try reflexivity;
    destruct (maGoldenCross a), (maDeathCross a), (maAbove a), (maBelow a);
    try reflexivity;
    destruct (bbLower a), (bbUpper a), (bdBelowLower a), (bbAboveUpper a),
      (bbNarrow a), (bbWide a); try reflexivity;
    destruct (priceMin a), (priceMax a); reflexivity.
Qed.

Lemma limit_check (l : num) :
  lt l (Fin 50) || gt l (Fin 1000) = false <-> limit_accepted l.
Proof.
  destruct l as [q | | |]; cbn [limit_accepted].
  - rewrite orb_false_iff, <- !not_true_iff_false, lt_Fin, gt_Fin. split.
    + intros [H1 H2]. split; [apply Qnot_lt_le, H1 | apply Qnot_lt_le, H2].
    + intros [H1 H2]. split; apply Qle_not_lt; assumption.
  - split; [discriminate | intros []].
  - split; [discriminate | intros []].
  - split; [trivial | reflexivity].
Qed.

(** X21: [main] starts the scan exactly when the interval is one of the 15
    known ones, some filter option was given, and the candle count is
    between 50 and 1000 or is not a number at all ([--limit abc] passes the
    check, NaN being neither below 50 nor above 1000). *)
Theorem main_checks_accepts (a : cli_args) :
  main_checks parseFloat parseInt Number a = None
  <-> (exists s, a.(arg_interval) = Some s /\ In s INTERVALS)
      /\ limit_accepted a.(arg_limit)
      /\ filter_option_given a = true.
Proof.
  unfold main_checks. rewrite parseFiltersFromArgs_no_keys.
  assert (Hi : interval_included (arg_interval a) = true
               <-> exists s, arg_interval a = Some s /\ In s INTERVALS).
  { unfold interval_included. destruct (arg_interval a) as [s |].
    - rewrite existsb_exists. split.
      + intros (x & Hx & E). apply String.eqb_eq in E. subst. eauto.
      + intros (x & [= <-] & Hx). exists s. split; [exact Hx | apply String.eqb_refl].
    - split; [discriminate | intros (x & E & _); discriminate]. }
  rewrite <- Hi, <- limit_check.
  destruct (interval_included (arg_interval a)); cbn [negb];
    [|split; [discriminate | intros (E & _); discriminate]].
  destruct (lt (arg_limit a) (Fin 50) || gt (arg_limit a) (Fin 1000));
    [split; [discriminate | intros (_ & E & _); discriminate]|].
  destruct (filter_option_given a); cbn [negb];
    [tauto | split; [discriminate | intros (_ & _ & E); discriminate]].
Qed.

(** X22: with [--macd-histogram-positive s] alone, a snapshot whose histogram
    is the rational [h] matches exactly when [h > 0] if [s] is the word
    "true", and exactly when [h <= 0] for any other word. *)
Theorem histogram_option_semantics (ind : indicators) (h : Q) (s : string) :
  ind.(macd).(macd_histogram) = Fin h ->
  (matchesFilters ind (Some (parseFiltersFromArgs parseFloat parseInt Number
                               (args_histogram s))) = true
   <-> if String.eqb s "true" then 0 < h else h <= 0).
Proof.
  intros Hh. rewrite matchesFilters_blocks. unfold parseFiltersFromArgs, args_histogram.
  cbn [rsiBelow rsiAbove rsiBetween macdBullish_flag macdBearish_flag
       macdHistogramPositive maGoldenCross maDeathCross maAbove maBelow bbLower bbUpper
       bdBelowLower bbAboveUpper bbNarrow bbWide priceMin priceMax is_defined orb
       f_rsi f_macd f_ma f_bollinger f_price block andb flag].
  rewrite andb_true_r. unfold macd_block.
  cbn [macd_bullish macd_bearish macd_histogramPositive truthy andb]. rewrite Hh.
  destruct (String.eqb s "true"); cbn [negb andb];
    destruct (gt (Fin h) (Fin 0)) eqn:E; cbn [negb];
    try apply gt_Fin in E; try (rewrite <- not_true_iff_false, gt_Fin in E);
    (split; [intros H; try discriminate; try lra | intros H; try reflexivity; lra]).
Qed.

End ParsersProperties.

Lemma main_checks_accepts_witness :
  main_checks (fun _ => NaN) (fun _ => NaN) (fun _ => NaN) (args_rsi_below (Fin 30) NaN)
  = None.
Proof.
  apply main_checks_accepts. split; [|split].
  - exists "4h"%string. split; [reflexivity|]. unfold INTERVALS. simpl. tauto.
  - exact I.
  - reflexivity.
Defined.

Lemma histogram_option_semantics_witness :
  matchesFilters (snapshot_with_histogram (Fin 0))
    (Some (parseFiltersFromArgs (fun _ => NaN) (fun _ => NaN) (fun _ => NaN)
             (args_histogram "yes"))) = true.
Proof.
  apply (histogram_option_semantics (fun _ => NaN) (fun _ => NaN) (fun _ => NaN)
           (snapshot_with_histogram (Fin 0)) 0 "yes").
  - reflexivity.
  - discriminate.
Defined.

(** ** The universe of pairs *)

Lemma prefix_app (sub s : string) :
  prefix sub s = true <-> exists b, s = (sub ++ b)%string.
Proof.
  revert s. induction sub as [| c sub IH]; intros s.
  - destruct s; cbn; (split; [intros _; eexists; reflexivity | reflexivity]).
  - destruct s as [| d s]; cbn.
    + split; [discriminate | intros (b & E); discriminate].
    + destruct (ascii_dec c d) as [-> | Hne].
      * rewrite IH. split; intros (b & E); exists b; [now rewrite E | now injection E].
      * split; [discriminate | intros (b & E); injection E; congruence].
Qed.

Lemma includes_contains (s w : string) : includes s w = true <-> contains s w.
Proof.
  unfold contains. induction s as [| c s IH]; cbn [includes].
  - rewrite orb_false_r, prefix_app. split.
    + intros (b & E). exists EmptyString, b. exact E.
    + intros (a & b & E). destruct a; [now exists b | discriminate].
  - rewrite orb_true_iff, prefix_app, IH. split.
    + intros [(b & E) | (a & b & E)].
      * exists EmptyString, b. exact E.
      * exists (String c a), b. cbn. now rewrite E.
    + intros (a & b & E). destruct a as [| d a].
      * left. now exists b.
      * right. cbn in E. injection E as -> E. now exists a, b.
Qed.

Lemma insert_sorted_perm (s : string) (l : list string) :
  Permutation (insert_sorted s l) (s :: l).
Proof.
  induction l as [| t l IH]; simpl; [reflexivity|].
  destruct (String.leb s t); [reflexivity|]. rewrite IH. apply perm_swap.
Qed.

Lemma sort_strings_perm (l : list string) : Permutation (sort_strings l) l.
Proof.
  induction l as [| s l IH]; simpl; [reflexivity|].
  rewrite insert_sorted_perm. now constructor.
Qed.

Lemma insert_sorted_sorted (s : string) (l : list string) :
  Sorted (fun a b => String.leb a b = true) l ->
  Sorted (fun a b => String.leb a b = true) (insert_sorted s l).
Proof.
  intros H. induction H as [| t l Hs IH Hhd]; simpl.
  - repeat constructor.
  - destruct (String.leb s t) eqn:E.
    + repeat constructor; assumption.
    + assert (Hts : String.leb t s = true).
      { destruct (String.leb_total s t) as [H | H]; [congruence | exact H]. }
      constructor; [exact IH|].
      destruct l as [| u l]; simpl.
      * constructor. exact Hts.
      * inversion Hhd; subst. destruct (String.leb s u); constructor; assumption.
Qed.

Lemma sort_strings_sorted (l : list string) :
  Sorted (fun a b => String.leb a b = true) (sort_strings l).
Proof.
  induction l as [| s l IH]; simpl; [constructor|]. apply insert_sorted_sorted, IH.
Qed.

(** X23: on an answer with symbols, [getAllUSDTPairs] returns names in
    ascending order; a name is returned exactly when some entry with that
    name is quoted in USDT, has the status TRADING, and the name holds none
    of the words UP, DOWN, BULL and BEAR anywhere; and every such entry counts
    (the list has as many names as there are such entries). *)
Theorem getAllUSDTPairs_spec (symbols : list symbol_info) :
  exists names,
    getAllUSDTPairs (InfoOk symbols) = inr names
    /\ Sorted (fun a b => String.leb a b = true) names
    /\ length names = length (filter tradable_usdt symbols)
    /\ forall s,
         In s names
         <-> exists i,
               In i symbols /\ i.(si_symbol) = s
               /\ i.(si_quoteAsset) = "USDT"%string
               /\ i.(si_status) = "TRADING"%string
               /\ ~ contains s "UP" /\ ~ contains s "DOWN"
               /\ ~ contains s "BULL" /\ ~ contains s "BEAR".
Proof.
  eexists. split; [reflexivity|]. cbv zeta.
  split; [apply sort_strings_sorted|].
  pose proof (sort_strings_perm (map si_symbol (filter tradable_usdt symbols))) as Hp.
  split; [rewrite (Permutation_length Hp); apply length_map|].
  intros s. split.
  - intros Hs. apply (Permutation_in _ Hp) in Hs.
    apply in_map_iff in Hs. destruct Hs as (i & E & Hi).
    apply filter_In in Hi. destruct Hi as [Hi Ht].
    unfold tradable_usdt in Ht. rewrite !andb_true_iff, !negb_true_iff in Ht.
    destruct Ht as (((((Hq & Hst) & H1) & H2) & H3) & H4).
    apply String.eqb_eq in Hq, Hst. rewrite E in H1, H2, H3, H4.
    exists i. repeat split; try assumption;
      rewrite <- includes_contains; congruence.
  - intros (i & Hi & E & Hq & Hst & H1 & H2 & H3 & H4).
    apply (Permutation_in _ (Permutation_sym Hp)).
    apply in_map_iff. exists i. split; [exact E|].
    apply filter_In. split; [exact Hi|].
    unfold tradable_usdt. rewrite Hq, Hst, E. cbn [String.eqb Ascii.eqb].
    rewrite <- includes_contains in H1, H2, H3, H4.
    apply not_true_is_false in H1, H2, H3, H4. rewrite H1, H2, H3, H4.
    vm_compute. reflexivity.
Qed.

Example getAllUSDTPairs_example :
  getAllUSDTPairs
    (InfoOk [ {| si_symbol := "ETHUSDT"; si_quoteAsset := "USDT"; si_status := "TRADING" |};
              {| si_symbol := "JUPUSDT"; si_quoteAsset := "USDT"; si_status := "TRADING" |};
              {| si_symbol := "BTCUSDT"; si_quoteAsset := "USDT"; si_status := "TRADING" |};
              {| si_symbol := "ETHBTC"; si_quoteAsset := "BTC"; si_status := "TRADING" |};
              {| si_symbol := "LUNAUSDT"; si_quoteAsset := "USDT"; si_status := "BREAK" |} ])
  = inr ["BTCUSDT"; "ETHUSDT"]%string.
Proof. vm_compute. reflexivity. Qed.
